(** * go_graph: dependency graph, topological sort, compilation and execution

    A shallow embedding of [main.go]: the [Graph] of named [Node]s, [Add],
    the depth-first [Sort] with its [visit] helper, [CompileToExecutable]
    and the recursive dispatcher [runNode] / [run].

    Conventions of the embedding.
    - [NodeID] is a Go string; [NodeIDs] (a [map[NodeID]struct{}]) is a
      finite set, the nil map being the empty set (ranging over either
      performs no iteration).
    - Go leaves the order of a [range] over a map unspecified.  Every
      [range] statement of the source takes a [RangeOrder]: the order in
      which the keys come out.  Theorems quantify over all valid orders.
    - A method on a pointer receiver that may fail returns a [result]; a
      method that can write to its receiver returns the receiver's state
      afterwards.
    - Recursion that Go bounds only by the data ([visit], [runNode]) takes
      a fuel argument; running out of fuel is a result of its own.
    - [Sort] and [CompileToExecutable] are embedded a second time over a
      heap ([Sort_mem], [CompileToExecutable_mem]): pointers, maps and
      slices are locations, and every read, write and allocation of the
      source is a step.  This is where what a method writes to is stated;
      both are proved to compute what the first embedding computes. *)

From stdpp Require Import gmap strings list fin_maps fin_sets relations.
From Stdlib Require Import ZArith Lia.

Set Default Proof Using "Type".
Local Open Scope Z_scope.
Local Open Scope nat_scope.

(** ** Data model *)

Abbreviation NodeID := string (only parsing).
Abbreviation NodeIDs := (gset string) (only parsing).

(** A Go [error] built by [fmt.Errorf] is its message. *)
Abbreviation error := string (only parsing).

(** [type NodeFn func(name NodeID) error]; [None] is the nil error. *)
Definition NodeFn : Type := NodeID → option error.

(** [type Node struct]; a nil [Fn] is [None]. *)
Record Node : Type := mkNode {
  Name : string;
  Fn : option NodeFn;
  Dependencies : NodeIDs;
}.

Definition NewNode (name : string) (dependencies : NodeIDs) (fn : option NodeFn) : Node :=
  {| Name := name; Fn := fn; Dependencies := dependencies |}.

Definition Identifier (n : Node) : NodeID := Name n.

(** [type Graph struct { name string; nodes Nodes }] *)
Record Graph : Type := mkGraph {
  name : string;
  nodes : gmap NodeID Node;
}.

Definition NewGraph (name : string) : Graph :=
  {| name := name; nodes := ∅ |}.

(** ** Iteration order of [range] over a map *)

Definition RangeOrder : Type := NodeIDs → list NodeID.

Definition valid_order (o : RangeOrder) : Prop :=
  ∀ s : NodeIDs, o s ≡ₚ elements s.

(** [for k, v := range m]: the keys in the order chosen, each with its value. *)
Definition range_map {V : Type} (o : RangeOrder) (m : gmap NodeID V) : list (NodeID * V) :=
  omap (λ k, (k,.) <$> m !! k) (o (dom m)).

(** ** Results *)

Inductive result (A : Type) : Type :=
  | Ok (a : A)
  | Err (e : error).
Arguments Ok {A} a.
Arguments Err {A} e.

(** [fmt.Errorf("Node with id %s already exists", id)] *)
Definition DuplicateIdentifier (id : NodeID) : error :=
  "Node with id " +:+ id +:+ " already exists".

(** [fmt.Errorf("Node %s is missing dependency %s", id, depId)] *)
Definition MissingDependency (id depId : NodeID) : error :=
  "Node " +:+ id +:+ " is missing dependency " +:+ depId.

(** [fmt.Errorf("Node %s does not exist", n)] *)
Definition NodeDoesNotExist (n : NodeID) : error :=
  "Node " +:+ n +:+ " does not exist".

(** [fmt.Errorf("Detected cycle on %s", n)] *)
Definition CycleDetected (n : NodeID) : error :=
  "Detected cycle on " +:+ n.

(** ** Graph.Add *)

(** The dependency loop of [Add]: the first dependency, in range order, that
    the graph does not hold. *)
Fixpoint first_missing (ns : gmap NodeID Node) (deps : list NodeID) : option NodeID :=
  match deps with
  | [] => None
  | depId :: rest =>
      match ns !! depId with
      | None => Some depId
      | Some _ => first_missing ns rest
      end
  end.

Definition Add (o : RangeOrder) (node : Node) (g : Graph) : result NodeID * Graph :=
  let id := Identifier node in
  match nodes g !! id with
  | Some _ => (Err (DuplicateIdentifier id), g)
  | None =>
      match first_missing (nodes g) (o (Dependencies node)) with
      | Some depId => (Err (MissingDependency id depId), g)
      | None => (Ok id, {| name := name g; nodes := <[id := node]> (nodes g) |})
      end
  end.

(** Graphs obtained from [NewGraph] by successful [Add]s only. *)
Inductive built : Graph → Prop :=
  | built_new nm : built (NewGraph nm)
  | built_add o node g id g' :
      valid_order o →
      built g →
      Add o node g = (Ok id, g') →
      built g'.

(** ** Graph.Sort *)

(** What a fuelled computation yields: a value, a Go [error], or no fuel. *)
Inductive outcome (A : Type) : Type :=
  | Done (a : A)
  | Fail (e : error)
  | OutOfFuel.
Arguments Done {A} a.
Arguments Fail {A} e.
Arguments OutOfFuel {A}.

(** A [map[NodeID]bool] read at a key: absent keys read as [false]. *)
Definition getb (m : gmap NodeID bool) (k : NodeID) : bool :=
  default false (m !! k).

(** The three objects [visit] shares with its caller by reference. *)
Record SortState : Type := mkSortState {
  stack : gmap NodeID bool;
  visited : gmap NodeID bool;
  results : list NodeID;
}.

(** [for i, r := range results { if r == "" { results[i] = name; break } }] *)
Fixpoint fill_first_empty (name : NodeID) (results : list NodeID) : list NodeID :=
  match results with
  | [] => []
  | r :: rest =>
      if decide (r = EmptyString) then name :: rest
      else r :: fill_first_empty name rest
  end.

Section Sorter.
Context (g : Graph) (dord : NodeID → RangeOrder).

(** The loop [for n := range neighbors] of [visit]; [rec] is the recursive
    call [g.visit]. *)
Fixpoint visit_neighbors (rec : NodeID → NodeIDs → SortState → outcome SortState)
    (ns : list NodeID) (st : SortState) : outcome SortState :=
  match ns with
  | [] => Done st
  | n :: rest =>
      if negb (getb (visited st) n) then
        match nodes g !! n with
        | None => Fail (NodeDoesNotExist n)
        | Some node =>
            match rec n (Dependencies node) st with
            | Done st' => visit_neighbors rec rest st'
            | r => r
            end
        end
      else if getb (stack st) n then Fail (CycleDetected n)
      else visit_neighbors rec rest st
  end.

Fixpoint visit (fuel : nat) (name : NodeID) (neighbors : NodeIDs)
    (st : SortState) : outcome SortState :=
  match fuel with
  | O => OutOfFuel
  | S fuel' =>
      let st1 := {| stack := <[name := true]> (stack st);
                    visited := <[name := true]> (visited st);
                    results := results st |} in
      match visit_neighbors (visit fuel') (dord name neighbors) st1 with
      | Done st2 =>
          Done {| stack := <[name := false]> (stack st2);
                  visited := visited st2;
                  results := fill_first_empty name (results st2) |}
      | r => r
      end
  end.

(** The loop [for n, node := range g.nodes] of [Sort]: a fresh [stack] for
    every node not yet visited. *)
Fixpoint sort_nodes (fuel : nat) (l : list (NodeID * Node))
    (vis : gmap NodeID bool) (res : list NodeID) : outcome (list NodeID) :=
  match l with
  | [] => Done res
  | (n, node) :: rest =>
      if negb (getb vis n) then
        match visit fuel n (Dependencies node)
                {| stack := ∅; visited := vis; results := res |} with
        | Done st => sort_nodes fuel rest (visited st) (results st)
        | Fail e => Fail e
        | OutOfFuel => OutOfFuel
        end
      else sort_nodes fuel rest vis res
  end.
End Sorter.

(** [Sort] reads its receiver and writes only to [visited], [stack] and
    [results], which it allocates itself; the receiver comes back as it was
    handed in. *)
Definition Sort (fuel : nat) (gord : RangeOrder) (dord : NodeID → RangeOrder)
    (g : Graph) : outcome (list NodeID) * Graph :=
  (sort_nodes g dord fuel (range_map gord (nodes g)) ∅
     (replicate (size (nodes g)) EmptyString), g).

(** ** Compilation *)

(** [type ExecutableNode struct]; a nil [targetIDs] map and a nil [fn] are
    [None]. *)
Record ExecutableNode : Type := mkExecutableNode {
  targetIDs : option NodeIDs;
  required : Z;
  fn : option NodeFn;
}.

(** [&ExecutableNode{}] *)
Definition zeroExecutableNode : ExecutableNode :=
  {| targetIDs := None; required := 0%Z; fn := None |}.

(** Ranging over [targetIDs]: a nil map has no keys. *)
Definition targets_of (exn : ExecutableNode) : NodeIDs :=
  default ∅ (targetIDs exn).

Definition add_ids (targets : NodeIDs) (nodeIds : list NodeID) : NodeIDs :=
  foldl (λ t id, {[id]} ∪ t) targets nodeIds.

Definition AddTargets (nodeIds : list NodeID) (exn : ExecutableNode) : ExecutableNode :=
  match targetIDs exn with
  | None =>
      {| targetIDs := Some (add_ids ∅ nodeIds); required := required exn; fn := fn exn |}
  | Some targets =>
      {| targetIDs := Some (add_ids targets nodeIds); required := required exn; fn := fn exn |}
  end.

Abbreviation executableNodes := (gmap string ExecutableNode) (only parsing).

(** The range statement of [RootIds] with its [append]. *)
Definition RootIds (o : RangeOrder) (en : executableNodes) : list NodeID :=
  foldl (λ rootIds '(id, node),
           if decide (required node = 0%Z) then rootIds ++ [id] else rootIds)
        [] (range_map o en).

(** [GetOrCreate] returns the node held at [id] and the map, which has a
    zero node at [id] when it had none. *)
Definition GetOrCreate (id : NodeID) (en : executableNodes) : ExecutableNode * executableNodes :=
  match en !! id with
  | Some n => (n, en)
  | None => (zeroExecutableNode, <[id := zeroExecutableNode]> en)
  end.

Record ParallelizedExecutableGraph : Type := mkPEG {
  peg_name : string;
  peg_nodes : executableNodes;
}.

(** [dep := nodes.GetOrCreate(depId); dep.AddTargets(id)]: the write goes
    through the pointer held in the map at [depId]. *)
Definition compile_dep (id : NodeID) (en : executableNodes) (depId : NodeID) : executableNodes :=
  let '(dep, en') := GetOrCreate depId en in
  <[depId := AddTargets [id] dep]> en'.

(** One iteration of the outer loop of [CompileToExecutable]. *)
Definition compile_node (dord : NodeID → RangeOrder) (en : executableNodes)
    (entry : NodeID * Node) : executableNodes :=
  let '(id, node) := entry in
  let en1 := foldl (compile_dep id) en (dord id (Dependencies node)) in
  let '(n, en2) := GetOrCreate id en1 in
  <[id := {| targetIDs := targetIDs n;
             required := Z.of_nat (size (Dependencies node));
             fn := Fn node |}]> en2.

(** [CompileToExecutable] reads its receiver and builds the plan in maps of
    its own; the receiver comes back as it was handed in. *)
Definition CompileToExecutable (gord : RangeOrder) (dord : NodeID → RangeOrder)
    (g : Graph) : ParallelizedExecutableGraph * Graph :=
  ({| peg_name := name g;
      peg_nodes := foldl (compile_node dord) ∅ (range_map gord (nodes g)) |}, g).

(** ** Execution *)

(** One call [node.fn(id)] and the error it returned, which [runNode] drops. *)
Abbreviation event := (string * option string)%type (only parsing).

(** How a run ends.  [run] has no result parameters: what it returns to its
    caller is [tt]; the calls it made are the trace. *)
Inductive run_outcome : Type :=
  | Returned (ret : unit) (tr : list event)
  | NilNode (id : NodeID)      (* [peg.nodes[id]] is nil: nil dereference *)
  | NilFn (id : NodeID)        (* [node.fn] is nil: call of a nil func *)
  | RunOutOfFuel.

(** A loop [for t := range ts { peg.runNode(t) }]. *)
Fixpoint run_each (rec : NodeID → run_outcome) (ts : list NodeID) : run_outcome :=
  match ts with
  | [] => Returned tt []
  | t :: rest =>
      match rec t with
      | Returned _ tr =>
          match run_each rec rest with
          | Returned _ tr' => Returned tt (tr ++ tr')
          | r => r
          end
      | r => r
      end
  end.

(** [path] is the chain of callers, innermost first: it names the activation,
    so that every [range] of every activation has an order of its own. *)
Fixpoint runNode (fuel : nat) (tord : list NodeID → RangeOrder)
    (peg : ParallelizedExecutableGraph) (path : list NodeID) (id : NodeID) : run_outcome :=
  match fuel with
  | O => RunOutOfFuel
  | S fuel' =>
      match peg_nodes peg !! id with
      | None => NilNode id
      | Some node =>
          match fn node with
          | None => NilFn id
          | Some f =>
              let ev := (id, f id) in
              match run_each (runNode fuel' tord peg (id :: path))
                             (tord (id :: path) (targets_of node)) with
              | Returned _ tr => Returned tt (ev :: tr)
              | r => r
              end
          end
      end
  end.

Definition run (fuel : nat) (pord : RangeOrder) (tord : list NodeID → RangeOrder)
    (peg : ParallelizedExecutableGraph) : run_outcome :=
  run_each (runNode fuel tord peg []) (RootIds pord (peg_nodes peg)).

(** ** The plan a graph describes *)

(** The entries among [l] that declare [k] as a dependency. *)
Definition users (l : list (NodeID * Node)) (k : NodeID) : NodeIDs :=
  list_to_set (filter (λ kv, k ∈ Dependencies kv.2) l).*1.

(** The keys of the nodes that depend on [k]. *)
Definition dependents (ns : gmap NodeID Node) (k : NodeID) : NodeIDs :=
  users (map_to_list ns) k.

(** The execution node of a key that holds [own] in the graph and on which
    the nodes [ts] depend; no node for a key that is neither stored nor
    depended on. *)
Definition plan_entry (own : option Node) (ts : NodeIDs) : option ExecutableNode :=
  match own, decide (ts = ∅) with
  | None, left _ => None
  | _, _ =>
      Some {| targetIDs := if decide (ts = ∅) then None else Some ts;
              required := from_option (λ n, Z.of_nat (size (Dependencies n))) 0%Z own;
              fn := own ≫= Fn |}
  end.

(** ** Reading a run *)

(** The targets a plan holds for a key; none for a key it does not hold. *)
Definition node_targets (peg : ParallelizedExecutableGraph) (id : NodeID) : NodeIDs :=
  from_option targets_of ∅ (peg_nodes peg !! id).

(** The identifiers whose work was called, in call order. *)
Definition called (tr : list event) : list NodeID := tr.*1.

(** How often [n] occurs in [l]. *)
Definition calls (n : NodeID) (l : list NodeID) : nat :=
  length (filter (λ x, x = n) l).

(** How many entries of [l] lie in [s]. *)
Definition calls_in (s : NodeIDs) (l : list NodeID) : nat :=
  length (filter (λ x, x ∈ s) l).

(** [n] declares [d] as a dependency in the graph. *)
Definition depends_on (g : Graph) (n d : NodeID) : Prop :=
  ∃ node, nodes g !! n = Some node ∧ d ∈ Dependencies node.

(** The same plan with work functions that report no error. *)
Definition quiet_node (exn : ExecutableNode) : ExecutableNode :=
  {| targetIDs := targetIDs exn;
     required := required exn;
     fn := (λ _ : NodeFn, (λ _ : NodeID, None) : NodeFn) <$> fn exn |}.

Definition quiet (peg : ParallelizedExecutableGraph) : ParallelizedExecutableGraph :=
  {| peg_name := peg_name peg; peg_nodes := quiet_node <$> peg_nodes peg |}.

(** A run seen without the errors of the work functions. *)
Definition forget_errors (r : run_outcome) : run_outcome :=
  match r with
  | Returned u tr => Returned u ((λ ev : event, (ev.1, None)) <$> tr)
  | _ => r
  end.

(** In [tr], every call of a node is followed, later on, by a call of each of
    the node's targets. *)
Definition targets_follow (peg : ParallelizedExecutableGraph) (tr : list event) : Prop :=
  ∀ i d r t, tr !! i = Some (d, r) → t ∈ node_targets peg d →
             ∃ j r', i < j ∧ tr !! j = Some (t, r').

(** A run that ends: it returns, or panics on a nil work function. *)
Definition ends (r : run_outcome) : Prop :=
  (∃ tr, r = Returned tt tr) ∨ (∃ id, r = NilFn id).

(** ** Sample graphs *)

Definition succeed : NodeFn := λ _, None.
Definition fail_with (msg : string) : NodeFn := λ _, Some msg.

(** A sequence of [g.Add(n)] calls whose results are ignored, as in [main]. *)
Definition add_all (o : RangeOrder) (ns : list Node) (g : Graph) : Graph :=
  foldl (λ g n, (Add o n g).2) g ns.

(** A and E without dependencies, C depending on both. *)
Definition diamond : Graph :=
  add_all elements
    [NewNode "A" ∅ (Some succeed); NewNode "E" ∅ (Some succeed);
     NewNode "C" {["A"; "E"]} (Some succeed)]
    (NewGraph "diamond").

(** B depends on A. *)
Definition pair_graph (fa : NodeFn) : Graph :=
  add_all elements
    [NewNode "A" ∅ (Some fa); NewNode "B" {["A"]} (Some succeed)]
    (NewGraph "pair").

Definition fixed_order : RangeOrder := elements.
Definition reverse_order : RangeOrder := λ s, reverse (elements s).

(** ** Reading the state of a sort *)

Definition is_visited (st : SortState) (n : NodeID) : Prop :=
  getb (visited st) n = true.

Definition on_stack (st : SortState) (n : NodeID) : Prop :=
  getb (stack st) n = true.

(** Visited and no longer an ancestor of the node being visited. *)
Definition finished (st : SortState) (n : NodeID) : Prop :=
  is_visited st n ∧ ¬ on_stack st n.

(** The stored nodes not visited yet. *)
Definition unvisited (g : Graph) (st : SortState) : nat :=
  length (filter (λ k, getb (visited st) k = false) (elements (dom (nodes g)))).

(** [st'] has visited at least what [st] has, and has the same stack. *)
Definition extends (st st' : SortState) : Prop :=
  (∀ n, is_visited st n → is_visited st' n) ∧ (∀ n, on_stack st' n ↔ on_stack st n).

(** Every dependency that a node declares is stored. *)
Definition closed (g : Graph) : Prop :=
  ∀ n d, depends_on g n d → d ∈ dom (nodes g).

(** Some node depends, through one or more edges, on itself. *)
Definition cyclic (g : Graph) : Prop :=
  ∃ n, tc (depends_on g) n n.

(** [l] lists every dependency before the nodes that declare it. *)
Definition dependencies_first (g : Graph) (l : list NodeID) : Prop :=
  ∀ i n d, l !! i = Some n → depends_on g n d → ∃ j, j < i ∧ l !! j = Some d.

(** The slice [results]: the finished nodes in the order they finished,
    dependencies first, then the slots still empty. *)
Definition results_ok (g : Graph) (st : SortState) : Prop :=
  ∃ fin, results st = fin ++ replicate (size (nodes g) - length fin) EmptyString
         ∧ NoDup fin
         ∧ (∀ n, n ∈ fin ↔ finished st n)
         ∧ dependencies_first g fin.

Definition sort_inv (g : Graph) (st : SortState) : Prop :=
  (∀ n, on_stack st n → is_visited st n)
  ∧ (∀ n, is_visited st n → n ∈ dom (nodes g))
  ∧ (∀ n, finished st n → Acc (flip (depends_on g)) n)
  ∧ (EmptyString ∉ dom (nodes g) → results_ok g st).

(** The two errors of [visit]: a cycle through [n], or a declared dependency
    [n] that is not stored. *)
Definition bad_dependency (g : Graph) (e : error) : Prop :=
  (∃ n, e = CycleDetected n ∧ tc (depends_on g) n n)
  ∨ (∃ n, e = NodeDoesNotExist n ∧ (n ∉ dom (nodes g)) ∧ ∃ m, depends_on g m n).

Definition visit_pre (g : Graph) (fuel : nat) (name : NodeID) (st : SortState) : Prop :=
  sort_inv g st
  ∧ ¬ is_visited st name
  ∧ (∀ s, on_stack st s → rtc (depends_on g) s name)
  ∧ unvisited g st ≤ fuel.

Definition visit_post (g : Graph) (name : NodeID) (st : SortState)
    (r : outcome SortState) : Prop :=
  match r with
  | Done st' => sort_inv g st' ∧ extends st st' ∧ finished st' name
  | Fail e => bad_dependency g e
  | OutOfFuel => False
  end.

(** The result of [Sort] on a graph whose nodes all got visited. *)
Definition sort_post (g : Graph) (r : outcome (list NodeID)) : Prop :=
  match r with
  | Done l =>
      (∀ n, n ∈ dom (nodes g) → Acc (flip (depends_on g)) n)
      ∧ (EmptyString ∉ dom (nodes g) →
         l ≡ₚ elements (dom (nodes g)) ∧ dependencies_first g l)
  | Fail e => bad_dependency g e
  | OutOfFuel => False
  end.

Definition node_empty : Node := NewNode "" ∅ (Some succeed).
Definition node_a : Node := NewNode "a" {[""]} (Some succeed).

(** A node whose identifier is the empty string, and a node that depends on
    it; both [Add]s succeed. *)
Definition empty_id_graph : Graph :=
  add_all elements [node_empty; node_a] (NewGraph "g").

(** A depends on C, B on A, C on B. *)
Definition cycle3 : Graph :=
  {| name := "cycle";
     nodes := <["A" := NewNode "A" {["C"]} (Some succeed)]>
              (<["B" := NewNode "B" {["A"]} (Some succeed)]>
              (<["C" := NewNode "C" {["B"]} (Some succeed)]> ∅)) |}.

(** A depends on itself and on Z, which is not stored. *)
Definition cycle_missing : Graph :=
  {| name := "cycle";
     nodes := <["A" := NewNode "A" {["A"; "Z"]} (Some succeed)]> ∅ |}.

Definition node_C : Node := NewNode "C" {["A"; "E"]} (Some succeed).

(** The plans of the sample graphs, compiled in the order [elements] gives. *)
Definition diamond_plan : ParallelizedExecutableGraph :=
  (CompileToExecutable fixed_order (λ _, fixed_order) diamond).1.

Definition pair_plan (fa : NodeFn) : ParallelizedExecutableGraph :=
  (CompileToExecutable fixed_order (λ _, fixed_order) (pair_graph fa)).1.

(** The dependencies of a finished node are finished. *)
Definition deps_finished (g : Graph) (st : SortState) : Prop :=
  ∀ n d, finished st n → depends_on g n d → finished st d.

(** In [tr], every call is the call of one of [roots] or comes after the
    call of a node that has it as a target. *)
Definition parented (peg : ParallelizedExecutableGraph) (roots : list NodeID)
    (tr : list event) : Prop :=
  ∀ j x r, tr !! j = Some (x, r) →
    x ∈ roots ∨ ∃ i d r', i < j ∧ tr !! i = Some (d, r') ∧ x ∈ node_targets peg d.

(** B depends on A and on C, C depends on B: a cycle below the root A. *)
Definition rooted_cycle : Graph :=
  {| name := "rooted";
     nodes := <["A" := NewNode "A" ∅ (Some succeed)]>
              (<["B" := NewNode "B" {["A"; "C"]} (Some succeed)]>
              (<["C" := NewNode "C" {["B"]} (Some succeed)]> ∅)) |}.

(** The graph of [main]: the chain a, b, c, d and the single node e. *)
Definition main_graph : Graph :=
  add_all elements
    [NewNode "a" ∅ (Some succeed); NewNode "b" {["a"]} (Some succeed);
     NewNode "c" {["b"]} (Some succeed); NewNode "d" {["c"]} (Some succeed);
     NewNode "e" ∅ (Some succeed)]
    (NewGraph "my-graph").

(** B declares the dependency A, which is not stored. *)
Definition dangling : Graph :=
  {| name := "dangling";
     nodes := <["B" := NewNode "B" {["A"]} (Some succeed)]> ∅ |}.

(** [b] is a target of [a] in the plan. *)
Definition targets_rel (peg : ParallelizedExecutableGraph) (a b : NodeID) : Prop :=
  b ∈ node_targets peg a.

(** A node that declares itself as a dependency. *)
Definition node_self : Node := NewNode "s" {["s"]} (Some succeed).

(** The slice [results] in general: the finished nodes in the order they
    finished, dependencies first, with a node whose identifier is the empty
    string left out, then the slots still empty. *)
Definition results_filled (g : Graph) (st : SortState) : Prop :=
  ∃ fin, results st
         = filter (λ x, x ≠ EmptyString) fin
           ++ replicate (size (nodes g) - length (filter (λ x, x ≠ EmptyString) fin))
                        EmptyString
         ∧ NoDup fin
         ∧ (∀ n, n ∈ fin ↔ finished st n)
         ∧ dependencies_first g fin.

(** ** Sort, with the place of a failure *)

(** The outcome of [Sort] and [visit] together with, on an error, the node
    whose [visit] raised it and the maps [stack], [visited] and [results] as
    they were at that moment.  Go's [error] does not carry them; they are
    kept here to say where the error was raised. *)
Inductive traced (A : Type) : Type :=
  | TDone (a : A)
  | TFail (e : error) (at_node : NodeID) (st : SortState)
  | TOutOfFuel.
Arguments TDone {A} a.
Arguments TFail {A} e at_node st.
Arguments TOutOfFuel {A}.

Definition erase {A : Type} (r : traced A) : outcome A :=
  match r with
  | TDone a => Done a
  | TFail e _ _ => Fail e
  | TOutOfFuel => OutOfFuel
  end.

Section SorterAt.
Context (g : Graph) (dord : NodeID → RangeOrder).

(** The loop of [visit name]; the two [return fmt.Errorf] of the loop happen
    in the visit of [name], in the state [st]. *)
Fixpoint visit_neighbors_at (name : NodeID)
    (rec : NodeID → NodeIDs → SortState → traced SortState)
    (ns : list NodeID) (st : SortState) : traced SortState :=
  match ns with
  | [] => TDone st
  | n :: rest =>
      if negb (getb (visited st) n) then
        match nodes g !! n with
        | None => TFail (NodeDoesNotExist n) name st
        | Some node =>
            match rec n (Dependencies node) st with
            | TDone st' => visit_neighbors_at name rec rest st'
            | r => r
            end
        end
      else if getb (stack st) n then TFail (CycleDetected n) name st
      else visit_neighbors_at name rec rest st
  end.

Fixpoint visit_at (fuel : nat) (name : NodeID) (neighbors : NodeIDs)
    (st : SortState) : traced SortState :=
  match fuel with
  | O => TOutOfFuel
  | S fuel' =>
      let st1 := {| stack := <[name := true]> (stack st);
                    visited := <[name := true]> (visited st);
                    results := results st |} in
      match visit_neighbors_at name (visit_at fuel') (dord name neighbors) st1 with
      | TDone st2 =>
          TDone {| stack := <[name := false]> (stack st2);
                   visited := visited st2;
                   results := fill_first_empty name (results st2) |}
      | r => r
      end
  end.

Fixpoint sort_nodes_at (fuel : nat) (l : list (NodeID * Node))
    (vis : gmap NodeID bool) (res : list NodeID) : traced (list NodeID) :=
  match l with
  | [] => TDone res
  | (n, node) :: rest =>
      if negb (getb vis n) then
        match visit_at fuel n (Dependencies node)
                {| stack := ∅; visited := vis; results := res |} with
        | TDone st => sort_nodes_at fuel rest (visited st) (results st)
        | TFail e m st => TFail e m st
        | TOutOfFuel => TOutOfFuel
        end
      else sort_nodes_at fuel rest vis res
  end.
End SorterAt.

Definition Sort_at (fuel : nat) (gord : RangeOrder) (dord : NodeID → RangeOrder)
    (g : Graph) : traced (list NodeID) :=
  sort_nodes_at g dord fuel (range_map gord (nodes g)) ∅
    (replicate (size (nodes g)) EmptyString).

(** The cycle error for [n] raised in the visit of [m], in state [st]: [m]
    is being visited and declares [n] as a dependency, [n] is on [stack],
    and the nodes on [stack] are ancestors of [m] (or [m] itself): each
    reaches [m] along dependency edges. *)
Definition back_edge_at (g : Graph) (n m : NodeID) (st : SortState) : Prop :=
  depends_on g m n
  ∧ on_stack st n
  ∧ on_stack st m
  ∧ ∀ s, on_stack st s → rtc (depends_on g) s m.

Definition raised_at (g : Graph) (e : error) (m : NodeID) (st : SortState) : Prop :=
  (∃ n, e = CycleDetected n ∧ back_edge_at g n m st)
  ∨ (∃ n, e = NodeDoesNotExist n ∧ (n ∉ dom (nodes g)) ∧ depends_on g m n).

(** Two cycles without a common node: X and Y depend on each other, and so
    do P and Q. *)
Definition two_cycles : Graph :=
  {| name := "two";
     nodes := <["P" := NewNode "P" {["Q"]} (Some succeed)]>
              (<["Q" := NewNode "Q" {["P"]} (Some succeed)]>
              (<["X" := NewNode "X" {["Y"]} (Some succeed)]>
              (<["Y" := NewNode "Y" {["X"]} (Some succeed)]> ∅))) |}.

(** ** The methods on a heap

    [Sort] and [CompileToExecutable] once more, this time with the memory
    they work on: a [*Graph], a map, a [*Node] and a slice are references
    into a heap, reads and writes go through them, and [make], a map
    literal and [&T{}] allocate.  What a method leaves in memory can then be
    compared with what it found.  A [range] reads the keys of its map when
    the loop starts, and the order oracle arranges them. *)

(** A pointer, a map or a slice: a location, or nil. *)
Abbreviation ptr := (option nat) (only parsing).

Inductive cell : Type :=
  | CGraph (nm : string) (ns : ptr)                      (* Graph *)
  | CNodes (m : gmap NodeID ptr)                         (* Nodes *)
  | CNode (nm : string) (f : option NodeFn) (deps : ptr) (* Node *)
  | CNodeIDs (s : NodeIDs)                               (* NodeIDs *)
  | CBools (m : gmap NodeID bool)                        (* map[NodeID]bool *)
  | CSlice (a : list NodeID)                             (* the array of a []NodeID *)
  | CExecs (m : gmap NodeID ptr)                         (* executableNodes *)
  | CExec (targets : ptr) (req : Z) (f : option NodeFn)  (* ExecutableNode *)
  | CPEG (nm : string) (ns : ptr).                       (* ParallelizedExecutableGraph *)

Abbreviation heap := (gmap nat cell) (only parsing).

(** A statement ends with a value, panics, or has no fuel left. *)
Inductive exec (A : Type) : Type :=
  | Value (a : A)
  | Panics
  | NoFuel.
Arguments Value {A} a.
Arguments Panics {A}.
Arguments NoFuel {A}.

Definition Mem (A : Type) : Type := heap → exec A * heap.

#[global] Instance Mem_ret : MRet Mem := λ A a h, (Value a, h).

#[global] Instance Mem_bind : MBind Mem := λ A B f m h,
  match m h with
  | (Value a, h') => f a h'
  | (Panics, h') => (Panics, h')
  | (NoFuel, h') => (NoFuel, h')
  end.

Definition panic {A : Type} : Mem A := λ h, (Panics, h).
Definition out_of_fuel {A : Type} : Mem A := λ h, (NoFuel, h).

(** Reading through a pointer; a nil pointer panics. *)
Definition load (p : ptr) : Mem cell := λ h,
  match p ≫= (h !!.) with
  | Some c => (Value c, h)
  | None => (Panics, h)
  end.

(** Writing through a pointer or into a map; nil panics. *)
Definition store (p : ptr) (c : cell) : Mem unit := λ h,
  match p with
  | Some l => (Value tt, <[l := c]> h)
  | None => (Panics, h)
  end.

(** [make], a map literal, [&T{...}]: a location not in use. *)
Definition alloc (c : cell) : Mem ptr := λ h,
  let l := fresh (dom h) in (Value (Some l), <[l := c]> h).

(** Fields.  Go's types rule out a cell of another kind behind a pointer;
    here that case panics. *)
Definition Graph_name (g : ptr) : Mem string :=
  c ← load g; match c with CGraph nm _ => mret nm | _ => panic end.

Definition Graph_nodes (g : ptr) : Mem ptr :=
  c ← load g; match c with CGraph _ ns => mret ns | _ => panic end.

Definition Node_Fn (n : ptr) : Mem (option NodeFn) :=
  c ← load n; match c with CNode _ f _ => mret f | _ => panic end.

Definition Node_Dependencies (n : ptr) : Mem ptr :=
  c ← load n; match c with CNode _ _ deps => mret deps | _ => panic end.

(** The content of a map or slice; nil has none. *)
Definition read_Nodes (m : ptr) : Mem (gmap NodeID ptr) :=
  match m with
  | None => mret ∅
  | Some _ => c ← load m; match c with CNodes x => mret x | _ => panic end
  end.

Definition read_NodeIDs (m : ptr) : Mem NodeIDs :=
  match m with
  | None => mret ∅
  | Some _ => c ← load m; match c with CNodeIDs x => mret x | _ => panic end
  end.

Definition read_bools (m : ptr) : Mem (gmap NodeID bool) :=
  match m with
  | None => mret ∅
  | Some _ => c ← load m; match c with CBools x => mret x | _ => panic end
  end.

Definition read_slice (s : ptr) : Mem (list NodeID) :=
  match s with
  | None => mret []
  | Some _ => c ← load s; match c with CSlice x => mret x | _ => panic end
  end.

Definition read_execs (m : ptr) : Mem (gmap NodeID ptr) :=
  match m with
  | None => mret ∅
  | Some _ => c ← load m; match c with CExecs x => mret x | _ => panic end
  end.

(** [m[k]] of a [map[NodeID]bool] *)
Definition get_bool (m : ptr) (k : NodeID) : Mem bool :=
  x ← read_bools m; mret (getb x k).

(** [m[k] = b] *)
Definition set_bool (m : ptr) (k : NodeID) (b : bool) : Mem unit :=
  x ← read_bools m; store m (CBools (<[k := b]> x)).

(** [g.nodes[n]] with its [ok] *)
Definition Graph_node (g : ptr) (n : NodeID) : Mem (option ptr) :=
  ns ← Graph_nodes g; m ← read_Nodes ns; mret (m !! n).

(** *** Sort *)

Section SorterMem.
Context (dord : NodeID → RangeOrder) (g : ptr) (stack visited results : ptr).

(** The loop [for n := range neighbors] of [visit]. *)
Fixpoint visit_neighbors_mem (rec : NodeID → ptr → Mem (option error))
    (ns : list NodeID) : Mem (option error) :=
  match ns with
  | [] => mret None
  | n :: rest =>
      v ← get_bool visited n;
      if negb v then
        (ok ← Graph_node g n;
         match ok with
         | None => mret (Some (NodeDoesNotExist n))
         | Some _ =>
             node ← Graph_node g n;
             deps ← Node_Dependencies (default None node);
             err ← rec n deps;
             match err with
             | Some e => mret (Some e)
             | None => visit_neighbors_mem rec rest
             end
         end)
      else
        (s ← get_bool stack n;
         if (s : bool) then mret (Some (CycleDetected n))
         else visit_neighbors_mem rec rest)
  end.

Fixpoint visit_mem (fuel : nat) (name : NodeID) (neighbors : ptr) : Mem (option error) :=
  match fuel with
  | O => out_of_fuel
  | S fuel' =>
      set_bool visited name true;;
      set_bool stack name true;;
      ns ← read_NodeIDs neighbors;
      err ← visit_neighbors_mem (visit_mem fuel') (dord name ns);
      match err with
      | Some e => mret (Some e)
      | None =>
          a ← read_slice results;
          (if decide (EmptyString ∈ a)
           then store results (CSlice (fill_first_empty name a))
           else mret tt);;
          set_bool stack name false;;
          mret None
      end
  end.
End SorterMem.

(** The loop [for n, node := range g.nodes] of [Sort]. *)
Fixpoint sort_nodes_mem (fuel : nat) (dord : NodeID → RangeOrder) (g : ptr)
    (visited results : ptr) (l : list (NodeID * ptr)) : Mem (result ptr) :=
  match l with
  | [] => mret (Ok results)
  | (n, node) :: rest =>
      v ← get_bool visited n;
      if negb v then
        (stack ← alloc (CBools ∅);
         deps ← Node_Dependencies node;
         err ← visit_mem dord g stack visited results fuel n deps;
         match err with
         | Some e => mret (Err e)
         | None => sort_nodes_mem fuel dord g visited results rest
         end)
      else sort_nodes_mem fuel dord g visited results rest
  end.

Definition Sort_mem (fuel : nat) (gord : RangeOrder) (dord : NodeID → RangeOrder)
    (g : ptr) : Mem (result ptr) :=
  visited ← alloc (CBools ∅);
  ns ← Graph_nodes g;
  m ← read_Nodes ns;
  results ← alloc (CSlice (replicate (size m) EmptyString));
  ns ← Graph_nodes g;
  m ← read_Nodes ns;
  sort_nodes_mem fuel dord g visited results (range_map gord m).

(** *** CompileToExecutable *)

Definition GetOrCreate_mem (en : ptr) (id : NodeID) : Mem ptr :=
  m ← read_execs en;
  match m !! id with
  | Some n => mret n
  | None =>
      n ← alloc (CExec None 0%Z None);
      m ← read_execs en;
      store en (CExecs (<[id := n]> m));;
      mret n
  end.

(** [for nidx := range nodeIds { targets[nodeIds[nidx]] = struct{}{} }] *)
Fixpoint add_ids_mem (targets : ptr) (nodeIds : list NodeID) : Mem unit :=
  match nodeIds with
  | [] => mret tt
  | id :: rest =>
      s ← read_NodeIDs targets;
      store targets (CNodeIDs ({[id]} ∪ s));;
      add_ids_mem targets rest
  end.

Definition AddTargets_mem (exn : ptr) (nodeIds : list NodeID) : Mem unit :=
  c ← load exn;
  match c with
  | CExec None _ _ =>
      targets ← alloc (CNodeIDs ∅);
      add_ids_mem targets nodeIds;;
      c ← load exn;
      match c with
      | CExec _ req f => store exn (CExec targets req f)
      | _ => panic
      end
  | CExec (Some t) _ _ => add_ids_mem (Some t) nodeIds
  | _ => panic
  end.

(** [n.fn = f] and [n.required = r] *)
Definition set_fn (n : ptr) (f : option NodeFn) : Mem unit :=
  c ← load n;
  match c with CExec t req _ => store n (CExec t req f) | _ => panic end.

Definition set_required (n : ptr) (r : Z) : Mem unit :=
  c ← load n;
  match c with CExec t _ f => store n (CExec t r f) | _ => panic end.

(** The loop [for depId := range node.Dependencies]. *)
Fixpoint compile_deps_mem (nodes : ptr) (id : NodeID) (deps : list NodeID) : Mem unit :=
  match deps with
  | [] => mret tt
  | depId :: rest =>
      dep ← GetOrCreate_mem nodes depId;
      AddTargets_mem dep [id];;
      compile_deps_mem nodes id rest
  end.

(** The loop [for id, node := range g.nodes]. *)
Fixpoint compile_nodes_mem (dord : NodeID → RangeOrder) (nodes : ptr)
    (l : list (NodeID * ptr)) : Mem unit :=
  match l with
  | [] => mret tt
  | (id, node) :: rest =>
      deps ← Node_Dependencies node;
      s ← read_NodeIDs deps;
      compile_deps_mem nodes id (dord id s);;
      n ← GetOrCreate_mem nodes id;
      f ← Node_Fn node;
      set_fn n f;;
      deps ← Node_Dependencies node;
      s ← read_NodeIDs deps;
      set_required n (Z.of_nat (size s));;
      compile_nodes_mem dord nodes rest
  end.

Definition CompileToExecutable_mem (gord : RangeOrder) (dord : NodeID → RangeOrder)
    (g : ptr) : Mem ptr :=
  ns ← Graph_nodes g;
  m ← read_Nodes ns;
  nodes ← alloc (CExecs ∅);
  ns ← Graph_nodes g;
  m ← read_Nodes ns;
  compile_nodes_mem dord nodes (range_map gord m);;
  nm ← Graph_name g;
  alloc (CPEG nm nodes).

(** *** The graph behind a pointer *)

Definition ids_at (h : heap) (p : ptr) : option NodeIDs :=
  match p with
  | None => Some ∅
  | Some l => match h !! l with Some (CNodeIDs s) => Some s | _ => None end
  end.

Definition node_at (h : heap) (p : ptr) : option Node :=
  match p ≫= (h !!.) with
  | Some (CNode nm f deps) => mkNode nm f <$> ids_at h deps
  | _ => None
  end.

Definition nodes_at (h : heap) (p : ptr) : option (gmap NodeID Node) :=
  match p with
  | None => Some ∅
  | Some l =>
      match h !! l with
      | Some (CNodes m) =>
          if decide (map_Forall (λ _ q, is_Some (node_at h q)) m)
          then Some (omap (node_at h) m) else None
      | _ => None
      end
  end.

(** The [Graph] that the heap holds behind [p]: its name, and for every key
    of its node map the name, work function and dependency set of the node
    stored there. *)
Definition graph_at (h : heap) (p : ptr) : option Graph :=
  match p ≫= (h !!.) with
  | Some (CGraph nm ns) => mkGraph nm <$> nodes_at h ns
  | _ => None
  end.

(** The cells that hold the graph B depends on A. *)
Definition pair_heap : heap :=
  <[0 := CGraph "pair" (Some 1)]>
  (<[1 := CNodes (<["A" := Some 2]> (<["B" := Some 3]> ∅))]>
  (<[2 := CNode "A" (Some succeed) None]>
  (<[3 := CNode "B" (Some succeed) (Some 4)]>
  (<[4 := CNodeIDs {["A"]}]> ∅)))).

(** *** What a method may write to *)

(** With [h0] the heap at the call: [p] is nil or was allocated since. *)
Definition own (h0 : heap) (p : ptr) : Prop :=
  ∀ l, p = Some l → h0 !! l = None.

(** The pointers that an execution plan keeps in [c] were allocated since
    the call. *)
Definition cell_own (h0 : heap) (c : cell) : Prop :=
  match c with
  | CExecs m => ∀ k q, m !! k = Some q → own h0 q
  | CExec targets _ _ => own h0 targets
  | _ => True
  end.

(** [h] holds every cell of [h0] as it was, and the plan built since the
    call points to cells allocated since the call. *)
Definition framed (h0 h : heap) : Prop :=
  h0 ⊆ h ∧ ∀ l c, h0 !! l = None → h !! l = Some c → cell_own h0 c.

(** [m] keeps the cells of [h0], and the value it returns satisfies [Q]. *)
Definition keeps {A : Type} (h0 : heap) (m : Mem A) (Q : A → Prop) : Prop :=
  ∀ h, framed h0 h → framed h0 (m h).2 ∧ ∀ a, (m h).1 = Value a → Q a.

(** *** The heap and the state of a sort *)

(** The maps [stack] and [visited] and the slice [results] of [st], held at
    three locations. *)
Definition sort_rep (h : heap) (ls lv lr : nat) (st : SortState) : Prop :=
  h !! ls = Some (CBools (stack st))
  ∧ h !! lv = Some (CBools (visited st))
  ∧ h !! lr = Some (CSlice (results st))
  ∧ ls ≠ lv.

(** What [visit] returned and left on the heap, against the result [o] of
    the model without a heap. *)
Definition visit_sim (h0 : heap) (ls lv lr : nat) (o : outcome SortState)
    (r : exec (option error) * heap) : Prop :=
  h0 ⊆ r.2
  ∧ match o with
    | Done st' => r.1 = Value None ∧ sort_rep r.2 ls lv lr st'
    | Fail e => r.1 = Value (Some e)
    | OutOfFuel => r.1 = NoFuel
    end.

(** The same for [Sort]: the slice returned holds the order. *)
Definition Sort_sim (o : outcome (list NodeID)) (r : exec (result ptr) * heap) : Prop :=
  match o with
  | Done l => ∃ q, r.1 = Value (Ok (Some q)) ∧ r.2 !! q = Some (CSlice l)
  | Fail e => r.1 = Value (Err e)
  | OutOfFuel => r.1 = NoFuel
  end.

(** *** The plan behind a pointer *)

Definition exec_at (h : heap) (p : ptr) : option ExecutableNode :=
  match p ≫= (h !!.) with
  | Some (CExec None req f) => Some (mkExecutableNode None req f)
  | Some (CExec (Some lt) req f) =>
      match h !! lt with
      | Some (CNodeIDs s) => Some (mkExecutableNode (Some s) req f)
      | _ => None
      end
  | _ => None
  end.

Definition execs_at (h : heap) (p : ptr) : option (gmap NodeID ExecutableNode) :=
  match p with
  | None => Some ∅
  | Some l =>
      match h !! l with
      | Some (CExecs m) =>
          if decide (map_Forall (λ _ q, is_Some (exec_at h q)) m)
          then Some (omap (exec_at h) m) else None
      | _ => None
      end
  end.

(** The plan that the heap holds behind [p]: its name, and for every key of
    its map the targets, the count and the work function of the node stored
    there. *)
Definition peg_at (h : heap) (p : ptr) : option ParallelizedExecutableGraph :=
  match p ≫= (h !!.) with
  | Some (CPEG nm ns) => mkPEG nm <$> execs_at h ns
  | _ => None
  end.

(** The node [x] at location [l], its [targetIDs] map at [t]. *)
Definition exec_rep (h : heap) (x : ExecutableNode) (l : nat) (t : ptr) : Prop :=
  h !! l = Some (CExec t (required x) (fn x))
  ∧ match t, targetIDs x with
    | None, None => True
    | Some lt, Some s => h !! lt = Some (CNodeIDs s)
    | _, _ => False
    end.

(** The plan [en] under construction in the map at [le]: the node of key [k]
    is at [em !! k], its [targetIDs] map at [tm !! k]; no two keys share a
    node or a [targetIDs] map, and none of these locations was in use at the
    call (in [h0]). *)
Record plan_rep (h0 h : heap) (le : nat) (em tm : gmap NodeID nat)
    (en : gmap NodeID ExecutableNode) : Prop := mk_plan_rep {
  plan_sub : h0 ⊆ h;
  plan_map : h !! le = Some (CExecs (Some <$> em));
  plan_dom : ∀ k, em !! k = None → en !! k = None;
  plan_nodes : ∀ k l, em !! k = Some l → ∃ x, en !! k = Some x ∧ exec_rep h x l (tm !! k);
  plan_inj : ∀ k k' l, em !! k = Some l → em !! k' = Some l → k = k';
  plan_tinj : ∀ k k' t, tm !! k = Some t → tm !! k' = Some t → k = k';
  plan_tdom : ∀ k, em !! k = None → tm !! k = None;
  plan_own_map : h0 !! le = None;
  plan_own : ∀ k l, em !! k = Some l → h0 !! l = None;
  plan_town : ∀ k t, tm !! k = Some t → h0 !! t = None;
}.

(** *** NewNode, NewGraph and Add *)

Definition NewNode_mem (name : string) (dependencies : ptr) (fn : option NodeFn) : Mem ptr :=
  alloc (CNode name fn dependencies).

Definition NewGraph_mem (name : string) : Mem ptr :=
  nodes ← alloc (CNodes ∅);
  alloc (CGraph name nodes).

Definition Identifier_mem (n : ptr) : Mem NodeID :=
  c ← load n; match c with CNode nm _ _ => mret nm | _ => panic end.

(** The loop [for depId := range node.Dependencies] of [Add]. *)
Fixpoint first_missing_mem (g : ptr) (deps : list NodeID) : Mem (option NodeID) :=
  match deps with
  | [] => mret None
  | depId :: rest =>
      ok ← Graph_node g depId;
      match ok with
      | None => mret (Some depId)
      | Some _ => first_missing_mem g rest
      end
  end.

Definition Add_mem (o : RangeOrder) (g node : ptr) : Mem (result NodeID) :=
  id ← Identifier_mem node;
  ok ← Graph_node g id;
  match ok with
  | Some _ => mret (Err (DuplicateIdentifier id))
  | None =>
      deps ← Node_Dependencies node;
      s ← read_NodeIDs deps;
      missing ← first_missing_mem g (o s);
      match missing with
      | Some depId => mret (Err (MissingDependency id depId))
      | None =>
          ns ← Graph_nodes g;
          m ← read_Nodes ns;
          store ns (CNodes (<[id := node]> m));;
          mret (Ok id)
      end
  end.

(** A node C that depends on A, next to the graph of [pair_heap]. *)
Definition pair_heap_C : heap :=
  <[5 := CNode "C" (Some succeed) (Some 6)]> (<[6 := CNodeIDs {["A"]}]> pair_heap).

(** * Properties *)

(** ** Range orders *)

Section RangeOrders.
Context (o : RangeOrder) (Ho : valid_order o).

Lemma elem_of_order (s : NodeIDs) (x : NodeID) : x ∈ o s ↔ x ∈ s.
Proof using Ho. by rewrite (Ho s), elem_of_elements. Qed.

Lemma NoDup_order (s : NodeIDs) : NoDup (o s).
Proof using Ho. rewrite (Ho s). apply NoDup_elements. Qed.

Lemma length_order (s : NodeIDs) : length (o s) = size s.
Proof using Ho. by rewrite (Ho s). Qed.

Lemma elem_of_range_map {V : Type} (m : gmap NodeID V) (k : NodeID) (v : V) :
  (k, v) ∈ range_map o m ↔ m !! k = Some v.
Proof using Ho.
  unfold range_map. rewrite list_elem_of_omap. split.
  - intros (k' & _ & Hk). destruct (m !! k') eqn:E; simplify_eq/=. done.
  - intros Hk. exists k. split.
    + apply elem_of_order, elem_of_dom. eauto.
    + by rewrite Hk.
Qed.

Lemma range_map_keys {V : Type} (m : gmap NodeID V) :
  (range_map o m).*1 = o (dom m).
Proof using Ho.
  unfold range_map.
  assert (Hin : ∀ k, k ∈ o (dom m) → is_Some (m !! k)).
  { intros k Hk. by apply elem_of_dom, elem_of_order. }
  induction (o (dom m)) as [|k l IH]; [done|]. simpl.
  destruct (Hin k) as [v Hv]; [left|]. rewrite Hv. simpl. f_equal.
  apply IH. intros k' Hk'. apply Hin. by right.
Qed.

Lemma NoDup_range_map_keys {V : Type} (m : gmap NodeID V) :
  NoDup (range_map o m).*1.
Proof using Ho. rewrite range_map_keys. apply NoDup_order. Qed.

Lemma length_range_map {V : Type} (m : gmap NodeID V) :
  length (range_map o m) = size m.
Proof using Ho.
  rewrite <- (length_fmap fst), range_map_keys, length_order. apply size_dom.
Qed.
End RangeOrders.

Lemma valid_order_elements : valid_order elements.
Proof. by intros s. Qed.

Lemma valid_order_reverse : valid_order (λ s, reverse (elements s)).
Proof. intros s. apply reverse_Permutation. Qed.

(** ** Add *)

Lemma first_missing_Some (ns : gmap NodeID Node) (deps : list NodeID) (d : NodeID) :
  first_missing ns deps = Some d → d ∈ deps ∧ ns !! d = None.
Proof.
  induction deps as [|x deps IH]; simpl; [done|].
  destruct (ns !! x) eqn:E.
  - intros [??]%IH. split; [by right|done].
  - intros [= <-]. split; [by left|done].
Qed.

Lemma first_missing_None (ns : gmap NodeID Node) (deps : list NodeID) :
  first_missing ns deps = None ↔ ∀ d, d ∈ deps → is_Some (ns !! d).
Proof.
  induction deps as [|x deps IH]; simpl.
  - split; [|done]. intros _ d Hd. by apply elem_of_nil in Hd.
  - destruct (ns !! x) eqn:E.
    + rewrite IH. split.
      * intros H d [->|Hd]%elem_of_cons; eauto.
      * intros H d Hd. apply H. by right.
    + split; [done|]. intros H. destruct (H x) as [? ?]; [left|congruence].
Qed.

(** C3. [Add] answers [DuplicateIdentifier] when the identifier is already a
    key, whatever the dependencies are; otherwise [MissingDependency] naming a
    declared dependency that the graph lacks, when there is one; otherwise it
    stores the node and returns its identifier.  Whenever it fails the graph
    comes back unchanged. *)
Theorem Add_spec (o : RangeOrder) (node : Node) (g : Graph) :
  valid_order o →
  (is_Some (nodes g !! Identifier node) →
     Add o node g = (Err (DuplicateIdentifier (Identifier node)), g))
  ∧ (nodes g !! Identifier node = None →
     ¬ Dependencies node ⊆ dom (nodes g) →
     ∃ depId, depId ∈ Dependencies node ∧ nodes g !! depId = None
              ∧ Add o node g = (Err (MissingDependency (Identifier node) depId), g))
  ∧ (nodes g !! Identifier node = None →
     Dependencies node ⊆ dom (nodes g) →
     Add o node g = (Ok (Identifier node),
                     {| name := name g;
                        nodes := <[Identifier node := node]> (nodes g) |}))
  ∧ (∀ e g', Add o node g = (Err e, g') → g' = g).
Proof.
  intros Ho. unfold Add. repeat split.
  - intros [n Hn]. by rewrite Hn.
  - intros Hid Hsub. rewrite Hid.
    destruct (first_missing (nodes g) (o (Dependencies node))) as [d|] eqn:E.
    + apply first_missing_Some in E as [Hd Hnone].
      exists d. by rewrite elem_of_order in Hd.
    + exfalso. apply Hsub. intros d Hd. apply elem_of_dom.
      rewrite first_missing_None in E. apply E. by apply elem_of_order.
  - intros Hid Hsub. rewrite Hid.
    destruct (first_missing (nodes g) (o (Dependencies node))) as [d|] eqn:E; [|done].
    apply first_missing_Some in E as [Hd Hnone].
    rewrite elem_of_order in Hd by done.
    apply Hsub, elem_of_dom in Hd as [? ?]. congruence.
  - intros e g'. destruct (nodes g !! Identifier node); [by intros [= _ <-]|].
    destruct (first_missing _ _); [by intros [= _ <-]|done].
Qed.

(** ** CompileToExecutable *)

Lemma elem_of_users (l : list (NodeID * Node)) (k t : NodeID) :
  t ∈ users l k ↔ ∃ node, (t, node) ∈ l ∧ k ∈ Dependencies node.
Proof.
  unfold users. rewrite elem_of_list_to_set, list_elem_of_fmap. split.
  - intros ([t' node] & -> & [Hk Hin]%list_elem_of_filter). eauto.
  - intros (node & Hin & Hk). exists (t, node). split; [done|].
    by apply list_elem_of_filter.
Qed.

Lemma users_app (l1 l2 : list (NodeID * Node)) (k : NodeID) :
  users (l1 ++ l2) k = users l1 k ∪ users l2 k.
Proof.
  apply set_eq. intros t. rewrite elem_of_union, !elem_of_users.
  setoid_rewrite elem_of_app. naive_solver.
Qed.

Lemma users_perm (l1 l2 : list (NodeID * Node)) (k : NodeID) :
  l1 ≡ₚ l2 → users l1 k = users l2 k.
Proof.
  intros Hp. apply set_eq. intros t. rewrite !elem_of_users.
  by setoid_rewrite Hp.
Qed.

Lemma elem_of_dependents (ns : gmap NodeID Node) (k t : NodeID) :
  t ∈ dependents ns k ↔ ∃ node, ns !! t = Some node ∧ k ∈ Dependencies node.
Proof.
  unfold dependents. rewrite elem_of_users.
  by setoid_rewrite elem_of_map_to_list.
Qed.

Lemma AddTargets_single (id : NodeID) (exn : ExecutableNode) :
  AddTargets [id] exn =
  {| targetIDs := Some ({[id]} ∪ targets_of exn);
     required := required exn; fn := fn exn |}.
Proof. unfold AddTargets, targets_of. by destruct (targetIDs exn). Qed.

Lemma AddTargets_idemp (id : NodeID) (exn : ExecutableNode) :
  AddTargets [id] (AddTargets [id] exn) = AddTargets [id] exn.
Proof.
  rewrite !AddTargets_single. unfold targets_of at 1. simpl.
  f_equal. f_equal. set_solver.
Qed.

Lemma lookup_compile_dep (id d k : NodeID) (en : gmap NodeID ExecutableNode) :
  compile_dep id en d !! k =
  if decide (k = d)
  then Some (AddTargets [id] (default zeroExecutableNode (en !! k)))
  else en !! k.
Proof.
  unfold compile_dep, GetOrCreate.
  destruct (en !! d) as [n|] eqn:E; destruct (decide (k = d)) as [->|Hne].
  - by rewrite lookup_insert_eq, E.
  - by rewrite lookup_insert_ne.
  - by rewrite lookup_insert_eq, E.
  - by rewrite !lookup_insert_ne.
Qed.

Lemma lookup_compile_deps (id k : NodeID) (ds : list NodeID)
    (en : gmap NodeID ExecutableNode) :
  foldl (compile_dep id) en ds !! k =
  if decide (k ∈ ds)
  then Some (AddTargets [id] (default zeroExecutableNode (en !! k)))
  else en !! k.
Proof.
  revert en. induction ds as [|d ds IH]; intros en; simpl.
  - destruct (decide (k ∈ [])) as [H|H]; [by apply elem_of_nil in H|done].
  - rewrite IH, lookup_compile_dep.
    destruct (decide (k ∈ ds)) as [Hin|Hin], (decide (k = d)) as [->|Hne]; simpl.
    + rewrite decide_True by left. by rewrite AddTargets_idemp.
    + by rewrite decide_True by (by right).
    + by rewrite decide_True by left.
    + rewrite decide_False; [done|]. by intros [?|?]%elem_of_cons.
Qed.

Lemma lookup_compile_node (dord : NodeID → RangeOrder) (id k : NodeID) (node : Node)
    (en : gmap NodeID ExecutableNode) :
  valid_order (dord id) →
  compile_node dord en (id, node) !! k =
  let old := if decide (k ∈ Dependencies node)
             then Some (AddTargets [id] (default zeroExecutableNode (en !! k)))
             else en !! k in
  if decide (k = id)
  then Some {| targetIDs := targetIDs (default zeroExecutableNode old);
               required := Z.of_nat (size (Dependencies node));
               fn := Fn node |}
  else old.
Proof.
  intros Ho. unfold compile_node, GetOrCreate. simpl.
  set (en1 := foldl (compile_dep id) en (dord id (Dependencies node))).
  assert (H1 : ∀ k', en1 !! k' =
     if decide (k' ∈ Dependencies node)
     then Some (AddTargets [id] (default zeroExecutableNode (en !! k')))
     else en !! k').
  { intros k'. unfold en1. rewrite lookup_compile_deps.
    destruct (decide (k' ∈ dord id (Dependencies node))) as [Hin|Hin];
      rewrite elem_of_order in Hin by done.
    - by rewrite decide_True.
    - by rewrite decide_False. }
  rewrite <- H1.
  destruct (en1 !! id) as [n|] eqn:E.
  - destruct (decide (k = id)) as [->|Hne].
    + by rewrite lookup_insert_eq, E.
    + by rewrite lookup_insert_ne.
  - destruct (decide (k = id)) as [->|Hne].
    + by rewrite lookup_insert_eq, E.
    + by rewrite !lookup_insert_ne.
Qed.

Lemma range_map_perm {V : Type} (o : RangeOrder) (m : gmap NodeID V) :
  valid_order o → range_map o m ≡ₚ map_to_list m.
Proof.
  intros Ho. apply NoDup_Permutation.
  - eapply NoDup_fmap_1, NoDup_range_map_keys, Ho.
  - apply NoDup_map_to_list.
  - intros [k v]. by rewrite elem_of_range_map, elem_of_map_to_list.
Qed.

Lemma list_to_map_range_map {V : Type} (o : RangeOrder) (m : gmap NodeID V) :
  valid_order o → list_to_map (range_map o m) = m.
Proof.
  intros Ho. rewrite <- (list_to_map_to_list m) at 2.
  apply list_to_map_proper; [by apply NoDup_range_map_keys|by apply range_map_perm].
Qed.

Lemma users_snoc (l : list (NodeID * Node)) (id k : NodeID) (node : Node) :
  users (l ++ [(id, node)]) k =
  users l k ∪ (if decide (k ∈ Dependencies node) then {[id]} else ∅).
Proof.
  rewrite users_app. f_equal. unfold users. simpl.
  rewrite filter_cons, filter_nil. simpl.
  destruct (decide (k ∈ Dependencies node)); simpl; set_solver.
Qed.

Lemma union_singleton_nonempty (ts : NodeIDs) (id : NodeID) : ts ∪ {[id]} ≠ ∅.
Proof. intros He. assert (id ∈ ts ∪ {[id]}) as Hin by set_solver. by rewrite He in Hin. Qed.

Lemma plan_entry_default_targets (own : option Node) (ts : NodeIDs) :
  targets_of (default zeroExecutableNode (plan_entry own ts)) = ts.
Proof.
  unfold plan_entry, targets_of.
  destruct own, (decide (ts = ∅)) as [->|He]; simpl;
    rewrite ?decide_False by done; done.
Qed.

Lemma plan_entry_default_targetIDs (own : option Node) (ts : NodeIDs) :
  targetIDs (default zeroExecutableNode (plan_entry own ts))
  = if decide (ts = ∅) then None else Some ts.
Proof.
  unfold plan_entry.
  destruct own, (decide (ts = ∅)) as [->|He]; simpl; try done.
Qed.

Lemma plan_entry_default_required (own : option Node) (ts : NodeIDs) :
  required (default zeroExecutableNode (plan_entry own ts))
  = from_option (λ n, Z.of_nat (size (Dependencies n))) 0%Z own.
Proof. unfold plan_entry. by destruct own, (decide (ts = ∅)). Qed.

Lemma plan_entry_default_fn (own : option Node) (ts : NodeIDs) :
  fn (default zeroExecutableNode (plan_entry own ts)) = own ≫= Fn.
Proof. unfold plan_entry. by destruct own, (decide (ts = ∅)). Qed.

Lemma plan_entry_nonempty (own : option Node) (ts : NodeIDs) :
  ts ≠ ∅ →
  plan_entry own ts =
  Some {| targetIDs := Some ts;
          required := from_option (λ n, Z.of_nat (size (Dependencies n))) 0%Z own;
          fn := own ≫= Fn |}.
Proof.
  intros He. unfold plan_entry.
  destruct own; rewrite ?decide_False by done; simpl; by rewrite ?decide_False by done.
Qed.

Lemma plan_entry_stored (node : Node) (ts : NodeIDs) :
  plan_entry (Some node) ts =
  Some {| targetIDs := if decide (ts = ∅) then None else Some ts;
          required := Z.of_nat (size (Dependencies node));
          fn := Fn node |}.
Proof. unfold plan_entry. by destruct (decide (ts = ∅)). Qed.

Lemma AddTargets_plan_entry (id : NodeID) (own : option Node) (ts : NodeIDs) :
  Some (AddTargets [id] (default zeroExecutableNode (plan_entry own ts)))
  = plan_entry own (ts ∪ {[id]}).
Proof.
  rewrite (plan_entry_nonempty own (ts ∪ {[id]})) by apply union_singleton_nonempty.
  rewrite AddTargets_single, plan_entry_default_targets,
    plan_entry_default_required, plan_entry_default_fn.
  by rewrite (comm_L (∪) {[id]} ts).
Qed.

(** The compiled map is the one the processed entries describe, in whatever
    order the entries and their dependencies were ranged over. *)
Lemma lookup_compile_nodes (dord : NodeID → RangeOrder) (l : list (NodeID * Node))
    (k : NodeID) :
  (∀ id, valid_order (dord id)) →
  NoDup l.*1 →
  foldl (compile_node dord) ∅ l !! k =
  plan_entry ((list_to_map l : gmap NodeID Node) !! k) (users l k).
Proof.
  intros Hd. induction l as [|[id node] l IH] using rev_ind; intros Hnd.
  - simpl. rewrite !lookup_empty. unfold plan_entry, users. simpl.
    by rewrite decide_True.
  - rewrite fmap_app, NoDup_app in Hnd. destruct Hnd as (Hnd & Hfresh & _).
    assert (Hid : id ∉ l.*1).
    { intros Hin. apply (Hfresh id Hin). simpl. left. }
    rewrite foldl_snoc, lookup_compile_node by done. simpl.
    rewrite IH by done. rewrite list_to_map_snoc by done. rewrite users_snoc.
    assert (Hown : list_to_map (M := gmap NodeID Node) l !! id = None)
      by by apply not_elem_of_list_to_map_1.
    clear IH Hfresh Hnd Hid.
    destruct (decide (k = id)) as [->|Hne].
    + rewrite lookup_insert_eq, Hown, plan_entry_stored.
      destruct (decide (id ∈ Dependencies node)).
      * rewrite AddTargets_plan_entry.
        rewrite plan_entry_nonempty by apply union_singleton_nonempty. simpl.
        by rewrite decide_False by apply union_singleton_nonempty.
      * by rewrite plan_entry_default_targetIDs, union_empty_r_L.
    + rewrite lookup_insert_ne by done.
      destruct (decide (k ∈ Dependencies node)).
      * apply AddTargets_plan_entry.
      * by rewrite union_empty_r_L.
Qed.

Lemma lookup_compile (gord : RangeOrder) (dord : NodeID → RangeOrder) (g : Graph)
    (k : NodeID) :
  valid_order gord → (∀ id, valid_order (dord id)) →
  peg_nodes (CompileToExecutable gord dord g).1 !! k =
  plan_entry (nodes g !! k) (dependents (nodes g) k).
Proof.
  intros Hg Hd. simpl.
  rewrite lookup_compile_nodes by (done || by apply NoDup_range_map_keys).
  rewrite list_to_map_range_map by done.
  unfold dependents. by rewrite (users_perm _ _ _ (range_map_perm gord (nodes g) Hg)).
Qed.

Lemma RootIds_filter (o : RangeOrder) (en : gmap NodeID ExecutableNode) :
  RootIds o en = (filter (λ kv, required kv.2 = 0%Z) (range_map o en)).*1.
Proof.
  unfold RootIds. generalize (range_map o en). intros l.
  assert (H : ∀ acc : list NodeID,
    foldl (λ rootIds '(id, node),
             if decide (required node = 0%Z) then rootIds ++ [id] else rootIds)
          acc l
    = acc ++ (filter (λ kv : NodeID * ExecutableNode, required kv.2 = 0%Z) l).*1).
  { induction l as [|[id node] l IH]; intros acc; simpl.
    - by rewrite app_nil_r.
    - rewrite IH, filter_cons. simpl.
      destruct (decide (required node = 0%Z)); simpl; [|done].
      by rewrite <- app_assoc. }
  apply (H []).
Qed.

Lemma elem_of_RootIds (o : RangeOrder) (en : gmap NodeID ExecutableNode) (id : NodeID) :
  valid_order o →
  id ∈ RootIds o en ↔ ∃ exn, en !! id = Some exn ∧ required exn = 0%Z.
Proof.
  intros Ho. rewrite RootIds_filter, list_elem_of_fmap. split.
  - intros ([id' exn] & -> & [Hr Hin]%list_elem_of_filter).
    rewrite elem_of_range_map in Hin by done. eauto.
  - intros (exn & Hl & Hr). exists (id, exn). split; [done|].
    apply list_elem_of_filter. split; [done|]. by apply elem_of_range_map.
Qed.

Lemma NoDup_RootIds (o : RangeOrder) (en : gmap NodeID ExecutableNode) :
  valid_order o → NoDup (RootIds o en).
Proof.
  intros Ho. rewrite RootIds_filter.
  pose proof (NoDup_range_map_keys o Ho en) as Hnd.
  induction (range_map o en) as [|[k v] l IH]; simpl; [constructor|].
  inversion Hnd as [|?? Hk Hl]; subst.
  rewrite filter_cons. case_decide; simpl; [|by apply IH].
  constructor; [|by apply IH].
  intros ([k' v'] & -> & [_ Hin]%list_elem_of_filter)%list_elem_of_fmap.
  apply Hk. apply list_elem_of_fmap. by exists (k', v').
Qed.

Lemma lookup_compile_stored (gord : RangeOrder) (dord : NodeID → RangeOrder)
    (g : Graph) (id : NodeID) (node : Node) :
  valid_order gord → (∀ id, valid_order (dord id)) →
  nodes g !! id = Some node →
  ∃ exn, peg_nodes (CompileToExecutable gord dord g).1 !! id = Some exn
         ∧ targets_of exn = dependents (nodes g) id
         ∧ required exn = Z.of_nat (size (Dependencies node))
         ∧ fn exn = Fn node.
Proof.
  intros Hg Hd Hn. rewrite lookup_compile by done. rewrite Hn.
  unfold plan_entry. eexists. split; [done|]. simpl. split; [|done].
  unfold targets_of. simpl. by case_decide.
Qed.

Lemma compile_targets (gord : RangeOrder) (dord : NodeID → RangeOrder)
    (g : Graph) (id : NodeID) (exn : ExecutableNode) :
  valid_order gord → (∀ id, valid_order (dord id)) →
  peg_nodes (CompileToExecutable gord dord g).1 !! id = Some exn →
  targets_of exn = dependents (nodes g) id.
Proof.
  intros Hg Hd. rewrite lookup_compile by done. unfold plan_entry.
  destruct (nodes g !! id), (decide (dependents (nodes g) id = ∅)) as [He|He];
    intros [= <-]; unfold targets_of; simpl; by rewrite ?He.
Qed.

(** C7. In the compiled plan every stored node has an execution node whose
    [required] is the number of its dependencies and whose [fn] is the
    node's; the key of a node is among the targets of the execution node of
    each of its dependencies; and [RootIds] lists, once each, exactly the
    keys whose execution node has [required] zero. *)
Theorem CompileToExecutable_spec (gord : RangeOrder) (dord : NodeID → RangeOrder)
    (g : Graph) :
  valid_order gord → (∀ id, valid_order (dord id)) →
  let plan := peg_nodes (CompileToExecutable gord dord g).1 in
  (∀ id node, nodes g !! id = Some node →
     ∃ exn, plan !! id = Some exn
            ∧ required exn = Z.of_nat (size (Dependencies node))
            ∧ fn exn = Fn node)
  ∧ (∀ n node d, nodes g !! n = Some node → d ∈ Dependencies node →
     ∃ exn, plan !! d = Some exn ∧ n ∈ targets_of exn)
  ∧ (∀ pord, valid_order pord →
     NoDup (RootIds pord plan)
     ∧ ∀ id, id ∈ RootIds pord plan ↔
             ∃ exn, plan !! id = Some exn ∧ required exn = 0%Z).
Proof.
  intros Hg Hd plan. split; [|split].
  - intros id node Hn.
    destruct (lookup_compile_stored gord dord g id node Hg Hd Hn)
      as (exn & ? & _ & ? & ?). eauto.
  - intros n node d Hn Hdep.
    assert (Hin : n ∈ dependents (nodes g) d) by (apply elem_of_dependents; eauto).
    unfold plan. rewrite lookup_compile by done.
    assert (He : dependents (nodes g) d ≠ ∅).
    { intros He. rewrite He in Hin. by apply not_elem_of_empty in Hin. }
    rewrite plan_entry_nonempty by done. eexists. split; [done|]. done.
  - intros pord Hp. split; [by apply NoDup_RootIds|].
    intros id. by apply elem_of_RootIds.
Qed.

(** C8. Compiling a graph and then compiling it again, whatever the
    iteration orders of the two compilations, gives plans with the same
    keys and, at every key, the same [required] and the same targets. *)
Theorem CompileToExecutable_twice (gord1 gord2 : RangeOrder)
    (dord1 dord2 : NodeID → RangeOrder) (g : Graph) :
  valid_order gord1 → (∀ id, valid_order (dord1 id)) →
  valid_order gord2 → (∀ id, valid_order (dord2 id)) →
  let first := CompileToExecutable gord1 dord1 g in
  let second := CompileToExecutable gord2 dord2 first.2 in
  dom (peg_nodes first.1) = dom (peg_nodes second.1)
  ∧ ∀ id, required <$> peg_nodes first.1 !! id = required <$> peg_nodes second.1 !! id
          ∧ targets_of <$> peg_nodes first.1 !! id
            = targets_of <$> peg_nodes second.1 !! id.
Proof.
  intros Hg1 Hd1 Hg2 Hd2 first second.
  assert (Heq : peg_nodes first.1 = peg_nodes second.1).
  { apply map_eq. intros k. unfold second, first.
    by rewrite !lookup_compile. }
  by rewrite Heq.
Qed.

(** ** runNode and run *)

Lemma run_each_Returned (rec : NodeID → run_outcome) (ts : list NodeID)
    (u : unit) (tr : list event) :
  run_each rec ts = Returned u tr →
  ∃ trs, Forall2 (λ t tr_t, ∃ u', rec t = Returned u' tr_t) ts trs
         ∧ tr = concat trs.
Proof.
  revert u tr. induction ts as [|t ts IH]; intros u tr; simpl.
  - intros [= <-]. exists []. by split; [constructor|].
  - destruct (rec t) as [u1 tr1| | |] eqn:E1; try done.
    destruct (run_each rec ts) as [u2 tr2| | |] eqn:E2; try done.
    intros [= <-]. destruct (IH _ _ eq_refl) as (trs & Hall & ->).
    exists (tr1 :: trs). split; [|done]. constructor; eauto.
Qed.

Lemma run_each_not_NilNode (rec : NodeID → run_outcome) (ts : list NodeID) (x : NodeID) :
  (∀ t, t ∈ ts → rec t ≠ NilNode x) → run_each rec ts ≠ NilNode x.
Proof.
  induction ts as [|t ts IH]; intros Hrec; simpl; [done|].
  pose proof (Hrec t ltac:(left)) as Ht.
  destruct (rec t) as [u1 tr1| | |] eqn:E1; try done.
  assert (run_each rec ts ≠ NilNode x) as Hts.
  { apply IH. intros t' Ht'. apply Hrec. by right. }
  by destruct (run_each rec ts).
Qed.

Lemma runNode_Returned (fuel : nat) (tord : list NodeID → RangeOrder)
    (peg : ParallelizedExecutableGraph) (path : list NodeID) (id : NodeID)
    (u : unit) (tr : list event) :
  runNode fuel tord peg path id = Returned u tr →
  ∃ fuel' node f tr',
    fuel = S fuel' ∧ peg_nodes peg !! id = Some node ∧ fn node = Some f
    ∧ run_each (runNode fuel' tord peg (id :: path))
               (tord (id :: path) (targets_of node)) = Returned tt tr'
    ∧ tr = (id, f id) :: tr'.
Proof.
  destruct fuel as [|fuel']; simpl; [done|].
  destruct (peg_nodes peg !! id) as [node|] eqn:En; [|done].
  destruct (fn node) as [f|] eqn:Ef; [|done].
  destruct (run_each _ _) as [[] tr'| | |] eqn:Er; try done.
  intros [= <-]. by exists fuel', node, f, tr'.
Qed.

Section Dispatch.
Context (tord : list NodeID → RangeOrder) (Ht : ∀ p, valid_order (tord p)).
Context (peg : ParallelizedExecutableGraph).

Local Abbreviation children := (λ d : NodeID, elements (node_targets peg d)).

Lemma run_each_perm (rec : NodeID → run_outcome) (ts : list NodeID)
    (u : unit) (tr : list event) :
  (∀ t u' tr', rec t = Returned u' tr' →
     called tr' ≡ₚ t :: (called tr' ≫= children)) →
  run_each rec ts = Returned u tr →
  called tr ≡ₚ ts ++ (called tr ≫= children).
Proof.
  intros Hrec [trs [Hall ->]]%run_each_Returned.
  induction Hall as [|t tr1 ts trs [u' Ht1] _ IH]; simpl; [done|].
  unfold called in *. rewrite fmap_app, bind_app.
  pose proof (Hrec _ _ _ Ht1) as H1.
  etrans; [apply Permutation_app; [exact H1|exact IH]|].
  simpl. apply perm_skip. rewrite !(assoc (++)).
  apply Permutation_app; [apply Permutation_app_comm|done].
Qed.

(** What [runNode] calls: the node itself, and every target of every node
    it calls. *)
Lemma runNode_perm (fuel : nat) (path : list NodeID) (id : NodeID)
    (u : unit) (tr : list event) :
  runNode fuel tord peg path id = Returned u tr →
  called tr ≡ₚ id :: (called tr ≫= children).
Proof using Ht.
  revert path id u tr. induction fuel as [|fuel IH]; intros path id u tr; [done|].
  intros (fuel' & node & f & tr' & [= <-] & Hn & Hf & Hrun & ->)%runNode_Returned.
  apply run_each_perm in Hrun; [|by eauto].
  unfold called in *. rewrite fmap_cons, bind_cons. simpl.
  apply perm_skip. etrans; [exact Hrun|].
  apply Permutation_app; [|done].
  unfold node_targets. rewrite Hn. simpl. apply Ht.
Qed.

Lemma run_perm (fuel : nat) (pord : RangeOrder) (u : unit) (tr : list event) :
  run fuel pord tord peg = Returned u tr →
  called tr ≡ₚ RootIds pord (peg_nodes peg) ++ (called tr ≫= children).
Proof using Ht.
  apply run_each_perm. intros t u' tr'. apply runNode_perm.
Qed.
End Dispatch.

Lemma calls_NoDup (t : NodeID) (l : list NodeID) :
  NoDup l → calls t l = if decide (t ∈ l) then 1 else 0.
Proof.
  unfold calls. induction 1 as [|x l Hx Hnd IH]; [done|].
  rewrite filter_cons. destruct (decide (x = t)) as [->|Hne]; simpl.
  - rewrite IH, decide_False by done. by rewrite decide_True by left.
  - rewrite IH. destruct (decide (t ∈ l)).
    + by rewrite decide_True by (by right).
    + rewrite decide_False; [done|]. intros [?|?]%elem_of_cons; congruence.
Qed.

Lemma calls_bind_elements (t : NodeID) (f : NodeID → NodeIDs) (l : list NodeID) :
  calls t (l ≫= λ d, elements (f d)) = length (filter (λ d, t ∈ f d) l).
Proof.
  induction l as [|d l IH]; [done|].
  rewrite bind_cons. unfold calls in *. rewrite filter_app, length_app, IH, filter_cons.
  pose proof (calls_NoDup t (elements (f d)) (NoDup_elements (f d))) as Hone.
  unfold calls in Hone. rewrite Hone.
  destruct (decide (t ∈ elements (f d))) as [Hin|Hin]; rewrite elem_of_elements in Hin.
  - by rewrite decide_True.
  - by rewrite decide_False.
Qed.

Lemma compile_node_targets (gord : RangeOrder) (dord : NodeID → RangeOrder)
    (g : Graph) (d : NodeID) :
  valid_order gord → (∀ id, valid_order (dord id)) →
  node_targets (CompileToExecutable gord dord g).1 d = dependents (nodes g) d.
Proof.
  intros Hg Hd. unfold node_targets. rewrite lookup_compile by done.
  unfold plan_entry.
  destruct (nodes g !! d), (decide (dependents (nodes g) d = ∅)) as [He|He];
    simpl; unfold targets_of; simpl; by rewrite ?He.
Qed.

Lemma elem_of_compile_node_targets (gord : RangeOrder) (dord : NodeID → RangeOrder)
    (g : Graph) (d t : NodeID) :
  valid_order gord → (∀ id, valid_order (dord id)) →
  t ∈ node_targets (CompileToExecutable gord dord g).1 d ↔ depends_on g t d.
Proof.
  intros Hg Hd. rewrite compile_node_targets by done. apply elem_of_dependents.
Qed.

Lemma calls_perm (n : NodeID) (l1 l2 : list NodeID) :
  l1 ≡ₚ l2 → calls n l1 = calls n l2.
Proof. unfold calls. by intros ->. Qed.

Lemma calls_app (n : NodeID) (l1 l2 : list NodeID) :
  calls n (l1 ++ l2) = calls n l1 + calls n l2.
Proof. unfold calls. by rewrite filter_app, length_app. Qed.

(** C1 (amended). In a run of a compiled plan that returns, the work of a
    stored node is called once if the node has no dependencies, and otherwise
    once for every call of the work of one of its dependencies: a target is
    dispatched each time one dependency finishes, not when all have. *)
Theorem run_calls_per_dependency (gord pord : RangeOrder) (dord : NodeID → RangeOrder)
    (tord : list NodeID → RangeOrder) (g : Graph) (fuel : nat)
    (u : unit) (tr : list event) (n : NodeID) (node : Node) :
  valid_order gord → (∀ id, valid_order (dord id)) →
  valid_order pord → (∀ p, valid_order (tord p)) →
  run fuel pord tord (CompileToExecutable gord dord g).1 = Returned u tr →
  nodes g !! n = Some node →
  calls n (called tr) =
    (if decide (Dependencies node = ∅) then 1 else 0)
    + calls_in (Dependencies node) (called tr).
Proof.
  intros Hg Hd Hp Ht Hrun Hn.
  set (peg := (CompileToExecutable gord dord g).1) in *.
  rewrite (calls_perm _ _ _ (run_perm tord Ht peg fuel pord u tr Hrun)).
  rewrite calls_app. f_equal.
  - rewrite calls_NoDup by by apply NoDup_RootIds.
    destruct (lookup_compile_stored gord dord g n node Hg Hd Hn)
      as (exn & Hexn & _ & Hreq & _). fold peg in Hexn.
    destruct (decide (Dependencies node = ∅)) as [He|He].
    + rewrite decide_True; [done|]. apply elem_of_RootIds; [done|].
      exists exn. split; [done|]. rewrite Hreq, He. by rewrite size_empty.
    + rewrite decide_False; [done|].
      intros (exn' & Hexn' & Hz)%elem_of_RootIds; [|done].
      rewrite Hexn in Hexn'. injection Hexn' as <-. rewrite Hreq in Hz.
      apply He. apply leibniz_equiv, size_empty_inv. lia.
  - rewrite (calls_bind_elements n (node_targets peg)). unfold calls_in.
    f_equal. apply list_filter_iff. intros d. unfold peg.
    rewrite elem_of_compile_node_targets by done. unfold depends_on.
    rewrite Hn. naive_solver.
Qed.

Section Followers.
Context (tord : list NodeID → RangeOrder) (Ht : ∀ p, valid_order (tord p)).
Context (peg : ParallelizedExecutableGraph).

Lemma targets_follow_app (l1 l2 : list event) :
  targets_follow peg l1 → targets_follow peg l2 → targets_follow peg (l1 ++ l2).
Proof.
  intros H1 H2 i d r t [Hi|[Hlen Hi]]%lookup_app_Some Hin.
  - destruct (H1 _ _ _ _ Hi Hin) as (j & r' & Hlt & Hj).
    exists j, r'. split; [done|]. by apply lookup_app_l_Some.
  - destruct (H2 _ _ _ _ Hi Hin) as (j & r' & Hlt & Hj).
    exists (length l1 + j), r'. split; [lia|].
    rewrite lookup_app_r by lia. by replace (length l1 + j - length l1) with j by lia.
Qed.

Lemma run_each_follow (rec : NodeID → run_outcome) (ts : list NodeID)
    (u : unit) (tr : list event) :
  (∀ t u' tr', rec t = Returned u' tr' →
     targets_follow peg tr' ∧ ∃ r tr0, tr' = (t, r) :: tr0) →
  run_each rec ts = Returned u tr →
  targets_follow peg tr ∧ ∀ t, t ∈ ts → ∃ j r, tr !! j = Some (t, r).
Proof.
  intros Hrec. revert u tr. induction ts as [|t ts IH]; intros u tr; simpl.
  - intros [= <- <-]. split; [|by intros t ?%elem_of_nil].
    intros i d r t Hi. by rewrite lookup_nil in Hi.
  - destruct (rec t) as [u1 tr1| | |] eqn:E1; try done.
    destruct (run_each rec ts) as [u2 tr2| | |] eqn:E2; try done.
    intros [= <- <-]. destruct (IH _ _ eq_refl) as [IH1 IH2].
    destruct (Hrec _ _ _ E1) as (Hf & r & tr0 & ->).
    split; [by apply targets_follow_app|].
    intros t' [->|Hin]%elem_of_cons.
    + by exists 0, r.
    + destruct (IH2 _ Hin) as (j & r' & Hj).
      exists (length ((t, r) :: tr0) + j), r'.
      rewrite lookup_app_r by lia.
      by replace (length ((t, r) :: tr0) + j - length ((t, r) :: tr0)) with j by lia.
Qed.

Lemma runNode_follow (fuel : nat) (path : list NodeID) (id : NodeID)
    (u : unit) (tr : list event) :
  runNode fuel tord peg path id = Returned u tr →
  targets_follow peg tr ∧ ∃ r tr0, tr = (id, r) :: tr0.
Proof using Ht.
  revert path id u tr. induction fuel as [|fuel IH]; intros path id u tr; [done|].
  intros (fuel' & node & f & tr' & [= <-] & Hn & Hf & Hrun & ->)%runNode_Returned.
  split; [|by eauto].
  apply run_each_follow in Hrun as [Hfol Hall]; [|by eauto].
  intros i d r t Hi Hin. destruct i as [|i]; simpl in Hi.
  - injection Hi as <- <-. unfold node_targets in Hin. rewrite Hn in Hin.
    simpl in Hin. destruct (Hall t) as (j & r' & Hj).
    { by apply elem_of_order. }
    exists (S j), r'. split; [lia|done].
  - destruct (Hfol _ _ _ _ Hi Hin) as (j & r' & Hlt & Hj).
    exists (S j), r'. split; [lia|done].
Qed.

Lemma run_follow (fuel : nat) (pord : RangeOrder) (u : unit) (tr : list event) :
  run fuel pord tord peg = Returned u tr → targets_follow peg tr.
Proof using Ht.
  intros Hrun. eapply run_each_follow; [|done].
  intros t u' tr'. apply runNode_follow.
Qed.
End Followers.

(** C5 (amended). In a run of a compiled plan that returns, an error returned
    by the work of a node changes nothing: the work of every node that
    depends on it, directly or through other nodes, is called later in the
    same run. *)
Theorem run_ignores_work_errors (gord pord : RangeOrder) (dord : NodeID → RangeOrder)
    (tord : list NodeID → RangeOrder) (g : Graph) (fuel : nat)
    (u : unit) (tr : list event) (i : nat) (d t : NodeID) (e : error) :
  valid_order gord → (∀ id, valid_order (dord id)) →
  (∀ p, valid_order (tord p)) →
  run fuel pord tord (CompileToExecutable gord dord g).1 = Returned u tr →
  tr !! i = Some (d, Some e) →
  tc (depends_on g) t d →
  ∃ j r, i < j ∧ tr !! j = Some (t, r).
Proof.
  intros Hg Hd Ht Hrun Hi Hdep.
  pose proof (run_follow tord Ht _ fuel pord u tr Hrun) as Hfol.
  induction Hdep as [t d Hdep|t y d Hdep _ IH].
  - apply (Hfol i d (Some e)); [done|]. by apply elem_of_compile_node_targets.
  - destruct (IH Hi) as (j & r & Hlt & Hj).
    destruct (Hfol j y r t Hj) as (j' & r' & Hlt' & Hj').
    { by apply elem_of_compile_node_targets. }
    exists j', r'. split; [lia|done].
Qed.

Lemma forget_errors_run_each (rec : NodeID → run_outcome) (ts : list NodeID) :
  forget_errors (run_each rec ts) = run_each (λ t, forget_errors (rec t)) ts.
Proof.
  induction ts as [|t ts IH]; simpl; [done|]. rewrite <- IH.
  destruct (rec t) as [u1 tr1| | |]; simpl; try done.
  destruct (run_each rec ts) as [u2 tr2| | |]; simpl; try done.
  by rewrite fmap_app.
Qed.

Lemma run_each_ext (rec1 rec2 : NodeID → run_outcome) (ts : list NodeID) :
  (∀ t, rec1 t = rec2 t) → run_each rec1 ts = run_each rec2 ts.
Proof. intros H. induction ts as [|t ts IH]; simpl; [done|]. by rewrite H, IH. Qed.

Lemma forget_errors_runNode (fuel : nat) (tord : list NodeID → RangeOrder)
    (peg : ParallelizedExecutableGraph) (path : list NodeID) (id : NodeID) :
  forget_errors (runNode fuel tord peg path id) = runNode fuel tord (quiet peg) path id.
Proof.
  revert path id. induction fuel as [|fuel IH]; intros path id; simpl; [done|].
  rewrite lookup_fmap. destruct (peg_nodes peg !! id) as [node|]; simpl; [|done].
  destruct (fn node) as [f|]; simpl; [|done].
  change (targets_of (quiet_node node)) with (targets_of node).
  rewrite <- (run_each_ext _ _ _ (IH (id :: path))), <- forget_errors_run_each.
  by destruct (run_each _ _).
Qed.

Lemma RootIds_quiet (o : RangeOrder) (en : gmap NodeID ExecutableNode) :
  RootIds o (quiet_node <$> en) = RootIds o en.
Proof.
  rewrite !RootIds_filter. unfold range_map. rewrite dom_fmap_L.
  induction (o (dom en)) as [|k l IH]; [done|]. simpl.
  rewrite lookup_fmap. destruct (en !! k) as [exn|]; simpl; [|exact IH].
  rewrite !filter_cons. simpl.
  destruct (decide (required exn = 0%Z)); simpl; [f_equal|]; exact IH.
Qed.

(** C6 (amended). [run] has no result: what it hands back is the unit value,
    without flag, failures or unreached set.  The errors of the work functions
    are dropped, never raised: the run is, call for call, the run of the same
    plan with work functions that all succeed. *)
Theorem run_drops_work_errors (fuel : nat) (pord : RangeOrder)
    (tord : list NodeID → RangeOrder) (peg : ParallelizedExecutableGraph) :
  forget_errors (run fuel pord tord peg) = run fuel pord tord (quiet peg)
  ∧ ∀ ret tr, run fuel pord tord peg = Returned ret tr → ret = tt.
Proof.
  split.
  - unfold run. rewrite forget_errors_run_each. simpl. rewrite RootIds_quiet.
    apply run_each_ext. intros t. apply forget_errors_runNode.
  - by intros [] tr _.
Qed.

(** ** Plans of graphs built by Add *)

Lemma compile_closed (gord : RangeOrder) (dord : NodeID → RangeOrder) (g : Graph)
    (id t : NodeID) (exn : ExecutableNode) :
  valid_order gord → (∀ id, valid_order (dord id)) →
  peg_nodes (CompileToExecutable gord dord g).1 !! id = Some exn →
  t ∈ targets_of exn →
  is_Some (peg_nodes (CompileToExecutable gord dord g).1 !! t).
Proof.
  intros Hg Hd Hid Ht.
  rewrite (compile_targets gord dord g id exn Hg Hd Hid) in Ht.
  apply elem_of_dependents in Ht as (node & Hn & _).
  destruct (lookup_compile_stored gord dord g t node Hg Hd Hn) as (exn' & ? & _).
  eauto.
Qed.

Lemma runNode_not_NilNode (tord : list NodeID → RangeOrder)
    (peg : ParallelizedExecutableGraph) (fuel : nat) (path : list NodeID)
    (id x : NodeID) :
  (∀ p, valid_order (tord p)) →
  (∀ id exn t, peg_nodes peg !! id = Some exn → t ∈ targets_of exn →
               is_Some (peg_nodes peg !! t)) →
  is_Some (peg_nodes peg !! id) →
  runNode fuel tord peg path id ≠ NilNode x.
Proof.
  intros Ht Hclosed. revert path id.
  induction fuel as [|fuel IH]; intros path id [node Hn]; simpl; [done|].
  rewrite Hn. destruct (fn node) as [f|]; [|done].
  assert (run_each (runNode fuel tord peg (id :: path))
            (tord (id :: path) (targets_of node)) ≠ NilNode x) as Hne.
  { apply run_each_not_NilNode. intros t Hin. apply IH.
    apply (Hclosed id node); [done|]. by apply elem_of_order in Hin. }
  by destruct (run_each _ _).
Qed.

Lemma Add_Err_inv (o : RangeOrder) (node : Node) (g g' : Graph) (e : error) :
  Add o node g = (Err e, g') → g' = g.
Proof.
  unfold Add. destruct (nodes g !! Identifier node); [by intros [= _ <-]|].
  destruct (first_missing _ _); [by intros [= _ <-]|done].
Qed.

Lemma Add_Ok_inv (o : RangeOrder) (node : Node) (g g' : Graph) (id : NodeID) :
  valid_order o →
  Add o node g = (Ok id, g') →
  id = Identifier node ∧ nodes g !! id = None
  ∧ Dependencies node ⊆ dom (nodes g)
  ∧ nodes g' = <[id := node]> (nodes g).
Proof.
  intros Ho. unfold Add.
  destruct (nodes g !! Identifier node) eqn:En; [done|].
  destruct (first_missing _ _) eqn:Ef; [done|].
  intros [= <- <-]. split; [done|]. split; [done|]. split; [|done].
  intros d Hd. apply elem_of_dom.
  rewrite first_missing_None in Ef. apply Ef. by apply elem_of_order.
Qed.

(** A graph built by [Add] has its nodes in layers: a dependency is stored
    and lies strictly below the node that declares it. *)
Lemma built_ranked (g : Graph) :
  built g →
  ∃ rank : NodeID → nat,
    (∀ n, n ∈ dom (nodes g) → rank n < size (nodes g))
    ∧ (∀ n d, depends_on g n d → d ∈ dom (nodes g) ∧ rank d < rank n).
Proof.
  induction 1 as [nm|o node g id g' Ho Hb (rank & Hlt & Hedge) Hadd].
  - exists (λ _, 0). simpl. split.
    + intros n Hn. rewrite dom_empty_L in Hn. set_solver.
    + intros n d (node & Hn & _). simpl in Hn. by rewrite lookup_empty in Hn.
  - apply Add_Ok_inv in Hadd as (-> & Hfresh & Hdeps & Hnodes); [|done].
    exists (λ n, if decide (n = Identifier node) then size (nodes g) else rank n).
    rewrite Hnodes, map_size_insert_None by done. split.
    + intros n. rewrite dom_insert_L, elem_of_union, elem_of_singleton.
      case_decide; [lia|]. intros [?|Hn]; [done|]. specialize (Hlt n Hn). lia.
    + intros n d (node' & Hn & Hd). unfold nodes in Hn. fold (nodes g') in Hn.
      rewrite Hnodes in Hn. rewrite dom_insert_L.
      assert (Hnot : Identifier node ∉ dom (nodes g)) by by apply not_elem_of_dom.
      destruct (decide (n = Identifier node)) as [->|Hne].
      * rewrite lookup_insert_eq in Hn. injection Hn as <-.
        pose proof (Hdeps d Hd) as Hdin.
        split; [set_solver|]. rewrite decide_False by set_solver. by apply Hlt.
      * rewrite lookup_insert_ne in Hn by done.
        destruct (Hedge n d) as [Hdin Hr]; [by exists node'|].
        split; [set_solver|]. by rewrite decide_False by set_solver.
Qed.

Lemma run_each_ends (rec : NodeID → run_outcome) (ts : list NodeID) :
  (∀ t, t ∈ ts → ends (rec t)) → ends (run_each rec ts).
Proof.
  induction ts as [|t ts IH]; intros Hrec; simpl; [left; eauto|].
  destruct (Hrec t ltac:(left)) as [[tr1 ->]|[id ->]]; [|right; eauto].
  destruct IH as [[tr2 ->]|[id ->]]; [|left; eauto|right; eauto].
  intros t' Ht'. apply Hrec. by right.
Qed.

Lemma runNode_ends (gord : RangeOrder) (dord : NodeID → RangeOrder)
    (tord : list NodeID → RangeOrder) (g : Graph) (rank : NodeID → nat)
    (fuel : nat) (path : list NodeID) (id : NodeID) :
  valid_order gord → (∀ id, valid_order (dord id)) → (∀ p, valid_order (tord p)) →
  (∀ n, n ∈ dom (nodes g) → rank n < size (nodes g)) →
  (∀ n d, depends_on g n d → d ∈ dom (nodes g) ∧ rank d < rank n) →
  id ∈ dom (nodes g) →
  size (nodes g) - rank id ≤ fuel →
  ends (runNode fuel tord (CompileToExecutable gord dord g).1 path id).
Proof.
  intros Hg Hd Ht Hlt Hedge. revert path id.
  induction fuel as [|fuel IH]; intros path id Hin Hfuel.
  { specialize (Hlt id Hin). lia. }
  apply elem_of_dom in Hin as [node Hn]. simpl runNode.
  destruct (lookup_compile_stored gord dord g id node Hg Hd Hn)
    as (exn & Hexn & Htg & _ & _).
  simpl in Hexn. rewrite Hexn.
  destruct (fn exn) as [f|]; [|right; eauto].
  pose proof (run_each_ends
    (runNode fuel tord (CompileToExecutable gord dord g).1 (id :: path))
    (tord (id :: path) (targets_of exn))) as Hends.
  destruct Hends as [[tr Htr]|[x Hx]].
  - intros t Hin. apply elem_of_order in Hin; [|done].
    rewrite Htg in Hin. apply elem_of_dependents in Hin as (node' & Hn' & Hdep).
    assert (depends_on g t id) as Hdo by by exists node'.
    destruct (Hedge t id Hdo) as [_ Hr].
    apply IH; [apply elem_of_dom; eauto|]. lia.
  - simpl in Htr. rewrite Htr. left. eauto.
  - simpl in Hx. rewrite Hx. right. eauto.
Qed.

Lemma compile_keys_stored (gord : RangeOrder) (dord : NodeID → RangeOrder) (g : Graph)
    (k : NodeID) :
  valid_order gord → (∀ id, valid_order (dord id)) →
  (∀ n d, depends_on g n d → d ∈ dom (nodes g)) →
  is_Some (peg_nodes (CompileToExecutable gord dord g).1 !! k) →
  k ∈ dom (nodes g).
Proof.
  intros Hg Hd Hclosed. rewrite lookup_compile by done. unfold plan_entry.
  destruct (nodes g !! k) as [node|] eqn:En; [intros _; apply elem_of_dom; eauto|].
  destruct (decide (dependents (nodes g) k = ∅)) as [He|He]; [by intros [? ?]|].
  intros _. apply set_choose_L in He as [t Ht].
  apply elem_of_dependents in Ht as (node & Hn & Hk).
  apply (Hclosed t). by exists node.
Qed.

Lemma run_each_NilFn (rec : NodeID → run_outcome) (ts : list NodeID) (x : NodeID) :
  run_each rec ts = NilFn x → ∃ t, t ∈ ts ∧ rec t = NilFn x.
Proof.
  induction ts as [|t ts IH]; simpl; [done|].
  destruct (rec t) as [u1 tr1| | |] eqn:E1; try done.
  - destruct (run_each rec ts) as [u2 tr2| | |] eqn:E2; try done.
    intros [= ->]. destruct (IH eq_refl) as (t' & ? & ?).
    exists t'. split; [by right|done].
  - intros [= ->]. exists t. split; [left|done].
Qed.

Lemma runNode_NilFn (fuel : nat) (tord : list NodeID → RangeOrder)
    (peg : ParallelizedExecutableGraph) (path : list NodeID) (id x : NodeID) :
  runNode fuel tord peg path id = NilFn x →
  ∃ exn, peg_nodes peg !! x = Some exn ∧ fn exn = None.
Proof.
  revert path id. induction fuel as [|fuel IH]; intros path id; simpl; [done|].
  destruct (peg_nodes peg !! id) as [node|] eqn:En; [|done].
  destruct (fn node) as [f|] eqn:Ef; [|intros [= <-]; eauto].
  destruct (run_each _ _) as [u tr| | |] eqn:Er; try done.
  intros [= ->]. apply run_each_NilFn in Er as (t & _ & Ht). eauto.
Qed.

(** C10. The plan compiled from a graph built by successful [Add]s is closed
    under targets, so that [runNode], started at any root and with any amount
    of fuel, never finds [peg.nodes[id]] nil, and neither does [run]; with
    fuel for as many nested calls as the graph has nodes, [run] ends. *)
Theorem built_plan_closed (gord : RangeOrder) (dord : NodeID → RangeOrder) (g : Graph) :
  built g →
  valid_order gord → (∀ id, valid_order (dord id)) →
  let peg := (CompileToExecutable gord dord g).1 in
  (∀ id exn t, peg_nodes peg !! id = Some exn → t ∈ targets_of exn →
               is_Some (peg_nodes peg !! t))
  ∧ (∀ fuel pord tord, valid_order pord → (∀ p, valid_order (tord p)) →
       (∀ root path x, root ∈ RootIds pord (peg_nodes peg) →
                       runNode fuel tord peg path root ≠ NilNode x)
       ∧ (∀ x, run fuel pord tord peg ≠ NilNode x)
       ∧ (size (nodes g) ≤ fuel → ends (run fuel pord tord peg))).
Proof.
  intros Hb Hg Hd peg.
  assert (Hclosed : ∀ id exn t, peg_nodes peg !! id = Some exn → t ∈ targets_of exn →
                                is_Some (peg_nodes peg !! t)).
  { intros id exn t. by apply compile_closed. }
  split; [done|]. intros fuel pord tord Hp Ht.
  assert (Hroot : ∀ root, root ∈ RootIds pord (peg_nodes peg) →
                          is_Some (peg_nodes peg !! root)).
  { intros root (exn & ? & _)%elem_of_RootIds; eauto. }
  split; [|split].
  - intros root path x Hin. apply runNode_not_NilNode; auto.
  - intros x. apply run_each_not_NilNode. intros t Hin.
    apply runNode_not_NilNode; auto.
  - intros Hfuel. destruct (built_ranked g Hb) as (rank & Hlt & Hedge).
    apply run_each_ends. intros t Hin.
    apply (runNode_ends gord dord tord g rank); auto; [|lia].
    apply (compile_keys_stored gord dord); auto.
    intros n d Hdep. by destruct (Hedge n d Hdep).
Qed.

(** X21. With a work function on every node, the run of the plan of a graph
    built by [Add] returns, given fuel for as many nested calls as the graph
    has nodes: the recursion of [runNode] is never deeper than that. *)
Lemma run_built_returns (gord pord : RangeOrder) (dord : NodeID → RangeOrder)
    (tord : list NodeID → RangeOrder) (g : Graph) (fuel : nat) :
  built g →
  valid_order gord → (∀ id, valid_order (dord id)) →
  valid_order pord → (∀ p, valid_order (tord p)) →
  (∀ id node, nodes g !! id = Some node → is_Some (Fn node)) →
  size (nodes g) ≤ fuel →
  ∃ tr, run fuel pord tord (CompileToExecutable gord dord g).1 = Returned tt tr.
Proof.
  intros Hb Hg Hd Hp Ht Hfn Hfuel.
  destruct (built_ranked g Hb) as (rank & Hlt & Hedge).
  assert (Hstored : ∀ k, is_Some (peg_nodes (CompileToExecutable gord dord g).1 !! k) →
                         k ∈ dom (nodes g)).
  { intros k. apply compile_keys_stored; auto. intros n d Hdep. by destruct (Hedge n d Hdep). }
  assert (ends (run fuel pord tord (CompileToExecutable gord dord g).1)) as [?|[x Hx]].
  { apply run_each_ends. intros t Hin.
    apply (runNode_ends gord dord tord g rank); auto; [|lia].
    apply Hstored. apply elem_of_RootIds in Hin as (exn & ? & _); eauto. }
  - done.
  - exfalso. apply run_each_NilFn in Hx as (t & _ & Hx).
    apply runNode_NilFn in Hx as (exn & Hexn & Hnil).
    assert (x ∈ dom (nodes g)) as [node Hn]%elem_of_dom by (apply Hstored; eauto).
    destruct (lookup_compile_stored gord dord g x node Hg Hd Hn)
      as (exn' & Hexn' & _ & _ & Hfn').
    rewrite Hexn in Hexn'. injection Hexn' as <-.
    destruct (Hfn x node Hn) as [f Hf]. congruence.
Qed.

(** ** Sort *)

Lemma getb_insert (m : gmap NodeID bool) (k k' : NodeID) (b : bool) :
  getb (<[k := b]> m) k' = if decide (k = k') then b else getb m k'.
Proof.
  unfold getb. destruct (decide (k = k')) as [->|Hne].
  - by rewrite lookup_insert_eq.
  - by rewrite lookup_insert_ne.
Qed.

Lemma getb_empty (k : NodeID) : getb ∅ k = false.
Proof. unfold getb. by rewrite lookup_empty. Qed.

Lemma extends_refl (st : SortState) : extends st st.
Proof. by split. Qed.

Lemma extends_trans (st1 st2 st3 : SortState) :
  extends st1 st2 → extends st2 st3 → extends st1 st3.
Proof.
  intros [Hv1 Hs1] [Hv2 Hs2]. split.
  - intros n Hn. by apply Hv2, Hv1.
  - intros n. by rewrite Hs2, Hs1.
Qed.

Lemma extends_finished (st st' : SortState) (n : NodeID) :
  extends st st' → finished st n → finished st' n.
Proof.
  intros [Hv Hs] [Hn Hns]. split; [by apply Hv|]. by rewrite Hs.
Qed.

Lemma length_filter_impl {A : Type} (P Q : A → Prop)
    `{!∀ x, Decision (P x)} `{!∀ x, Decision (Q x)} (l : list A) :
  (∀ x, P x → Q x) → length (filter P l) ≤ length (filter Q l).
Proof.
  intros Himp. induction l as [|x l IH]; [done|].
  rewrite !filter_cons. destruct (decide (P x)) as [HP|HP].
  - rewrite decide_True by auto. simpl. lia.
  - destruct (decide (Q x)); simpl; lia.
Qed.

Lemma length_filter_impl_lt {A : Type} (P Q : A → Prop)
    `{!∀ x, Decision (P x)} `{!∀ x, Decision (Q x)} (l : list A) (y : A) :
  (∀ x, P x → Q x) → y ∈ l → Q y → ¬ P y →
  length (filter P l) < length (filter Q l).
Proof.
  intros Himp Hin HQ HP. induction l as [|x l IH]; [by apply elem_of_nil in Hin|].
  rewrite !filter_cons. apply elem_of_cons in Hin as [<-|Hin].
  - rewrite decide_False, decide_True by done. simpl.
    pose proof (length_filter_impl P Q l Himp). lia.
  - specialize (IH Hin). destruct (decide (P x)) as [HPx|HPx].
    + rewrite decide_True by auto. simpl. lia.
    + destruct (decide (Q x)); simpl; lia.
Qed.

Lemma unvisited_extends (g : Graph) (st st' : SortState) :
  (∀ n, is_visited st n → is_visited st' n) → unvisited g st' ≤ unvisited g st.
Proof.
  intros Hv. apply length_filter_impl. intros k Hk.
  destruct (getb (visited st) k) eqn:E; [|done].
  specialize (Hv k E). unfold is_visited in Hv. congruence.
Qed.

Lemma unvisited_mark (g : Graph) (st st' : SortState) (name : NodeID) :
  (∀ n, is_visited st n → is_visited st' n) →
  name ∈ dom (nodes g) → ¬ is_visited st name → is_visited st' name →
  unvisited g st' < unvisited g st.
Proof.
  intros Hv Hin Hnot Hnow. apply (length_filter_impl_lt _ _ _ name).
  - intros k Hk. destruct (getb (visited st) k) eqn:E; [|done].
    specialize (Hv k E). unfold is_visited in Hv. congruence.
  - by apply elem_of_elements.
  - unfold is_visited in Hnot. by destruct (getb (visited st) name).
  - unfold is_visited in Hnow. congruence.
Qed.

Lemma unvisited_le_size (g : Graph) (st : SortState) :
  unvisited g st ≤ size (nodes g).
Proof.
  unfold unvisited. etransitivity; [apply length_filter|].
  by rewrite <- size_dom.
Qed.

Section VisitNeighbors.
Context (g : Graph) (fuel : nat).
Context (rec : NodeID → NodeIDs → SortState → outcome SortState).
Context (Hrec : ∀ n node st, nodes g !! n = Some node → visit_pre g fuel n st →
                             visit_post g n st (rec n (Dependencies node) st)).

Lemma visit_neighbors_spec (name : NodeID) (ns : list NodeID) (st : SortState) :
  (∀ n, n ∈ ns → depends_on g name n) →
  sort_inv g st →
  (∀ s, on_stack st s → rtc (depends_on g) s name) →
  unvisited g st ≤ fuel →
  match visit_neighbors g rec ns st with
  | Done st' => sort_inv g st' ∧ extends st st' ∧ ∀ d, d ∈ ns → finished st' d
  | Fail e => bad_dependency g e
  | OutOfFuel => False
  end.
Proof using Hrec.
  revert st. induction ns as [|n ns IH]; intros st Hdeps Hinv Hchain Hfuel; simpl.
  { split; [done|]. split; [apply extends_refl|]. by intros d ?%elem_of_nil. }
  assert (Hn : depends_on g name n) by (apply Hdeps; left).
  assert (Hrest : ∀ n', n' ∈ ns → depends_on g name n')
    by (intros n' ?; apply Hdeps; by right).
  destruct (getb (visited st) n) eqn:Ev; simpl.
  - destruct (getb (stack st) n) eqn:Es.
    + left. exists n. split; [done|].
      eapply tc_rtc_l; [by apply Hchain|]. by apply tc_once.
    + specialize (IH st Hrest Hinv Hchain Hfuel).
      destruct (visit_neighbors g rec ns st) as [st'| |]; [|done..].
      destruct IH as (Hinv' & Hext & Hfin). split; [done|]. split; [done|].
      intros d [->|Hd]%elem_of_cons; [|by apply Hfin].
      apply (extends_finished st); [done|]. split; [done|].
      unfold on_stack. congruence.
  - destruct (nodes g !! n) as [node|] eqn:En.
    + assert (Hpre : visit_pre g fuel n st).
      { split; [done|]. split; [unfold is_visited; congruence|]. split; [|done].
        intros s Hs. eapply rtc_r; [by apply Hchain|done]. }
      specialize (Hrec n node st En Hpre).
      destruct (rec n (Dependencies node) st) as [st1| |]; simpl in Hrec; [|done..].
      destruct Hrec as (Hinv1 & Hext1 & Hfin1).
      assert (Hfuel1 : unvisited g st1 ≤ fuel).
      { etransitivity; [apply (unvisited_extends g st), Hext1|done]. }
      assert (Hchain1 : ∀ s, on_stack st1 s → rtc (depends_on g) s name).
      { intros s Hs. apply Hchain. by apply Hext1. }
      specialize (IH st1 Hrest Hinv1 Hchain1 Hfuel1).
      destruct (visit_neighbors g rec ns st1) as [st'| |]; [|done..].
      destruct IH as (Hinv' & Hext & Hfin). split; [done|].
      split; [by apply (extends_trans st st1)|].
      intros d [->|Hd]%elem_of_cons; [|by apply Hfin].
      by apply (extends_finished st1).
    + right. exists n. split; [done|]. split; [by apply not_elem_of_dom|].
      by exists name.
Qed.
End VisitNeighbors.

Lemma fill_first_empty_app (name : NodeID) (fin : list NodeID) (k : nat) :
  EmptyString ∉ fin →
  fill_first_empty name (fin ++ replicate (S k) EmptyString)
  = fin ++ name :: replicate k EmptyString.
Proof.
  induction fin as [|x fin IH]; intros Hno; simpl.
  - done.
  - apply not_elem_of_cons in Hno as [Hx Hno].
    rewrite decide_False by done. f_equal. by apply IH.
Qed.

Lemma length_lt_stored (g : Graph) (fin : list NodeID) (name : NodeID) :
  NoDup fin → (∀ x, x ∈ fin → x ∈ dom (nodes g)) →
  name ∈ dom (nodes g) → name ∉ fin →
  length fin < size (nodes g).
Proof.
  intros Hnd Hsub Hin Hnot.
  assert (name :: fin ⊆+ elements (dom (nodes g))) as Hle%submseteq_length.
  { apply NoDup_submseteq; [by constructor|].
    intros x [->|Hx]%elem_of_cons; apply elem_of_elements; auto. }
  assert (length (elements (dom (nodes g))) = size (nodes g)) as Heq.
  { change (size (dom (nodes g)) = size (nodes g)). apply size_dom. }
  simpl in Hle. lia.
Qed.

Lemma dependencies_first_snoc (g : Graph) (fin : list NodeID) (name : NodeID) :
  dependencies_first g fin →
  (∀ d, depends_on g name d → d ∈ fin) →
  dependencies_first g (fin ++ [name]).
Proof.
  intros Hfin Hdeps i n d [Hi|[Hlen Hi]]%lookup_app_Some Hdep.
  - destruct (Hfin i n d Hi Hdep) as (j & Hlt & Hj).
    exists j. split; [done|]. by apply lookup_app_l_Some.
  - apply list_lookup_singleton_Some in Hi as [Hz <-].
    apply Hdeps, list_elem_of_lookup_1 in Hdep as [j Hj].
    exists j. split; [|by apply lookup_app_l_Some].
    apply lookup_lt_Some in Hj. lia.
Qed.

Section Visit.
Context (g : Graph) (dord : NodeID → RangeOrder).
Context (Hd : ∀ id, valid_order (dord id)).

Lemma visit_spec (fuel : nat) (name : NodeID) (node : Node) (st : SortState) :
  nodes g !! name = Some node →
  visit_pre g fuel name st →
  visit_post g name st (visit g dord fuel name (Dependencies node) st).
Proof using Hd.
  revert name node st.
  induction fuel as [|fuel IH]; intros name node st Hname (Hinv & Hnew & Hchain & Hfuel).
  { exfalso.
    assert (unvisited g {| stack := stack st;
                           visited := <[name := true]> (visited st);
                           results := results st |} < unvisited g st) as Hlt; [|lia].
    apply (unvisited_mark g st _ name).
    - intros n Hn. unfold is_visited in *. simpl. rewrite getb_insert.
      by destruct (decide (name = n)).
    - apply elem_of_dom. eauto.
    - done.
    - unfold is_visited. simpl. rewrite getb_insert. by rewrite decide_True. }
  destruct Hinv as (Hsv & Hstored & Hacc & Hres).
  assert (Hin : name ∈ dom (nodes g)) by (apply elem_of_dom; eauto).
  assert (Hnostack : ¬ on_stack st name) by (intros Hs; by apply Hnew, Hsv).
  simpl.
  set (st1 := {| stack := <[name := true]> (stack st);
                 visited := <[name := true]> (visited st);
                 results := results st |}).
  assert (Hv1 : ∀ n, is_visited st1 n ↔ n = name ∨ is_visited st n).
  { intros n. unfold is_visited, st1. simpl. rewrite getb_insert.
    case_decide; naive_solver. }
  assert (Hs1 : ∀ n, on_stack st1 n ↔ n = name ∨ on_stack st n).
  { intros n. unfold on_stack, st1. simpl. rewrite getb_insert.
    case_decide; naive_solver. }
  assert (Hf1 : ∀ n, finished st1 n ↔ finished st n).
  { intros n. unfold finished. rewrite Hv1, Hs1. naive_solver. }
  assert (Hinv1 : sort_inv g st1).
  { split; [|split; [|split]].
    - intros n. rewrite Hs1, Hv1. naive_solver.
    - intros n. rewrite Hv1. intros [->|?]; auto.
    - intros n. rewrite Hf1. apply Hacc.
    - intros Hne. destruct (Hres Hne) as (fin & ? & ? & Hfin & ?).
      exists fin. split; [done|]. split; [done|]. split; [|done].
      intros n. by rewrite Hf1. }
  assert (Hns : ∀ n, n ∈ dord name (Dependencies node) → depends_on g name n).
  { intros n Hn. apply elem_of_order in Hn; [|done]. by exists node. }
  assert (Hchain1 : ∀ s, on_stack st1 s → rtc (depends_on g) s name).
  { intros s [->|Hs]%Hs1; [done|by apply Hchain]. }
  assert (Hfuel1 : unvisited g st1 ≤ fuel).
  { assert (unvisited g st1 < unvisited g st); [|lia].
    apply (unvisited_mark g st st1 name); auto.
    - intros n Hn. apply Hv1. by right.
    - apply Hv1. by left. }
  pose proof (visit_neighbors_spec g fuel (visit g dord fuel) IH
                name (dord name (Dependencies node)) st1
                Hns Hinv1 Hchain1 Hfuel1) as Hloop.
  destruct (visit_neighbors g (visit g dord fuel) (dord name (Dependencies node)) st1)
    as [st2| |]; [|done..].
  destruct Hloop as ((Hsv2 & Hstored2 & Hacc2 & Hres2) & [Hext_v Hext_s] & Hdeps).
  set (st' := {| stack := <[name := false]> (stack st2); visited := visited st2;
                 results := fill_first_empty name (results st2) |}).
  assert (Hv' : ∀ n, is_visited st' n ↔ is_visited st2 n) by done.
  assert (Hs' : ∀ n, on_stack st' n ↔ n ≠ name ∧ on_stack st2 n).
  { intros n. unfold on_stack, st'. simpl. rewrite getb_insert.
    case_decide; naive_solver. }
  assert (Hname2 : is_visited st2 name) by (apply Hext_v, Hv1; by left).
  assert (Hstack2 : on_stack st2 name) by (apply Hext_s, Hs1; by left).
  assert (Hf' : ∀ n, finished st' n ↔ n = name ∨ finished st2 n).
  { intros n. unfold finished. rewrite Hv', Hs'.
    destruct (decide (n = name)) as [->|Hne]; naive_solver. }
  assert (Hdepfin : ∀ d, depends_on g name d → finished st2 d).
  { intros d (node' & Hn' & Hdin). rewrite Hname in Hn'. injection Hn' as <-.
    apply Hdeps. by apply elem_of_order. }
  split; [|split].
  - split; [|split; [|split]].
    + intros n [Hne Hs]%Hs'. apply Hv'. by apply Hsv2.
    + intros n Hn%Hv'. by apply Hstored2.
    + intros n [->|Hfin]%Hf'; [|by apply Hacc2].
      constructor. intros d Hdep. apply Hacc2. by apply Hdepfin.
    + intros Hne. destruct (Hres2 Hne) as (fin & Hr & Hnd & Hfin & Hfirst).
      assert (Hnotin : name ∉ fin).
      { intros [_ Hoff]%Hfin. by apply Hoff. }
      assert (Hlen : length fin < size (nodes g)).
      { apply (length_lt_stored g fin name); auto.
        intros x [Hx _]%Hfin. by apply Hstored2. }
      assert (Hempty : EmptyString ∉ fin).
      { intros [Hx _]%Hfin. by apply Hne, Hstored2. }
      exists (fin ++ [name]). split; [|split; [|split; [intros n; split|]]].
      * unfold st'. simpl. rewrite Hr.
        replace (size (nodes g) - length fin)
          with (S (size (nodes g) - length (fin ++ [name])))
          by (rewrite length_app; simpl; lia).
        rewrite fill_first_empty_app by done. by rewrite <- app_assoc.
      * apply NoDup_app. split; [done|]. split; [|apply NoDup_singleton].
        intros x Hx ->%list_elem_of_singleton. done.
      * intros [Hx| ->%list_elem_of_singleton]%elem_of_app; apply Hf'.
        -- right. by apply Hfin.
        -- by left.
      * intros [->|Hx]%Hf'; apply elem_of_app.
        -- right. by apply list_elem_of_singleton.
        -- left. by apply Hfin.
      * apply dependencies_first_snoc; [done|].
        intros d Hdep. by apply Hfin, Hdepfin.
  - split.
    + intros n Hn. apply Hv', Hext_v, Hv1. by right.
    + intros n. rewrite Hs', Hext_s, Hs1. split; [|naive_solver].
      intros [Hne [?|?]]; done.
  - apply Hf'. by left.
Qed.
End Visit.

Lemma sort_inv_same (g : Graph) (st st' : SortState) :
  visited st' = visited st → results st' = results st →
  (∀ n, on_stack st' n ↔ on_stack st n) →
  sort_inv g st → sort_inv g st'.
Proof.
  intros Hv Hr Hs (Hsv & Hstored & Hacc & Hres).
  assert (Hvis : ∀ n, is_visited st' n ↔ is_visited st n).
  { intros n. unfold is_visited. by rewrite Hv. }
  assert (Hfin : ∀ n, finished st' n ↔ finished st n).
  { intros n. unfold finished. by rewrite Hvis, Hs. }
  split; [|split; [|split]].
  - intros n. rewrite Hs, Hvis. apply Hsv.
  - intros n. rewrite Hvis. apply Hstored.
  - intros n. rewrite Hfin. apply Hacc.
  - intros Hne. destruct (Hres Hne) as (fin & Hfr & Hnd & Hiff & Hfirst).
    exists fin. split; [by rewrite Hr|]. split; [done|]. split; [|done].
    intros n. by rewrite Hfin.
Qed.

Section SortLoop.
Context (g : Graph) (dord : NodeID → RangeOrder).
Context (Hd : ∀ id, valid_order (dord id)).

Lemma sort_nodes_spec (fuel : nat) (l : list (NodeID * Node))
    (vis : gmap NodeID bool) (res : list NodeID) :
  size (nodes g) ≤ fuel →
  (∀ n node, (n, node) ∈ l → nodes g !! n = Some node) →
  sort_inv g {| stack := ∅; visited := vis; results := res |} →
  match sort_nodes g dord fuel l vis res with
  | Done res' =>
      ∃ vis', sort_inv g {| stack := ∅; visited := vis'; results := res' |}
              ∧ (∀ n, getb vis n = true → getb vis' n = true)
              ∧ (∀ n node, (n, node) ∈ l → getb vis' n = true)
  | Fail e => bad_dependency g e
  | OutOfFuel => False
  end.
Proof using Hd.
  intros Hfuel. revert vis res.
  induction l as [|[n node] l IH]; intros vis res Hl Hinv; simpl.
  { exists vis. split; [done|]. split; [done|]. by intros n node ?%elem_of_nil. }
  assert (Hrest : ∀ n' node', (n', node') ∈ l → nodes g !! n' = Some node').
  { intros n' node' Hin. apply Hl. by right. }
  destruct (getb vis n) eqn:Ev; simpl.
  - specialize (IH vis res Hrest Hinv).
    destruct (sort_nodes g dord fuel l vis res) as [res'| |]; [|done..].
    destruct IH as (vis' & Hinv' & Hmono & Hall).
    exists vis'. split; [done|]. split; [done|].
    intros n' node' [[= -> ->]|Hin]%elem_of_cons; [by apply Hmono|by eapply Hall].
  - set (st0 := {| stack := ∅; visited := vis; results := res |}).
    assert (Hpre : visit_pre g fuel n st0).
    { split; [done|]. split; [|split].
      - unfold is_visited, st0. simpl. congruence.
      - intros s Hs. unfold on_stack, st0 in Hs. simpl in Hs.
        by rewrite getb_empty in Hs.
      - etrans; [apply unvisited_le_size|done]. }
    pose proof (visit_spec g dord Hd fuel n node st0
                  (Hl n node ltac:(left)) Hpre) as Hpost.
    destruct (visit g dord fuel n (Dependencies node) st0) as [st| |];
      simpl in Hpost; [|done..].
    destruct Hpost as (Hinv1 & [Hext_v Hext_s] & [Hvn _]).
    assert (Hinv1' : sort_inv g {| stack := ∅; visited := visited st;
                                   results := results st |}).
    { apply (sort_inv_same g st); [done..| |done].
      intros s. rewrite Hext_s. unfold on_stack, st0. simpl. done. }
    specialize (IH (visited st) (results st) Hrest Hinv1').
    destruct (sort_nodes g dord fuel l (visited st) (results st)) as [res'| |]; [|done..].
    destruct IH as (vis' & Hinv' & Hmono & Hall).
    exists vis'. split; [done|]. split.
    + intros n' Hn'. apply Hmono. by apply (Hext_v n').
    + intros n' node' [[= -> ->]|Hin]%elem_of_cons; [by apply Hmono|by eapply Hall].
Qed.
End SortLoop.

Lemma sort_inv_initial (g : Graph) :
  sort_inv g {| stack := ∅; visited := ∅;
                results := replicate (size (nodes g)) EmptyString |}.
Proof.
  assert (Hv : ∀ n, ¬ is_visited {| stack := ∅; visited := ∅;
                       results := replicate (size (nodes g)) EmptyString |} n).
  { intros n. unfold is_visited. simpl. by rewrite getb_empty. }
  split; [|split; [|split]].
  - intros n Hn. unfold on_stack in Hn. simpl in Hn. by rewrite getb_empty in Hn.
  - intros n Hn. by apply Hv in Hn.
  - intros n [Hn _]. by apply Hv in Hn.
  - intros _. exists []. split; [|split; [|split]].
    + simpl. by rewrite Nat.sub_0_r.
    + constructor.
    + intros n. split; [by intros ?%elem_of_nil|]. intros [Hn _]. by apply Hv in Hn.
    + intros i n d Hi. by rewrite lookup_nil in Hi.
Qed.

(** What [Sort] answers, given fuel for one nested call per node. *)
Lemma Sort_outcome (fuel : nat) (gord : RangeOrder) (dord : NodeID → RangeOrder)
    (g : Graph) :
  valid_order gord → (∀ id, valid_order (dord id)) →
  size (nodes g) ≤ fuel →
  sort_post g (Sort fuel gord dord g).1.
Proof.
  intros Hg Hd Hfuel. unfold Sort. simpl.
  pose proof (sort_nodes_spec g dord Hd fuel (range_map gord (nodes g)) ∅
                (replicate (size (nodes g)) EmptyString) Hfuel) as Hspec.
  assert (Hl : ∀ n node, (n, node) ∈ range_map gord (nodes g) → nodes g !! n = Some node).
  { intros n node. by rewrite elem_of_range_map. }
  specialize (Hspec Hl (sort_inv_initial g)).
  destruct (sort_nodes g dord fuel _ _ _) as [res| |]; simpl; [|done..].
  destruct Hspec as (vis & (Hsv & Hstored & Hacc & Hres) & _ & Hall).
  set (st := {| stack := ∅; visited := vis; results := res |}) in *.
  assert (Hfin : ∀ n, n ∈ dom (nodes g) → finished st n).
  { intros n [node Hn]%elem_of_dom. split.
    - apply (Hall n node). by apply elem_of_range_map.
    - unfold on_stack, st. simpl. by rewrite getb_empty. }
  split; [intros n Hn; by apply Hacc, Hfin|].
  intros Hne. destruct (Hres Hne) as (fin & Hr & Hnd & Hiff & Hfirst).
  assert (Hperm : fin ≡ₚ elements (dom (nodes g))).
  { apply NoDup_Permutation; [done|apply NoDup_elements|].
    intros n. rewrite elem_of_elements, Hiff. split; [|by apply Hfin].
    intros [Hn _]. by apply Hstored. }
  assert (Hlen : length fin = size (nodes g)).
  { rewrite Hperm. change (size (dom (nodes g)) = size (nodes g)). apply size_dom. }
  simpl in Hr. rewrite Hlen, Nat.sub_diag in Hr. simpl in Hr.
  rewrite app_nil_r in Hr. by subst res.
Qed.

Lemma Acc_no_cycle {A : Type} (R : relation A) (x : A) :
  Acc (flip R) x → ∀ y, rtc R x y → ¬ tc R y y.
Proof.
  induction 1 as [x _ IH]. intros y Hxy Hcyc.
  destruct Hxy as [|x z y Hxz Hzy].
  - inversion Hcyc as [? ? Hxx|? z ? Hxz Hzx]; subst.
    + apply (IH x Hxx x); [done|done].
    + apply (IH z Hxz x); [by apply tc_rtc|done].
  - by apply (IH z Hxz y).
Qed.

Lemma built_closed (g : Graph) : built g → closed g.
Proof.
  intros (rank & _ & Hedge)%built_ranked n d Hdep. by destruct (Hedge n d Hdep).
Qed.

Lemma built_acyclic (g : Graph) : built g → ¬ cyclic g.
Proof.
  intros (rank & _ & Hedge)%built_ranked [c Hc].
  assert (H : ∀ a b, tc (depends_on g) a b → rank b < rank a).
  { induction 1 as [a b Hab|a b c' Hab _ IH].
    - by destruct (Hedge a b Hab).
    - destruct (Hedge a b Hab). lia. }
  specialize (H c c Hc). lia.
Qed.

(** On a graph built by [Add] that has no node with the empty identifier,
    [Sort] returns all identifiers, each dependency before the nodes that
    declare it. *)
Lemma Sort_built_nonempty_ids (fuel : nat) (gord : RangeOrder)
    (dord : NodeID → RangeOrder) (g : Graph) :
  valid_order gord → (∀ id, valid_order (dord id)) →
  size (nodes g) ≤ fuel →
  built g → EmptyString ∉ dom (nodes g) →
  ∃ l, (Sort fuel gord dord g).1 = Done l
       ∧ l ≡ₚ elements (dom (nodes g)) ∧ dependencies_first g l.
Proof.
  intros Hg Hd Hfuel Hb Hne.
  pose proof (Sort_outcome fuel gord dord g Hg Hd Hfuel) as Hpost.
  destruct ((Sort fuel gord dord g).1) as [l|e|]; simpl in Hpost; [| |done].
  - exists l. split; [done|]. by apply Hpost.
  - exfalso. destruct Hpost as [(n & _ & Hn)|(n & _ & Hnot & m & Hm)].
    + apply (built_acyclic g Hb). by exists n.
    + apply Hnot. by apply (built_closed g Hb m).
Qed.

(** [visit] and [Sort] use an iteration order only at the dependency sets of
    stored nodes. *)
Section OrderExt.
Context (g : Graph) (dord dord' : NodeID → RangeOrder).
Context (Hagree : ∀ n node, nodes g !! n = Some node →
                            dord n (Dependencies node) = dord' n (Dependencies node)).

Lemma visit_neighbors_ext (rec rec' : NodeID → NodeIDs → SortState → outcome SortState)
    (ns : list NodeID) (st : SortState) :
  (∀ n node st, nodes g !! n = Some node →
                rec n (Dependencies node) st = rec' n (Dependencies node) st) →
  visit_neighbors g rec ns st = visit_neighbors g rec' ns st.
Proof.
  intros Hrec. revert st. induction ns as [|n ns IH]; intros st; simpl; [done|].
  destruct (negb (getb (visited st) n)); [|by rewrite IH].
  destruct (nodes g !! n) as [node|] eqn:En; [|done].
  rewrite (Hrec n node st En).
  destruct (rec' n (Dependencies node) st); [apply IH|done..].
Qed.

Lemma visit_ext (fuel : nat) (name : NodeID) (node : Node) (st : SortState) :
  nodes g !! name = Some node →
  visit g dord fuel name (Dependencies node) st
  = visit g dord' fuel name (Dependencies node) st.
Proof using Hagree.
  revert name node st. induction fuel as [|fuel IH]; intros name node st Hn; [done|].
  simpl. rewrite (Hagree name node Hn).
  by rewrite (visit_neighbors_ext (visit g dord fuel) (visit g dord' fuel)).
Qed.

Lemma sort_nodes_ext (fuel : nat) (l : list (NodeID * Node))
    (vis : gmap NodeID bool) (res : list NodeID) :
  (∀ n node, (n, node) ∈ l → nodes g !! n = Some node) →
  sort_nodes g dord fuel l vis res = sort_nodes g dord' fuel l vis res.
Proof using Hagree.
  revert vis res. induction l as [|[n node] l IH]; intros vis res Hl; simpl; [done|].
  assert (Hrest : ∀ n' node', (n', node') ∈ l → nodes g !! n' = Some node').
  { intros n' node' Hin. apply Hl. by right. }
  destruct (negb (getb vis n)); [|by apply IH].
  rewrite (visit_ext fuel n node) by (apply Hl; left).
  destruct (visit g dord' fuel n (Dependencies node) _); [by apply IH|done..].
Qed.
End OrderExt.

(** ** The sample graphs *)

Lemma built_Add (o : RangeOrder) (node : Node) (g : Graph) :
  valid_order o → built g → built (Add o node g).2.
Proof.
  intros Ho Hb. destruct (Add o node g) as [[id|e] g'] eqn:E; simpl.
  - by apply (built_add o node g id g').
  - by rewrite (Add_Err_inv o node g g' e E).
Qed.

Lemma built_add_all (o : RangeOrder) (ns : list Node) (g : Graph) :
  valid_order o → built g → built (add_all o ns g).
Proof.
  intros Ho. revert g. induction ns as [|n ns IH]; intros g Hb; simpl; [done|].
  apply IH. by apply built_Add.
Qed.

Lemma built_diamond : built diamond.
Proof. apply built_add_all; [apply valid_order_elements|constructor]. Qed.

Lemma built_pair_graph (fa : NodeFn) : built (pair_graph fa).
Proof. apply built_add_all; [apply valid_order_elements|constructor]. Qed.

Lemma built_empty_id_graph : built empty_id_graph.
Proof. apply built_add_all; [apply valid_order_elements|constructor]. Qed.

Lemma nodes_empty_id_graph :
  nodes empty_id_graph = <["a" := node_a]> (<["" := node_empty]> ∅).
Proof. reflexivity. Qed.

Lemma range_map_empty_id_graph (gord : RangeOrder) :
  valid_order gord →
  range_map gord (nodes empty_id_graph) = [("", node_empty); ("a", node_a)]
  ∨ range_map gord (nodes empty_id_graph) = [("a", node_a); ("", node_empty)].
Proof.
  intros Hg. pose proof (range_map_perm gord (nodes empty_id_graph) Hg) as Hp.
  assert (map_to_list (nodes empty_id_graph) ≡ₚ [("", node_empty); ("a", node_a)]) as Hm.
  { rewrite nodes_empty_id_graph.
    rewrite map_to_list_insert by done. rewrite map_to_list_insert by done.
    rewrite map_to_list_empty. apply Permutation_swap. }
  rewrite Hm in Hp. symmetry in Hp. apply Permutation_length_2_inv in Hp.
  destruct Hp as [->| ->]; auto.
Qed.

(** C2. The graph built by adding a node with the empty identifier and then
    a node "a" that depends on it is sorted, whatever the iteration orders,
    as "a" followed by the empty identifier: the dependency comes after the
    node that declares it.  [visit] takes the empty string for a free slot of
    [results]. *)
Theorem Sort_empty_identifier (fuel : nat) (gord : RangeOrder)
    (dord : NodeID → RangeOrder) :
  valid_order gord → (∀ id, valid_order (dord id)) → 2 ≤ fuel →
  built empty_id_graph
  ∧ depends_on empty_id_graph "a" ""
  ∧ (Sort fuel gord dord empty_id_graph).1 = Done ["a"; ""].
Proof.
  intros Hg Hd Hfuel. split; [apply built_empty_id_graph|]. split.
  { exists node_a. split; [reflexivity|]. simpl. by apply elem_of_singleton. }
  assert (Hagree : ∀ n node, nodes empty_id_graph !! n = Some node →
            dord n (Dependencies node) = elements (Dependencies node)).
  { intros n node. rewrite nodes_empty_id_graph.
    rewrite lookup_insert. destruct (decide ("a" = n)) as [<-|Hna].
    - intros [= <-]. apply Permutation_singleton_r.
      rewrite (Hd "a" (Dependencies node_a)). simpl.
      by rewrite elements_singleton.
    - rewrite lookup_insert. destruct (decide ("" = n)) as [<-|Hne].
      + intros [= <-]. apply Permutation_nil_r.
        rewrite (Hd "" (Dependencies node_empty)). simpl.
        by rewrite elements_empty.
      + by rewrite lookup_empty. }
  unfold Sort. cbn [fst].
  rewrite (sort_nodes_ext empty_id_graph dord (λ _, elements) Hagree).
  2:{ intros n node. by rewrite elem_of_range_map. }
  destruct fuel as [|[|fuel]]; [lia..|].
  destruct (range_map_empty_id_graph gord Hg) as [-> | ->]; vm_compute; reflexivity.
Qed.

Lemma closed_cycle3 : closed cycle3.
Proof.
  intros n d (node & Hn & Hd). unfold cycle3 in *. simpl in *.
  rewrite !dom_insert_L.
  rewrite lookup_insert in Hn. destruct (decide ("A" = n)).
  { injection Hn as <-. simpl in Hd. set_solver. }
  rewrite lookup_insert in Hn. destruct (decide ("B" = n)).
  { injection Hn as <-. simpl in Hd. set_solver. }
  rewrite lookup_insert in Hn. destruct (decide ("C" = n)).
  { injection Hn as <-. simpl in Hd. set_solver. }
  by rewrite lookup_empty in Hn.
Qed.

Lemma cyclic_cycle3 : cyclic cycle3.
Proof.
  exists "A". eapply (tc_l _ "A" "C"); [|eapply (tc_l _ "C" "B"); [|apply tc_once]];
    (eexists; split; [reflexivity|]; simpl; set_solver).
Qed.

Lemma cyclic_cycle_missing : cyclic cycle_missing.
Proof.
  exists "A". apply tc_once. eexists. split; [reflexivity|]. simpl. set_solver.
Qed.

(** ** Counterexamples *)

(** C1 (as stated) fails on the diamond: C's work is called twice, the first
    time right after the first root and before the other root has run; and
    so it is when the roots come out in the other order. *)
Lemma diamond_runs_C_twice :
  run 2 fixed_order (λ _, fixed_order) diamond_plan
    = Returned tt [("E", None); ("C", None); ("A", None); ("C", None)]
  ∧ run 2 reverse_order (λ _, fixed_order) diamond_plan
    = Returned tt [("A", None); ("C", None); ("E", None); ("C", None)]
  ∧ calls "C" ["E"; "C"; "A"; "C"] = 2.
Proof. split; [|split]; vm_compute; reflexivity. Qed.

(** C4 (as stated) fails on a graph with a cycle in which a declared
    dependency is not stored: [Sort] may meet the missing dependency first
    and answer that the node does not exist. *)
Lemma Sort_cycle_with_missing_dependency :
  cyclic cycle_missing
  ∧ (Sort 1 fixed_order (λ _, reverse_order) cycle_missing).1
    = Fail (NodeDoesNotExist "Z")
  ∧ ∀ n, (Sort 1 fixed_order (λ _, reverse_order) cycle_missing).1
         ≠ Fail (CycleDetected n).
Proof.
  split; [apply cyclic_cycle_missing|].
  assert (H : (Sort 1 fixed_order (λ _, reverse_order) cycle_missing).1
              = Fail (NodeDoesNotExist "Z")) by (vm_compute; reflexivity).
  split; [done|]. intros n. rewrite H. unfold NodeDoesNotExist, CycleDetected.
  simpl. discriminate.
Qed.

(** C5 (as stated) fails: the work of A returns an error and the work of B,
    which depends on A, is called all the same. *)
Lemma failed_work_dependent_still_runs :
  depends_on (pair_graph (fail_with "boom")) "B" "A"
  ∧ run 2 fixed_order (λ _, fixed_order) (pair_plan (fail_with "boom"))
    = Returned tt [("A", Some "boom"); ("B", None)].
Proof.
  split; [|vm_compute; reflexivity].
  eexists. split; [reflexivity|]. simpl. set_solver.
Qed.

(** C6 (as stated) fails: what [run] returns is the same whether a work
    function failed or not, so that no failures mapping can be read off it. *)
Lemma run_returns_no_failures :
  ¬ ∃ failures : unit → gmap NodeID error,
      ∀ fa ret tr,
        run 2 fixed_order (λ _, fixed_order) (pair_plan fa) = Returned ret tr →
        ∀ id e, failures ret !! id = Some e ↔ (id, Some e) ∈ tr.
Proof.
  intros [failures H].
  assert (H1 : run 2 fixed_order (λ _, fixed_order) (pair_plan (fail_with "boom"))
               = Returned tt [("A", Some "boom"); ("B", None)])
    by (vm_compute; reflexivity).
  assert (H2 : run 2 fixed_order (λ _, fixed_order) (pair_plan succeed)
               = Returned tt [("A", None); ("B", None)])
    by (vm_compute; reflexivity).
  pose proof (proj2 (H _ _ _ H1 "A" "boom") ltac:(left)) as Hin.
  apply (H _ _ _ H2 "A" "boom") in Hin.
  apply elem_of_cons in Hin as [[=]|Hin].
  apply elem_of_cons in Hin as [[=]|Hin].
  by apply elem_of_nil in Hin.
Qed.

(** ** Witnesses *)

Lemma Add_spec_witness :
  valid_order fixed_order
  ∧ (nodes (NewGraph "g") !! Identifier node_a = None →
     ¬ Dependencies node_a ⊆ dom (nodes (NewGraph "g")) →
     ∃ depId, depId ∈ Dependencies node_a ∧ nodes (NewGraph "g") !! depId = None
              ∧ Add fixed_order node_a (NewGraph "g")
                = (Err (MissingDependency (Identifier node_a) depId), NewGraph "g")).
Proof.
  split; [exact valid_order_elements|].
  exact (proj1 (proj2 (Add_spec fixed_order node_a (NewGraph "g") valid_order_elements))).
Defined.

Lemma CompileToExecutable_spec_witness :
  valid_order fixed_order
  ∧ (∀ id node, nodes diamond !! id = Some node →
       ∃ exn, peg_nodes diamond_plan !! id = Some exn
              ∧ required exn = Z.of_nat (size (Dependencies node))
              ∧ fn exn = Fn node).
Proof.
  split; [exact valid_order_elements|].
  exact (proj1 (CompileToExecutable_spec fixed_order (λ _, fixed_order) diamond
                  valid_order_elements (λ _, valid_order_elements))).
Defined.

Lemma CompileToExecutable_twice_witness :
  valid_order fixed_order ∧ valid_order reverse_order
  ∧ dom (peg_nodes diamond_plan)
    = dom (peg_nodes (CompileToExecutable reverse_order (λ _, reverse_order)
                        (CompileToExecutable fixed_order (λ _, fixed_order) diamond).2).1).
Proof.
  split; [exact valid_order_elements|]. split; [exact valid_order_reverse|].
  exact (proj1 (CompileToExecutable_twice fixed_order reverse_order
                  (λ _, fixed_order) (λ _, reverse_order) diamond
                  valid_order_elements (λ _, valid_order_elements)
                  valid_order_reverse (λ _, valid_order_reverse))).
Defined.

Lemma built_plan_closed_witness :
  built diamond ∧ valid_order fixed_order
  ∧ (∀ id exn t, peg_nodes diamond_plan !! id = Some exn → t ∈ targets_of exn →
                 is_Some (peg_nodes diamond_plan !! t)).
Proof.
  split; [exact built_diamond|]. split; [exact valid_order_elements|].
  exact (proj1 (built_plan_closed fixed_order (λ _, fixed_order) diamond
                  built_diamond valid_order_elements (λ _, valid_order_elements))).
Defined.

Lemma run_calls_per_dependency_witness :
  valid_order fixed_order
  ∧ run 2 fixed_order (λ _, fixed_order) diamond_plan
    = Returned tt [("E", None); ("C", None); ("A", None); ("C", None)]
  ∧ nodes diamond !! "C" = Some node_C
  ∧ calls "C" (called [("E", None); ("C", None); ("A", None); ("C", None)])
    = (if decide (Dependencies node_C = ∅) then 1 else 0)
      + calls_in (Dependencies node_C)
          (called [("E", None); ("C", None); ("A", None); ("C", None)]).
Proof.
  assert (Hrun : run 2 fixed_order (λ _, fixed_order) diamond_plan
    = Returned tt [("E", None); ("C", None); ("A", None); ("C", None)])
    by (vm_compute; reflexivity).
  assert (Hn : nodes diamond !! "C" = Some node_C) by reflexivity.
  split; [exact valid_order_elements|]. split; [exact Hrun|]. split; [exact Hn|].
  exact (run_calls_per_dependency fixed_order fixed_order (λ _, fixed_order)
           (λ _, fixed_order) diamond 2 tt _ "C" node_C
           valid_order_elements (λ _, valid_order_elements)
           valid_order_elements (λ _, valid_order_elements) Hrun Hn).
Defined.

Lemma run_ignores_work_errors_witness :
  valid_order fixed_order
  ∧ run 2 fixed_order (λ _, fixed_order) (pair_plan (fail_with "boom"))
    = Returned tt [("A", Some "boom"); ("B", None)]
  ∧ [("A", Some "boom"); ("B", None)] !! 0 = Some ("A", Some "boom")
  ∧ tc (depends_on (pair_graph (fail_with "boom"))) "B" "A"
  ∧ ∃ j r, 0 < j ∧ [("A", Some "boom"); ("B", None)] !! j = Some ("B", r).
Proof.
  assert (Hrun : run 2 fixed_order (λ _, fixed_order) (pair_plan (fail_with "boom"))
    = Returned tt [("A", Some "boom"); ("B", None)]) by (vm_compute; reflexivity).
  assert (Hdep : tc (depends_on (pair_graph (fail_with "boom"))) "B" "A").
  { apply tc_once. eexists. split; [reflexivity|]. simpl. set_solver. }
  split; [exact valid_order_elements|]. split; [exact Hrun|].
  split; [reflexivity|]. split; [exact Hdep|].
  exact (run_ignores_work_errors fixed_order fixed_order (λ _, fixed_order)
           (λ _, fixed_order) (pair_graph (fail_with "boom")) 2 tt _ 0 "A" "B" "boom"
           valid_order_elements (λ _, valid_order_elements)
           (λ _, valid_order_elements) Hrun eq_refl Hdep).
Defined.

Lemma Sort_empty_identifier_witness :
  valid_order reverse_order ∧ 2 ≤ 2
  ∧ built empty_id_graph
  ∧ depends_on empty_id_graph "a" ""
  ∧ (Sort 2 reverse_order (λ _, reverse_order) empty_id_graph).1 = Done ["a"; ""].
Proof.
  split; [exact valid_order_reverse|]. split; [lia|].
  exact (Sort_empty_identifier 2 reverse_order (λ _, reverse_order)
           valid_order_reverse (λ _, valid_order_reverse) (le_n 2)).
Defined.

(** * Further properties of the code *)

(** ** Add and the graphs it builds *)

(** X1. A successful [Add] stores the node under the identifier it returns,
    leaves the graph's name and every other entry as they were, makes the
    graph one node larger, and makes any further [Add] of the same node fail
    as a duplicate, leaving the graph unchanged. *)
Theorem Add_success_effects (o : RangeOrder) (node : Node) (g g' : Graph) (id : NodeID) :
  Add o node g = (Ok id, g') →
  id = Identifier node
  ∧ nodes g' !! id = Some node
  ∧ (∀ k, k ≠ id → nodes g' !! k = nodes g !! k)
  ∧ size (nodes g') = S (size (nodes g))
  ∧ name g' = name g
  ∧ ∀ o', Add o' node g' = (Err (DuplicateIdentifier id), g').
Proof.
  unfold Add. destruct (nodes g !! Identifier node) eqn:En; [done|].
  destruct (first_missing _ _) eqn:Ef; [done|].
  intros [= <- <-]. simpl. split; [done|]. split; [apply lookup_insert_eq|].
  split; [by intros k Hk; rewrite lookup_insert_ne|].
  split; [by apply map_size_insert_None|]. split; [done|].
  intros o'. by rewrite lookup_insert_eq.
Qed.

Lemma Add_success_effects_witness :
  Add fixed_order node_empty (NewGraph "g")
    = (Ok "", {| name := "g"; nodes := <["" := node_empty]> ∅ |})
  ∧ ∀ o', Add o' node_empty {| name := "g"; nodes := <["" := node_empty]> ∅ |}
          = (Err (DuplicateIdentifier ""),
             {| name := "g"; nodes := <["" := node_empty]> ∅ |}).
Proof.
  assert (H : Add fixed_order node_empty (NewGraph "g")
    = (Ok "", {| name := "g"; nodes := <["" := node_empty]> ∅ |})) by reflexivity.
  split; [exact H|].
  exact (proj2 (proj2 (proj2 (proj2 (proj2
    (Add_success_effects fixed_order node_empty (NewGraph "g") _ "" H)))))).
Defined.

Lemma built_keys (g : Graph) :
  built g → ∀ k node, nodes g !! k = Some node → Identifier node = k.
Proof.
  induction 1 as [nm|o node g id g' Ho Hb IH Hadd]; intros k node' Hk.
  - simpl in Hk. by rewrite lookup_empty in Hk.
  - apply Add_Ok_inv in Hadd as (-> & _ & _ & Hnodes); [|done].
    rewrite Hnodes in Hk. destruct (decide (k = Identifier node)) as [->|Hne].
    + rewrite lookup_insert_eq in Hk. by injection Hk as <-.
    + rewrite lookup_insert_ne in Hk by done. by apply IH.
Qed.

(** X2. A graph built from [NewGraph] by [Add] alone stores every node under
    its own identifier, holds every dependency its nodes declare, and has no
    dependency cycle: the order in which [Add] accepts nodes rules cycles
    out. *)
Theorem built_invariants (g : Graph) :
  built g →
  (∀ k node, nodes g !! k = Some node → Identifier node = k)
  ∧ closed g
  ∧ ¬ cyclic g.
Proof.
  intros Hb. split; [by apply built_keys|].
  split; [by apply built_closed|by apply built_acyclic].
Qed.

Lemma built_invariants_witness :
  built diamond ∧ closed diamond ∧ ¬ cyclic diamond.
Proof.
  split; [exact built_diamond|]. exact (proj2 (built_invariants diamond built_diamond)).
Defined.



(** ** AddTargets and GetOrCreate *)

Lemma elem_of_add_ids (targets : NodeIDs) (nodeIds : list NodeID) (t : NodeID) :
  t ∈ add_ids targets nodeIds ↔ t ∈ nodeIds ∨ t ∈ targets.
Proof.
  unfold add_ids. revert targets.
  induction nodeIds as [|id ids IH]; intros targets; simpl.
  - split; [by right|]. intros [Hin|?]; [by apply elem_of_nil in Hin|done].
  - rewrite IH, elem_of_union, elem_of_singleton, elem_of_cons. naive_solver.
Qed.

(** X4. [AddTargets] makes the targets of the node the old targets together
    with the identifiers given, whether the node had a targets map or not;
    afterwards the map is never nil, not even when no identifier is given;
    [required] and [fn] are left alone. *)
Theorem AddTargets_spec (nodeIds : list NodeID) (exn : ExecutableNode) :
  (∀ t, t ∈ targets_of (AddTargets nodeIds exn) ↔ t ∈ nodeIds ∨ t ∈ targets_of exn)
  ∧ is_Some (targetIDs (AddTargets nodeIds exn))
  ∧ required (AddTargets nodeIds exn) = required exn
  ∧ fn (AddTargets nodeIds exn) = fn exn.
Proof.
  unfold AddTargets, targets_of.
  destruct (targetIDs exn) as [targets|]; simpl;
    (split; [intros t; apply elem_of_add_ids|by eauto]).
Qed.

(** X5. [GetOrCreate] returns the node that the map holds at the identifier
    afterwards; it never replaces a node that is there (the map is then
    unchanged), creates a zero node otherwise, and touches no other key. *)
Theorem GetOrCreate_spec (id : NodeID) (en : gmap NodeID ExecutableNode) :
  (GetOrCreate id en).2 !! id = Some (GetOrCreate id en).1
  ∧ (∀ n, en !! id = Some n → GetOrCreate id en = (n, en))
  ∧ (en !! id = None → (GetOrCreate id en).1 = zeroExecutableNode)
  ∧ (∀ k, k ≠ id → (GetOrCreate id en).2 !! k = en !! k)
  ∧ GetOrCreate id (GetOrCreate id en).2 = GetOrCreate id en.
Proof.
  unfold GetOrCreate. destruct (en !! id) as [n|] eqn:E; simpl.
  - rewrite E. repeat split; try done. by intros ? [= ->].
  - rewrite lookup_insert_eq. split; [done|]. split; [done|]. split; [done|].
    split; [|done]. intros k Hk. by rewrite lookup_insert_ne.
Qed.

(** ** Sort: termination, errors, success *)

Lemma fill_first_empty_length (name : NodeID) (res : list NodeID) :
  length (fill_first_empty name res) = length res.
Proof.
  induction res as [|r res IH]; simpl; [done|].
  destruct (decide (r = EmptyString)); simpl; by rewrite ?IH.
Qed.

Lemma visit_neighbors_length (g : Graph)
    (rec : NodeID → NodeIDs → SortState → outcome SortState)
    (ns : list NodeID) (st st' : SortState) :
  (∀ n nb st0 st1, rec n nb st0 = Done st1 → length (results st1) = length (results st0)) →
  visit_neighbors g rec ns st = Done st' →
  length (results st') = length (results st).
Proof.
  intros Hrec. revert st. induction ns as [|n ns IH]; intros st; simpl.
  - by intros [= <-].
  - destruct (negb (getb (visited st) n)).
    + destruct (nodes g !! n) as [node|]; [|done].
      destruct (rec n (Dependencies node) st) as [st1| |] eqn:E; [|done..].
      intros H. rewrite (IH _ H). by apply (Hrec _ _ _ _ E).
    + destruct (getb (stack st) n); [done|]. apply IH.
Qed.

Lemma visit_length (g : Graph) (dord : NodeID → RangeOrder) (fuel : nat)
    (name : NodeID) (nb : NodeIDs) (st st' : SortState) :
  visit g dord fuel name nb st = Done st' →
  length (results st') = length (results st).
Proof.
  revert name nb st st'. induction fuel as [|fuel IH]; intros name nb st st'; [done|].
  simpl. destruct (visit_neighbors _ _ _ _) as [st2| |] eqn:E; [|done..].
  intros [= <-]. simpl. rewrite fill_first_empty_length.
  by rewrite (visit_neighbors_length g _ _ _ _ IH E).
Qed.

(** X6. The order [Sort] returns has one slot for each stored node, whatever
    the graph and the iteration orders. *)
Theorem Sort_length (fuel : nat) (gord : RangeOrder) (dord : NodeID → RangeOrder)
    (g : Graph) (l : list NodeID) :
  (Sort fuel gord dord g).1 = Done l → length l = size (nodes g).
Proof.
  unfold Sort. simpl.
  assert (H : ∀ es vis res, sort_nodes g dord fuel es vis res = Done l →
                            length l = length res).
  { induction es as [|[n node] es IH]; intros vis res; simpl.
    - by intros [= <-].
    - destruct (negb (getb vis n)); [|apply IH].
      destruct (visit g dord fuel n (Dependencies node) _) as [st| |] eqn:E; [|done..].
      intros Hs. rewrite (IH _ _ Hs). by rewrite (visit_length _ _ _ _ _ _ _ E). }
  intros Hs. rewrite (H _ _ _ Hs). apply length_replicate.
Qed.

Lemma Sort_length_witness :
  (Sort 3 fixed_order (λ _, fixed_order) diamond).1 = Done ["E"; "A"; "C"]
  ∧ length ["E"; "A"; "C"] = size (nodes diamond).
Proof.
  assert (H : (Sort 3 fixed_order (λ _, fixed_order) diamond).1 = Done ["E"; "A"; "C"])
    by (vm_compute; reflexivity).
  split; [exact H|].
  exact (Sort_length 3 fixed_order (λ _, fixed_order) diamond _ H).
Defined.

(** X7. With fuel for one nested call per stored node [Sort] does not run
    out of fuel: the recursion of [visit] is never deeper than the number of
    nodes.  When it fails, the error is justified: [CycleDetected n] only for
    a node [n] that lies on a dependency cycle, and the does-not-exist error
    only for an identifier that some stored node declares as a dependency
    and that is not stored. *)
Theorem Sort_errors_justified (fuel : nat) (gord : RangeOrder)
    (dord : NodeID → RangeOrder) (g : Graph) :
  valid_order gord → (∀ id, valid_order (dord id)) →
  size (nodes g) ≤ fuel →
  (Sort fuel gord dord g).1 ≠ OutOfFuel
  ∧ ∀ e, (Sort fuel gord dord g).1 = Fail e →
         (∃ n, e = CycleDetected n ∧ tc (depends_on g) n n)
         ∨ (∃ n, e = NodeDoesNotExist n ∧ (n ∉ dom (nodes g)) ∧ ∃ m, depends_on g m n).
Proof.
  intros Hg Hd Hfuel.
  pose proof (Sort_outcome fuel gord dord g Hg Hd Hfuel) as Hpost.
  destruct ((Sort fuel gord dord g).1) as [l|e|]; simpl in Hpost; [| |done].
  - split; [done|]. by intros e.
  - split; [done|]. by intros e' [= <-].
Qed.

Lemma Sort_errors_justified_witness :
  valid_order fixed_order ∧ size (nodes cycle_missing) ≤ 1
  ∧ (Sort 1 fixed_order (λ _, reverse_order) cycle_missing).1 ≠ OutOfFuel.
Proof.
  assert (Hsize : size (nodes cycle_missing) ≤ 1) by (vm_compute; lia).
  split; [exact valid_order_elements|]. split; [exact Hsize|].
  exact (proj1 (Sort_errors_justified 1 fixed_order (λ _, reverse_order) cycle_missing
                  valid_order_elements (λ _, valid_order_reverse) Hsize)).
Defined.

(** X8. On a graph that holds every declared dependency, has no cycle and no
    node with the empty identifier, [Sort] returns a permutation of the
    stored identifiers in which every dependency comes before the nodes that
    declare it. *)
Theorem Sort_topological (fuel : nat) (gord : RangeOrder)
    (dord : NodeID → RangeOrder) (g : Graph) :
  valid_order gord → (∀ id, valid_order (dord id)) →
  size (nodes g) ≤ fuel →
  closed g → ¬ cyclic g → EmptyString ∉ dom (nodes g) →
  ∃ l, (Sort fuel gord dord g).1 = Done l
       ∧ l ≡ₚ elements (dom (nodes g)) ∧ dependencies_first g l.
Proof.
  intros Hg Hd Hfuel Hclosed Hacyclic Hne.
  pose proof (Sort_outcome fuel gord dord g Hg Hd Hfuel) as Hpost.
  destruct ((Sort fuel gord dord g).1) as [l|e|]; simpl in Hpost; [| |done].
  - exists l. split; [done|]. by apply Hpost.
  - exfalso. destruct Hpost as [(n & _ & Hn)|(n & _ & Hnot & m & Hm)].
    + apply Hacyclic. by exists n.
    + apply Hnot. by apply (Hclosed m).
Qed.

Lemma Sort_topological_witness :
  valid_order fixed_order ∧ size (nodes diamond) ≤ 3
  ∧ closed diamond ∧ (¬ cyclic diamond) ∧ (EmptyString ∉ dom (nodes diamond))
  ∧ ∃ l, (Sort 3 fixed_order (λ _, fixed_order) diamond).1 = Done l
         ∧ l ≡ₚ elements (dom (nodes diamond)) ∧ dependencies_first diamond l.
Proof.
  assert (Hsize : size (nodes diamond) ≤ 3) by (vm_compute; lia).
  assert (Hne : EmptyString ∉ dom (nodes diamond)).
  { apply not_elem_of_dom. reflexivity. }
  split; [exact valid_order_elements|]. split; [exact Hsize|].
  split; [exact (built_closed diamond built_diamond)|].
  split; [exact (built_acyclic diamond built_diamond)|]. split; [exact Hne|].
  exact (Sort_topological 3 fixed_order (λ _, fixed_order) diamond
           valid_order_elements (λ _, valid_order_elements) Hsize
           (built_closed diamond built_diamond) (built_acyclic diamond built_diamond) Hne).
Defined.

Section DepsFinished.
Context (g : Graph).

Section Loop.
Context (fuel : nat) (rec : NodeID → NodeIDs → SortState → outcome SortState).
Context (Hrec : ∀ n node st, nodes g !! n = Some node → visit_pre g fuel n st →
                             visit_post g n st (rec n (Dependencies node) st)).
Context (Hrec2 : ∀ n node st, nodes g !! n = Some node → visit_pre g fuel n st →
                   deps_finished g st →
                   match rec n (Dependencies node) st with
                   | Done st' => deps_finished g st'
                   | _ => True
                   end).

Lemma visit_neighbors_deps_finished (name : NodeID) (ns : list NodeID) (st : SortState) :
  (∀ n, n ∈ ns → depends_on g name n) →
  sort_inv g st →
  (∀ s, on_stack st s → rtc (depends_on g) s name) →
  unvisited g st ≤ fuel →
  deps_finished g st →
  match visit_neighbors g rec ns st with
  | Done st' => deps_finished g st'
  | _ => True
  end.
Proof using Hrec Hrec2.
  revert st. induction ns as [|n ns IH];
    intros st Hns Hinv Hchain Hfuel Hdeps; simpl; [done|].
  assert (Hn : depends_on g name n) by (apply Hns; left).
  assert (Hrest : ∀ n', n' ∈ ns → depends_on g name n')
    by (intros n' ?; apply Hns; by right).
  destruct (getb (visited st) n) eqn:Ev; simpl.
  - destruct (getb (stack st) n); [done|]. by apply IH.
  - destruct (nodes g !! n) as [node|] eqn:En; [|done].
    assert (Hpre : visit_pre g fuel n st).
    { split; [done|]. split; [unfold is_visited; congruence|]. split; [|done].
      intros s Hs. eapply rtc_r; [by apply Hchain|done]. }
    pose proof (Hrec n node st En Hpre) as Hpost.
    pose proof (Hrec2 n node st En Hpre Hdeps) as Hpost2.
    destruct (rec n (Dependencies node) st) as [st1| |]; simpl in Hpost; [|done..].
    destruct Hpost as (Hinv1 & Hext1 & _).
    apply IH; [done|done| |  |done].
    + intros s Hs. apply Hchain. by apply Hext1.
    + etrans; [apply (unvisited_extends g st), Hext1|done].
Qed.
End Loop.

Context (dord : NodeID → RangeOrder) (Hd : ∀ id, valid_order (dord id)).

Lemma visit_deps_finished (fuel : nat) (name : NodeID) (node : Node) (st : SortState) :
  nodes g !! name = Some node →
  visit_pre g fuel name st →
  deps_finished g st →
  match visit g dord fuel name (Dependencies node) st with
  | Done st' => deps_finished g st'
  | _ => True
  end.
Proof using Hd.
  revert name node st.
  induction fuel as [|fuel IH]; intros name node st Hname Hpre Hdeps; [done|].
  destruct Hpre as (Hinv & Hnew & Hchain & Hfuel).
  pose proof Hinv as (Hsv & Hstored & Hacc & Hres).
  assert (Hin : name ∈ dom (nodes g)) by (apply elem_of_dom; eauto).
  simpl.
  set (st1 := {| stack := <[name := true]> (stack st);
                 visited := <[name := true]> (visited st);
                 results := results st |}).
  assert (Hv1 : ∀ n, is_visited st1 n ↔ n = name ∨ is_visited st n).
  { intros n. unfold is_visited, st1. simpl. rewrite getb_insert.
    destruct (decide (name = n)); naive_solver. }
  assert (Hs1 : ∀ n, on_stack st1 n ↔ n = name ∨ on_stack st n).
  { intros n. unfold on_stack, st1. simpl. rewrite getb_insert.
    destruct (decide (name = n)); naive_solver. }
  assert (Hf1 : ∀ n, finished st1 n ↔ finished st n).
  { intros n. unfold finished. rewrite Hv1, Hs1. naive_solver. }
  assert (Hinv1 : sort_inv g st1).
  { split; [|split; [|split]].
    - intros n. rewrite Hs1, Hv1. naive_solver.
    - intros n. rewrite Hv1. intros [->|?]; auto.
    - intros n. rewrite Hf1. apply Hacc.
    - intros Hne. destruct (Hres Hne) as (fin & ? & ? & Hfin & ?).
      exists fin. split; [done|]. split; [done|]. split; [|done].
      intros n. by rewrite Hf1. }
  assert (Hns : ∀ n, n ∈ dord name (Dependencies node) → depends_on g name n).
  { intros n Hn. apply elem_of_order in Hn; [|done]. by exists node. }
  assert (Hchain1 : ∀ s, on_stack st1 s → rtc (depends_on g) s name).
  { intros s [->|Hs]%Hs1; [done|by apply Hchain]. }
  assert (Hfuel1 : unvisited g st1 ≤ fuel).
  { assert (unvisited g st1 < unvisited g st); [|lia].
    apply (unvisited_mark g st st1 name); auto.
    - intros n Hn. apply Hv1. by right.
    - apply Hv1. by left. }
  assert (Hdeps1 : deps_finished g st1).
  { intros n d Hn Hdep. apply Hf1. apply (Hdeps n d); [by apply Hf1|done]. }
  pose proof (visit_neighbors_spec g fuel (visit g dord fuel)
                (visit_spec g dord Hd fuel)
                name (dord name (Dependencies node)) st1
                Hns Hinv1 Hchain1 Hfuel1) as Hloop.
  pose proof (visit_neighbors_deps_finished fuel (visit g dord fuel)
                (visit_spec g dord Hd fuel) IH
                name (dord name (Dependencies node)) st1
                Hns Hinv1 Hchain1 Hfuel1 Hdeps1) as Hloop2.
  destruct (visit_neighbors g (visit g dord fuel) (dord name (Dependencies node)) st1)
    as [st2| |]; [|done..].
  destruct Hloop as (_ & [Hext_v Hext_s] & Hfin2).
  assert (Hstack2 : on_stack st2 name) by (apply Hext_s, Hs1; by left).
  assert (Hf' : ∀ n, finished {| stack := <[name := false]> (stack st2);
                                 visited := visited st2;
                                 results := fill_first_empty name (results st2) |} n
                     ↔ n = name ∨ finished st2 n).
  { intros n. unfold finished, is_visited, on_stack. simpl. rewrite getb_insert.
    destruct (decide (name = n)) as [<-|Hne].
    - split; [by left|]. intros _. split; [|done]. apply Hext_v, Hv1. by left.
    - split; [by right|]. intros [?|?]; [congruence|done]. }
  intros n d [->|Hn]%Hf' Hdep; apply Hf'; right.
  - destruct Hdep as (node' & Hn' & Hdin). rewrite Hname in Hn'. injection Hn' as <-.
    apply Hfin2. by apply elem_of_order.
  - by apply (Hloop2 n d).
Qed.

Lemma sort_nodes_deps_finished (fuel : nat) (l : list (NodeID * Node))
    (vis : gmap NodeID bool) (res : list NodeID) :
  size (nodes g) ≤ fuel →
  (∀ n node, (n, node) ∈ l → nodes g !! n = Some node) →
  sort_inv g {| stack := ∅; visited := vis; results := res |} →
  deps_finished g {| stack := ∅; visited := vis; results := res |} →
  match sort_nodes g dord fuel l vis res with
  | Done res' =>
      ∃ vis', sort_inv g {| stack := ∅; visited := vis'; results := res' |}
              ∧ deps_finished g {| stack := ∅; visited := vis'; results := res' |}
              ∧ (∀ n, getb vis n = true → getb vis' n = true)
              ∧ (∀ n node, (n, node) ∈ l → getb vis' n = true)
  | _ => True
  end.
Proof using Hd.
  intros Hfuel. revert vis res.
  induction l as [|[n node] l IH]; intros vis res Hl Hinv Hdeps; simpl.
  { exists vis. split; [done|]. split; [done|]. split; [done|].
    by intros n node ?%elem_of_nil. }
  assert (Hrest : ∀ n' node', (n', node') ∈ l → nodes g !! n' = Some node').
  { intros n' node' Hin. apply Hl. by right. }
  destruct (getb vis n) eqn:Ev; simpl.
  - specialize (IH vis res Hrest Hinv Hdeps).
    destruct (sort_nodes g dord fuel l vis res) as [res'| |]; [|done..].
    destruct IH as (vis' & Hinv' & Hdeps' & Hmono & Hall).
    exists vis'. split; [done|]. split; [done|]. split; [done|].
    intros n' node' [[= -> ->]|Hin]%elem_of_cons; [by apply Hmono|by eapply Hall].
  - set (st0 := {| stack := ∅; visited := vis; results := res |}) in *.
    assert (Hpre : visit_pre g fuel n st0).
    { split; [done|]. split; [|split].
      - unfold is_visited, st0. simpl. congruence.
      - intros s Hs. unfold on_stack, st0 in Hs. simpl in Hs.
        by rewrite getb_empty in Hs.
      - etrans; [apply unvisited_le_size|done]. }
    pose proof (visit_spec g dord Hd fuel n node st0
                  (Hl n node ltac:(left)) Hpre) as Hpost.
    pose proof (visit_deps_finished fuel n node st0
                  (Hl n node ltac:(left)) Hpre Hdeps) as Hpost2.
    destruct (visit g dord fuel n (Dependencies node) st0) as [st| |];
      simpl in Hpost; [|done..].
    destruct Hpost as (Hinv1 & [Hext_v Hext_s] & [Hvn _]).
    assert (Hsame : ∀ s, on_stack {| stack := ∅; visited := visited st;
                                     results := results st |} s ↔ on_stack st s).
    { intros s. rewrite Hext_s. unfold on_stack, st0. simpl. done. }
    assert (Hinv1' : sort_inv g {| stack := ∅; visited := visited st;
                                   results := results st |}).
    { by apply (sort_inv_same g st). }
    assert (Hdeps1' : deps_finished g {| stack := ∅; visited := visited st;
                                         results := results st |}).
    { assert (Hf : ∀ m, finished {| stack := ∅; visited := visited st;
                                    results := results st |} m ↔ finished st m).
      { intros m. unfold finished. by rewrite Hsame. }
      intros m d Hm Hdep. apply Hf. apply (Hpost2 m d); [by apply Hf|done]. }
    specialize (IH (visited st) (results st) Hrest Hinv1' Hdeps1').
    destruct (sort_nodes g dord fuel l (visited st) (results st)) as [res'| |]; [|done..].
    destruct IH as (vis' & Hinv' & Hdeps' & Hmono & Hall).
    exists vis'. split; [done|]. split; [done|]. split.
    + intros n' Hn'. apply Hmono. by apply (Hext_v n').
    + intros n' node' [[= -> ->]|Hin]%elem_of_cons; [by apply Hmono|by eapply Hall].
Qed.
End DepsFinished.

Lemma Sort_Done_closed (fuel : nat) (gord : RangeOrder) (dord : NodeID → RangeOrder)
    (g : Graph) (l : list NodeID) :
  valid_order gord → (∀ id, valid_order (dord id)) →
  size (nodes g) ≤ fuel →
  (Sort fuel gord dord g).1 = Done l → closed g.
Proof.
  intros Hg Hd Hfuel. unfold Sort. simpl. intros Hsort.
  pose proof (sort_nodes_deps_finished g dord Hd fuel (range_map gord (nodes g)) ∅
                (replicate (size (nodes g)) EmptyString) Hfuel) as Hspec.
  assert (Hl : ∀ n node, (n, node) ∈ range_map gord (nodes g) → nodes g !! n = Some node).
  { intros n node. by rewrite elem_of_range_map. }
  specialize (Hspec Hl (sort_inv_initial g)).
  assert (Hinit : deps_finished g {| stack := ∅; visited := ∅;
                    results := replicate (size (nodes g)) EmptyString |}).
  { intros n d [Hn _]. unfold is_visited in Hn. simpl in Hn.
    by rewrite getb_empty in Hn. }
  specialize (Hspec Hinit). rewrite Hsort in Hspec.
  destruct Hspec as (vis & (_ & Hstored & _) & Hdeps & _ & Hall).
  intros n d Hdep. pose proof Hdep as (node & Hn & _).
  assert (Hfin : finished {| stack := ∅; visited := vis; results := l |} n).
  { split.
    - apply (Hall n node). by apply elem_of_range_map.
    - unfold on_stack. simpl. by rewrite getb_empty. }
  destruct (Hdeps n d Hfin Hdep) as [Hv _]. by apply Hstored.
Qed.

(** X9. [Sort] returns an order exactly for the graphs that hold every
    dependency their nodes declare and have no dependency cycle; on exactly
    the other graphs it returns an error. *)
Theorem Sort_succeeds_iff (fuel : nat) (gord : RangeOrder)
    (dord : NodeID → RangeOrder) (g : Graph) :
  valid_order gord → (∀ id, valid_order (dord id)) →
  size (nodes g) ≤ fuel →
  ((∃ l, (Sort fuel gord dord g).1 = Done l) ↔ closed g ∧ ¬ cyclic g)
  ∧ ((∃ e, (Sort fuel gord dord g).1 = Fail e) ↔ ¬ (closed g ∧ ¬ cyclic g)).
Proof.
  intros Hg Hd Hfuel.
  pose proof (Sort_outcome fuel gord dord g Hg Hd Hfuel) as Hpost.
  assert (Hdone : ∀ l, (Sort fuel gord dord g).1 = Done l → closed g ∧ ¬ cyclic g).
  { intros l Hl. split; [by apply (Sort_Done_closed fuel gord dord g l)|].
    rewrite Hl in Hpost. destruct Hpost as [Hacc _]. intros [c Hc].
    assert (c ∈ dom (nodes g)) as Hin.
    { inversion Hc as [? ? (node & Hn & _)|? ? ? (node & Hn & _) _]; subst;
        apply elem_of_dom; eauto. }
    by apply (Acc_no_cycle (depends_on g) c (Hacc c Hin) c). }
  assert (Hgood : closed g ∧ ¬ cyclic g → ∃ l, (Sort fuel gord dord g).1 = Done l).
  { intros [Hclosed Hacyclic].
    destruct ((Sort fuel gord dord g).1) as [l|e|]; simpl in Hpost; [by eauto| |done].
    exfalso. destruct Hpost as [(n & _ & Hn)|(n & _ & Hnot & m & Hm)].
    + apply Hacyclic. by exists n.
    + apply Hnot. by apply (Hclosed m). }
  split; [split; [by intros [l Hl]; apply (Hdone l)|done]|]. split.
  - intros [e He] Hok. destruct (Hgood Hok) as [l Hl]. congruence.
  - intros Hbad.
    destruct ((Sort fuel gord dord g).1) as [l|e|] eqn:E; simpl in Hpost; [|by eauto|done].
    exfalso. by apply Hbad, (Hdone l).
Qed.

Lemma Sort_succeeds_iff_witness :
  valid_order fixed_order ∧ size (nodes empty_id_graph) ≤ 2
  ∧ ((∃ l, (Sort 2 fixed_order (λ _, fixed_order) empty_id_graph).1 = Done l)
     ↔ closed empty_id_graph ∧ ¬ cyclic empty_id_graph).
Proof.
  assert (Hsize : size (nodes empty_id_graph) ≤ 2) by (vm_compute; lia).
  split; [exact valid_order_elements|]. split; [exact Hsize|].
  exact (proj1 (Sort_succeeds_iff 2 fixed_order (λ _, fixed_order) empty_id_graph
                  valid_order_elements (λ _, valid_order_elements) Hsize)).
Defined.

(** ** The compiled plan in terms of the graph *)

(** X10. In the compiled plan the targets of an identifier are exactly the
    stored nodes that declare it as a dependency, and the plan has a node
    exactly for the stored identifiers and the identifiers declared as a
    dependency; an identifier that is declared but not stored gets a node
    with no work function and [required] zero. *)
Theorem compile_plan_exact (gord : RangeOrder) (dord : NodeID → RangeOrder) (g : Graph) :
  valid_order gord → (∀ id, valid_order (dord id)) →
  let peg := (CompileToExecutable gord dord g).1 in
  (∀ d t, t ∈ node_targets peg d ↔ depends_on g t d)
  ∧ (∀ k, k ∈ dom (peg_nodes peg) ↔ k ∈ dom (nodes g) ∨ ∃ n, depends_on g n k)
  ∧ (∀ k exn, peg_nodes peg !! k = Some exn → k ∉ dom (nodes g) →
              fn exn = None ∧ required exn = 0%Z).
Proof.
  intros Hg Hd peg. split; [|split].
  - intros d t. by apply elem_of_compile_node_targets.
  - intros k. rewrite elem_of_dom. unfold peg. rewrite lookup_compile by done.
    unfold plan_entry. destruct (nodes g !! k) as [node|] eqn:En.
    + split; [intros _; left; apply elem_of_dom; eauto|by eauto].
    + destruct (decide (dependents (nodes g) k = ∅)) as [He|He].
      * split; [by intros [? ?]|]. intros [[? ?]%elem_of_dom|[n Hn]]; [congruence|].
        exfalso. destruct Hn as (node & Hn & Hk).
        assert (n ∈ dependents (nodes g) k) as Hin by (apply elem_of_dependents; eauto).
        rewrite He in Hin. by apply not_elem_of_empty in Hin.
      * split; [|by eauto]. intros _. right.
        apply set_choose_L in He as [t Ht].
        apply elem_of_dependents in Ht as (node & Hn & Hk). exists t. by exists node.
  - intros k exn Hk Hnot. unfold peg in Hk. rewrite lookup_compile in Hk by done.
    apply not_elem_of_dom in Hnot. rewrite Hnot in Hk. unfold plan_entry in Hk.
    destruct (decide (dependents (nodes g) k = ∅)); [done|]. by injection Hk as <-.
Qed.

Lemma compile_plan_exact_witness :
  valid_order fixed_order
  ∧ (∀ d t, t ∈ node_targets diamond_plan d ↔ depends_on diamond t d).
Proof.
  split; [exact valid_order_elements|].
  exact (proj1 (compile_plan_exact fixed_order (λ _, fixed_order) diamond
                  valid_order_elements (λ _, valid_order_elements))).
Defined.

Lemma compile_required_zero (gord : RangeOrder) (dord : NodeID → RangeOrder)
    (g : Graph) (id : NodeID) :
  valid_order gord → (∀ id, valid_order (dord id)) →
  (∃ exn, peg_nodes (CompileToExecutable gord dord g).1 !! id = Some exn
          ∧ required exn = 0%Z)
  ↔ (∃ node, nodes g !! id = Some node ∧ Dependencies node = ∅)
    ∨ (nodes g !! id = None ∧ ∃ n, depends_on g n id).
Proof.
  intros Hg Hd. rewrite lookup_compile by done. unfold plan_entry.
  destruct (nodes g !! id) as [node|] eqn:En.
  - split.
    + intros (exn & [= <-] & Hz). simpl in Hz. left. exists node. split; [done|].
      apply leibniz_equiv, size_empty_inv. lia.
    + intros [(node' & [= <-] & He)|[? _]]; [|done].
      eexists. split; [done|]. simpl. rewrite He. by rewrite size_empty.
  - destruct (decide (dependents (nodes g) id = ∅)) as [He|He].
    + split; [by intros (? & ? & _)|]. intros [(? & ? & _)|[_ [n Hn]]]; [done|].
      exfalso. destruct Hn as (node & Hn & Hk).
      assert (n ∈ dependents (nodes g) id) as Hin by (apply elem_of_dependents; eauto).
      rewrite He in Hin. by apply not_elem_of_empty in Hin.
    + split; [|by eauto]. intros _. right. split; [done|].
      apply set_choose_L in He as [t Ht].
      apply elem_of_dependents in Ht as (node & Hn & Hk). exists t. by exists node.
Qed.

(** X11. The roots of the compiled plan are the stored nodes without
    dependencies, together with the identifiers that are declared as a
    dependency but not stored. *)
Theorem compile_roots (gord pord : RangeOrder) (dord : NodeID → RangeOrder)
    (g : Graph) (id : NodeID) :
  valid_order gord → (∀ id, valid_order (dord id)) → valid_order pord →
  id ∈ RootIds pord (peg_nodes (CompileToExecutable gord dord g).1)
  ↔ (∃ node, nodes g !! id = Some node ∧ Dependencies node = ∅)
    ∨ (nodes g !! id = None ∧ ∃ n, depends_on g n id).
Proof.
  intros Hg Hd Hp. rewrite elem_of_RootIds by done. by apply compile_required_zero.
Qed.

Lemma compile_roots_witness :
  valid_order fixed_order
  ∧ ("A" ∈ RootIds fixed_order (peg_nodes (CompileToExecutable fixed_order
                                             (λ _, fixed_order) dangling).1)
     ↔ (∃ node, nodes dangling !! "A" = Some node ∧ Dependencies node = ∅)
       ∨ (nodes dangling !! "A" = None ∧ ∃ n, depends_on dangling n "A")).
Proof.
  split; [exact valid_order_elements|].
  exact (compile_roots fixed_order fixed_order (λ _, fixed_order) dangling "A"
           valid_order_elements (λ _, valid_order_elements) valid_order_elements).
Defined.

Lemma run_each_Returned_each (rec : NodeID → run_outcome) (ts : list NodeID)
    (u : unit) (tr : list event) (t : NodeID) :
  run_each rec ts = Returned u tr → t ∈ ts → ∃ u' tr', rec t = Returned u' tr'.
Proof.
  intros (trs & Hall & _)%run_each_Returned Hin.
  induction Hall as [|t' tr1 ts trs [u' Ht1] _ IH]; [by apply elem_of_nil in Hin|].
  apply elem_of_cons in Hin as [->|Hin]; eauto.
Qed.

(** X12. When a stored node declares a dependency that is not stored, [run]
    on the compiled plan does not return, however much fuel it is given: the
    missing identifier is a root whose work function is nil. *)
Theorem run_missing_dependency (gord pord : RangeOrder) (dord : NodeID → RangeOrder)
    (tord : list NodeID → RangeOrder) (g : Graph) (fuel : nat) (n d : NodeID) :
  valid_order gord → (∀ id, valid_order (dord id)) → valid_order pord →
  depends_on g n d → d ∉ dom (nodes g) →
  (∀ u tr, run fuel pord tord (CompileToExecutable gord dord g).1 ≠ Returned u tr)
  ∧ (∀ path, 0 < fuel →
             runNode fuel tord (CompileToExecutable gord dord g).1 path d = NilFn d)
  ∧ d ∈ RootIds pord (peg_nodes (CompileToExecutable gord dord g).1).
Proof.
  intros Hg Hd Hp Hdep Hnot.
  assert (Hroot : d ∈ RootIds pord (peg_nodes (CompileToExecutable gord dord g).1)).
  { apply elem_of_RootIds; [done|]. apply compile_required_zero; [done..|].
    right. split; [by apply not_elem_of_dom|by exists n]. }
  assert (Hexn : ∃ exn, peg_nodes (CompileToExecutable gord dord g).1 !! d = Some exn
                        ∧ fn exn = None).
  { apply elem_of_RootIds in Hroot as (exn & Hexn & _); [|done].
    exists exn. split; [done|]. pose proof Hexn as Hexn'.
    rewrite lookup_compile in Hexn' by done.
    apply not_elem_of_dom in Hnot. rewrite Hnot in Hexn'. unfold plan_entry in Hexn'.
    destruct (decide (dependents (nodes g) d = ∅)); [done|]. by injection Hexn' as <-. }
  destruct Hexn as (exn & Hexn & Hfn).
  assert (Hnil : ∀ path f, runNode (S f) tord (CompileToExecutable gord dord g).1 path d
                           = NilFn d).
  { intros path f. simpl runNode. simpl in Hexn. rewrite Hexn. by rewrite Hfn. }
  split; [|split; [|done]].
  - intros u tr Hrun.
    destruct (run_each_Returned_each _ _ _ _ d Hrun Hroot) as (u' & tr' & Hd').
    destruct fuel as [|f]; [done|]. by rewrite Hnil in Hd'.
  - intros path Hpos. destruct fuel as [|f]; [lia|]. apply Hnil.
Qed.

Lemma run_missing_dependency_witness :
  valid_order fixed_order ∧ depends_on dangling "B" "A" ∧ ("A" ∉ dom (nodes dangling))
  ∧ ∀ u tr, run 5 fixed_order (λ _, fixed_order)
              (CompileToExecutable fixed_order (λ _, fixed_order) dangling).1
            ≠ Returned u tr.
Proof.
  assert (Hdep : depends_on dangling "B" "A").
  { eexists. split; [reflexivity|]. simpl. set_solver. }
  assert (Hnot : "A" ∉ dom (nodes dangling)).
  { apply not_elem_of_dom. reflexivity. }
  split; [exact valid_order_elements|]. split; [exact Hdep|]. split; [exact Hnot|].
  exact (proj1 (run_missing_dependency fixed_order fixed_order (λ _, fixed_order)
                  (λ _, fixed_order) dangling 5 "B" "A"
                  valid_order_elements (λ _, valid_order_elements)
                  valid_order_elements Hdep Hnot)).
Defined.

(** X13. When every stored node declares at least one dependency and all
    declared dependencies are stored, the compiled plan has no root and [run]
    returns at once without calling any work function. *)
Theorem run_without_roots (gord pord : RangeOrder) (dord : NodeID → RangeOrder)
    (tord : list NodeID → RangeOrder) (g : Graph) (fuel : nat) :
  valid_order gord → (∀ id, valid_order (dord id)) → valid_order pord →
  closed g →
  (∀ n node, nodes g !! n = Some node → Dependencies node ≠ ∅) →
  RootIds pord (peg_nodes (CompileToExecutable gord dord g).1) = []
  ∧ run fuel pord tord (CompileToExecutable gord dord g).1 = Returned tt [].
Proof.
  intros Hg Hd Hp Hclosed Hdeps.
  assert (Hnil : RootIds pord (peg_nodes (CompileToExecutable gord dord g).1) = []).
  { apply elem_of_nil_inv. intros id Hid.
    apply elem_of_RootIds in Hid; [|done].
    apply compile_required_zero in Hid as [(node & Hn & He)|[Hnone [n Hn]]]; [| |done..].
    - by apply (Hdeps id node).
    - apply Hclosed, elem_of_dom in Hn as [? ?]. congruence. }
  split; [done|]. unfold run. by rewrite Hnil.
Qed.

Lemma run_without_roots_witness :
  valid_order fixed_order ∧ closed cycle3
  ∧ (∀ n node, nodes cycle3 !! n = Some node → Dependencies node ≠ ∅)
  ∧ run 9 fixed_order (λ _, fixed_order)
      (CompileToExecutable fixed_order (λ _, fixed_order) cycle3).1 = Returned tt [].
Proof.
  assert (Hdeps : ∀ n node, nodes cycle3 !! n = Some node → Dependencies node ≠ ∅).
  { intros n node Hn. unfold cycle3 in Hn. simpl in Hn.
    rewrite lookup_insert in Hn. destruct (decide ("A" = n)).
    { injection Hn as <-. simpl. apply non_empty_singleton_L. }
    rewrite lookup_insert in Hn. destruct (decide ("B" = n)).
    { injection Hn as <-. simpl. apply non_empty_singleton_L. }
    rewrite lookup_insert in Hn. destruct (decide ("C" = n)).
    { injection Hn as <-. simpl. apply non_empty_singleton_L. }
    by rewrite lookup_empty in Hn. }
  split; [exact valid_order_elements|]. split; [exact closed_cycle3|].
  split; [exact Hdeps|].
  exact (proj2 (run_without_roots fixed_order fixed_order (λ _, fixed_order)
                  (λ _, fixed_order) cycle3 9
                  valid_order_elements (λ _, valid_order_elements)
                  valid_order_elements closed_cycle3 Hdeps)).
Defined.

(** ** What a run calls, and when *)

Lemma tc_flip_impl {A : Type} (R S : relation A) (a b : A) :
  (∀ x y, R x y → S y x) → tc R a b → tc S b a.
Proof.
  intros Himp. induction 1 as [a b Hab|a y b Hay _ IH].
  - by apply tc_once, Himp.
  - eapply tc_r; [exact IH|by apply Himp].
Qed.

Lemma targets_follow_tc (peg : ParallelizedExecutableGraph) (tr : list event)
    (i : nat) (d t : NodeID) (r : option error) :
  targets_follow peg tr →
  tr !! i = Some (d, r) →
  tc (targets_rel peg) d t →
  ∃ j r', i < j ∧ tr !! j = Some (t, r').
Proof.
  intros Hfol Hi Htc. revert i r Hi.
  induction Htc as [d t Hdt|d y t Hdy _ IH]; intros i r Hi.
  - by apply (Hfol i d r).
  - destruct (Hfol i d r y Hi Hdy) as (j & r' & Hlt & Hj).
    destruct (IH j r' Hj) as (j' & r'' & Hlt' & Hj').
    exists j', r''. split; [lia|done].
Qed.

Lemma targets_follow_no_cycle (peg : ParallelizedExecutableGraph) (tr : list event)
    (i : nat) (n : NodeID) (r : option error) :
  targets_follow peg tr →
  tr !! i = Some (n, r) →
  ¬ tc (targets_rel peg) n n.
Proof.
  intros Hfol Hi Hcyc.
  assert (H : ∀ k, ∃ j r', k ≤ j ∧ tr !! j = Some (n, r')).
  { induction k as [|k (j & r' & Hle & Hj)].
    - exists i, r. split; [lia|done].
    - destruct (targets_follow_tc peg tr j n n r' Hfol Hj Hcyc) as (j' & r'' & Hlt & Hj').
      exists j', r''. split; [lia|done]. }
  destruct (H (length tr)) as (j & r' & Hle & Hj).
  apply lookup_lt_Some in Hj. lia.
Qed.

Lemma run_roots_called (tord : list NodeID → RangeOrder)
    (peg : ParallelizedExecutableGraph) (fuel : nat) (pord : RangeOrder)
    (u : unit) (tr : list event) (t : NodeID) :
  (∀ p, valid_order (tord p)) →
  run fuel pord tord peg = Returned u tr →
  t ∈ RootIds pord (peg_nodes peg) →
  ∃ j r, tr !! j = Some (t, r).
Proof.
  intros Ht Hrun Hin.
  eapply (run_each_follow peg) in Hrun as [_ Hall]; [by apply Hall|].
  intros t' u' tr'. by apply runNode_follow.
Qed.

Lemma targets_rel_compile (gord : RangeOrder) (dord : NodeID → RangeOrder) (g : Graph)
    (a b : NodeID) :
  valid_order gord → (∀ id, valid_order (dord id)) →
  targets_rel (CompileToExecutable gord dord g).1 a b ↔ depends_on g b a.
Proof. intros Hg Hd. by apply elem_of_compile_node_targets. Qed.

(** X14. A run of a compiled plan that returns has called no node that lies
    on a dependency cycle; so when a node on a cycle depends, through any
    number of edges, on a stored node without dependencies, [run] does not
    return, whatever the fuel: in Go the recursion of [runNode] has no end. *)
Theorem run_cycle_never_returns (gord pord : RangeOrder) (dord : NodeID → RangeOrder)
    (tord : list NodeID → RangeOrder) (g : Graph) (fuel : nat) :
  valid_order gord → (∀ id, valid_order (dord id)) →
  valid_order pord → (∀ p, valid_order (tord p)) →
  (∀ u tr j n r,
     run fuel pord tord (CompileToExecutable gord dord g).1 = Returned u tr →
     tr !! j = Some (n, r) → ¬ tc (depends_on g) n n)
  ∧ (∀ n root node,
       tc (depends_on g) n n → rtc (depends_on g) n root →
       nodes g !! root = Some node → Dependencies node = ∅ →
       ∀ u tr, run fuel pord tord (CompileToExecutable gord dord g).1 ≠ Returned u tr).
Proof.
  intros Hg Hd Hp Ht.
  set (peg := (CompileToExecutable gord dord g).1).
  assert (Hflip : ∀ a b, tc (depends_on g) a b → tc (targets_rel peg) b a).
  { intros a b. apply tc_flip_impl. intros x y Hxy. by apply targets_rel_compile. }
  assert (H1 : ∀ u tr j n r, run fuel pord tord peg = Returned u tr →
                 tr !! j = Some (n, r) → ¬ tc (depends_on g) n n).
  { intros u tr j n r Hrun Hj Hcyc.
    apply (targets_follow_no_cycle peg tr j n r); [|done|by apply Hflip].
    by apply (run_follow tord Ht peg fuel pord u). }
  split; [exact H1|].
  intros n root node Hcyc Hreach Hroot Hnodeps u tr Hrun.
  assert (Hin : root ∈ RootIds pord (peg_nodes peg)).
  { apply elem_of_RootIds; [done|]. apply compile_required_zero; [done..|].
    left. by exists node. }
  destruct (run_roots_called tord peg fuel pord u tr root Ht Hrun Hin) as (j & r & Hj).
  apply rtc_tc in Hreach as [->|Hreach].
  - by apply (H1 u tr j root r).
  - destruct (targets_follow_tc peg tr j root n r) as (j' & r' & _ & Hj');
      [by apply (run_follow tord Ht peg fuel pord u)|done|by apply Hflip|].
    by apply (H1 u tr j' n r').
Qed.

Lemma run_cycle_never_returns_witness :
  valid_order fixed_order
  ∧ tc (depends_on rooted_cycle) "B" "B" ∧ rtc (depends_on rooted_cycle) "B" "A"
  ∧ ∀ u tr, run 7 fixed_order (λ _, fixed_order)
              (CompileToExecutable fixed_order (λ _, fixed_order) rooted_cycle).1
            ≠ Returned u tr.
Proof.
  assert (Hcyc : tc (depends_on rooted_cycle) "B" "B").
  { eapply (tc_l _ "B" "C"); [|apply tc_once];
      (eexists; split; [reflexivity|]; simpl; set_solver). }
  assert (Hreach : rtc (depends_on rooted_cycle) "B" "A").
  { apply rtc_once. eexists. split; [reflexivity|]. simpl. set_solver. }
  split; [exact valid_order_elements|]. split; [exact Hcyc|]. split; [exact Hreach|].
  exact (proj2 (run_cycle_never_returns fixed_order fixed_order (λ _, fixed_order)
                  (λ _, fixed_order) rooted_cycle 7
                  valid_order_elements (λ _, valid_order_elements)
                  valid_order_elements (λ _, valid_order_elements))
           "B" "A" (NewNode "A" ∅ (Some succeed)) Hcyc Hreach eq_refl eq_refl).
Defined.

Lemma built_run_called (gord pord : RangeOrder) (dord : NodeID → RangeOrder)
    (tord : list NodeID → RangeOrder) (g : Graph) (fuel : nat)
    (u : unit) (tr : list event) (n : NodeID) :
  built g →
  valid_order gord → (∀ id, valid_order (dord id)) →
  valid_order pord → (∀ p, valid_order (tord p)) →
  run fuel pord tord (CompileToExecutable gord dord g).1 = Returned u tr →
  n ∈ dom (nodes g) →
  ∃ j r, tr !! j = Some (n, r).
Proof.
  intros Hb Hg Hd Hp Ht Hrun.
  destruct (built_ranked g Hb) as (rank & _ & Hedge).
  set (peg := (CompileToExecutable gord dord g).1) in *.
  pose proof (run_follow tord Ht peg fuel pord u tr Hrun) as Hfol.
  remember (rank n) as k eqn:Hk. revert n Hk.
  induction k as [k IH] using lt_wf_ind. intros n -> [node Hn]%elem_of_dom.
  destruct (decide (Dependencies node = ∅)) as [He|He].
  - apply (run_roots_called tord peg fuel pord u tr n Ht Hrun).
    apply elem_of_RootIds; [done|]. apply compile_required_zero; [done..|].
    left. by exists node.
  - apply set_choose_L in He as [d Hdin].
    assert (Hdep : depends_on g n d) by by exists node.
    destruct (Hedge n d Hdep) as [Hstored Hlt].
    destruct (IH (rank d) Hlt d eq_refl Hstored) as (i & r & Hi).
    destruct (Hfol i d r n Hi) as (j & r' & _ & Hj); [|by eauto].
    by apply elem_of_compile_node_targets.
Qed.

(** X15. In a run that returns of the plan of a graph built by [Add], the
    work of every stored node is called at least once. *)
Theorem run_calls_every_node (gord pord : RangeOrder) (dord : NodeID → RangeOrder)
    (tord : list NodeID → RangeOrder) (g : Graph) (fuel : nat)
    (u : unit) (tr : list event) (n : NodeID) :
  built g →
  valid_order gord → (∀ id, valid_order (dord id)) →
  valid_order pord → (∀ p, valid_order (tord p)) →
  run fuel pord tord (CompileToExecutable gord dord g).1 = Returned u tr →
  n ∈ dom (nodes g) →
  ∃ j r, tr !! j = Some (n, r).
Proof.
  intros Hb Hg Hd Hp Ht Hrun Hin.
  by apply (built_run_called gord pord dord tord g fuel u tr n).
Qed.

Lemma run_calls_every_node_witness :
  built diamond ∧ valid_order fixed_order
  ∧ run 2 fixed_order (λ _, fixed_order) diamond_plan
    = Returned tt [("E", None); ("C", None); ("A", None); ("C", None)]
  ∧ "A" ∈ dom (nodes diamond)
  ∧ ∃ j r, [("E", None); ("C", None); ("A", None); ("C", None)] !! j
           = Some ("A", r : option error).
Proof.
  assert (Hrun : run 2 fixed_order (λ _, fixed_order) diamond_plan
    = Returned tt [("E", None); ("C", None); ("A", None); ("C", None)])
    by (vm_compute; reflexivity).
  assert (Hin : "A" ∈ dom (nodes diamond)).
  { apply elem_of_dom. eexists. reflexivity. }
  split; [exact built_diamond|]. split; [exact valid_order_elements|].
  split; [exact Hrun|]. split; [exact Hin|].
  exact (run_calls_every_node fixed_order fixed_order (λ _, fixed_order)
           (λ _, fixed_order) diamond 2 tt _ "A" built_diamond
           valid_order_elements (λ _, valid_order_elements)
           valid_order_elements (λ _, valid_order_elements) Hrun Hin).
Defined.

Lemma parented_app (peg : ParallelizedExecutableGraph) (ts1 ts2 : list NodeID)
    (l1 l2 : list event) :
  parented peg ts1 l1 → parented peg ts2 l2 → parented peg (ts1 ++ ts2) (l1 ++ l2).
Proof.
  intros H1 H2 j x r [Hj|[Hlen Hj]]%lookup_app_Some.
  - destruct (H1 j x r Hj) as [Hin|(i & d & r' & Hlt & Hi & Hx)].
    + left. apply elem_of_app. by left.
    + right. exists i, d, r'. split; [done|]. split; [|done].
      by apply lookup_app_l_Some.
  - destruct (H2 _ x r Hj) as [Hin|(i & d & r' & Hlt & Hi & Hx)].
    + left. apply elem_of_app. by right.
    + right. exists (length l1 + i), d, r'. split; [lia|]. split; [|done].
      rewrite lookup_app_r by lia.
      by replace (length l1 + i - length l1) with i by lia.
Qed.

Lemma run_each_parented (peg : ParallelizedExecutableGraph)
    (rec : NodeID → run_outcome) (ts : list NodeID) (u : unit) (tr : list event) :
  (∀ t u' tr', rec t = Returned u' tr' → parented peg [t] tr') →
  run_each rec ts = Returned u tr →
  parented peg ts tr.
Proof.
  intros Hrec. revert u tr. induction ts as [|t ts IH]; intros u tr; simpl.
  - intros [= <- <-]. intros j x r Hj. by rewrite lookup_nil in Hj.
  - destruct (rec t) as [u1 tr1| | |] eqn:E1; try done.
    destruct (run_each rec ts) as [u2 tr2| | |] eqn:E2; try done.
    intros [= <- <-].
    apply (parented_app peg [t] ts); [by apply (Hrec t u1)|by apply (IH u2)].
Qed.

Lemma runNode_parented (tord : list NodeID → RangeOrder)
    (peg : ParallelizedExecutableGraph) (fuel : nat) (path : list NodeID)
    (id : NodeID) (u : unit) (tr : list event) :
  (∀ p, valid_order (tord p)) →
  runNode fuel tord peg path id = Returned u tr →
  parented peg [id] tr.
Proof.
  intros Ht. revert path id u tr.
  induction fuel as [|fuel IH]; intros path id u tr; [done|].
  intros (fuel' & node & f & tr' & [= <-] & Hn & Hf & Hrun & ->)%runNode_Returned.
  apply (run_each_parented peg) in Hrun; [|by eauto].
  intros j x r Hj. destruct j as [|j]; simpl in Hj.
  - injection Hj as <- <-. left. by apply list_elem_of_singleton.
  - right. destruct (Hrun j x r Hj) as [Hin|(i & d & r' & Hlt & Hi & Hx)].
    + exists 0, id, (f id). split; [lia|]. split; [done|].
      unfold node_targets. rewrite Hn. simpl. by apply elem_of_order in Hin.
    + exists (S i), d, r'. split; [lia|]. by split.
Qed.

Lemma run_parented (tord : list NodeID → RangeOrder)
    (peg : ParallelizedExecutableGraph) (fuel : nat) (pord : RangeOrder)
    (u : unit) (tr : list event) :
  (∀ p, valid_order (tord p)) →
  run fuel pord tord peg = Returned u tr →
  parented peg (RootIds pord (peg_nodes peg)) tr.
Proof.
  intros Ht. apply run_each_parented. intros t u' tr'. by apply runNode_parented.
Qed.

Lemma compiled_call_has_parent (gord pord : RangeOrder) (dord : NodeID → RangeOrder)
    (tord : list NodeID → RangeOrder) (g : Graph) (fuel : nat)
    (u : unit) (tr : list event) (j : nat) (n : NodeID) (r : option error) (node : Node) :
  valid_order gord → (∀ id, valid_order (dord id)) →
  valid_order pord → (∀ p, valid_order (tord p)) →
  run fuel pord tord (CompileToExecutable gord dord g).1 = Returned u tr →
  tr !! j = Some (n, r) →
  nodes g !! n = Some node → Dependencies node ≠ ∅ →
  ∃ i d r', i < j ∧ d ∈ Dependencies node ∧ tr !! i = Some (d, r').
Proof.
  intros Hg Hd Hp Ht Hrun Hj Hn Hne.
  destruct (run_parented tord _ fuel pord u tr Ht Hrun j n r Hj)
    as [Hroot|(i & d & r' & Hlt & Hi & Hx)].
  - exfalso. apply elem_of_RootIds in Hroot; [|done].
    apply compile_required_zero in Hroot as [(node' & Hn' & He)|[Hnone _]]; [| |done..].
    + rewrite Hn in Hn'. by injection Hn' as <-.
    + congruence.
  - exists i, d, r'. split; [done|]. split; [|done].
    apply elem_of_compile_node_targets in Hx as (node' & Hn' & Hdin); [|done..].
    rewrite Hn in Hn'. by injection Hn' as <-.
Qed.

(** X16. In a run of a compiled plan that returns, every call of the work of
    a node that has dependencies comes after a call of the work of one of
    its dependencies; a node without dependencies is a root. *)
Theorem run_call_after_a_dependency (gord pord : RangeOrder)
    (dord : NodeID → RangeOrder) (tord : list NodeID → RangeOrder) (g : Graph)
    (fuel : nat) (u : unit) (tr : list event) (j : nat) (n : NodeID)
    (r : option error) (node : Node) :
  valid_order gord → (∀ id, valid_order (dord id)) →
  valid_order pord → (∀ p, valid_order (tord p)) →
  run fuel pord tord (CompileToExecutable gord dord g).1 = Returned u tr →
  tr !! j = Some (n, r) →
  nodes g !! n = Some node →
  (Dependencies node ≠ ∅ →
     ∃ i d r', i < j ∧ d ∈ Dependencies node ∧ tr !! i = Some (d, r'))
  ∧ (Dependencies node = ∅ →
     n ∈ RootIds pord (peg_nodes (CompileToExecutable gord dord g).1)).
Proof.
  intros Hg Hd Hp Ht Hrun Hj Hn. split.
  - by apply (compiled_call_has_parent gord pord dord tord g fuel u tr j n r node).
  - intros He. apply elem_of_RootIds; [done|]. apply compile_required_zero; [done..|].
    left. by exists node.
Qed.

Lemma run_call_after_a_dependency_witness :
  valid_order fixed_order
  ∧ run 2 fixed_order (λ _, fixed_order) diamond_plan
    = Returned tt [("E", None); ("C", None); ("A", None); ("C", None)]
  ∧ [("E", None); ("C", None); ("A", None); ("C", None)] !! 1
    = Some ("C", None : option error)
  ∧ nodes diamond !! "C" = Some node_C
  ∧ (Dependencies node_C ≠ ∅ →
     ∃ i d r', i < 1 ∧ d ∈ Dependencies node_C
               ∧ [("E", None); ("C", None); ("A", None); ("C", None)] !! i
                 = Some (d, r' : option error)).
Proof.
  assert (Hrun : run 2 fixed_order (λ _, fixed_order) diamond_plan
    = Returned tt [("E", None); ("C", None); ("A", None); ("C", None)])
    by (vm_compute; reflexivity).
  assert (Hn : nodes diamond !! "C" = Some node_C) by reflexivity.
  split; [exact valid_order_elements|]. split; [exact Hrun|].
  split; [reflexivity|]. split; [exact Hn|].
  exact (proj1 (run_call_after_a_dependency fixed_order fixed_order (λ _, fixed_order)
                  (λ _, fixed_order) diamond 2 tt _ 1 "C" None node_C
                  valid_order_elements (λ _, valid_order_elements)
                  valid_order_elements (λ _, valid_order_elements)
                  Hrun eq_refl Hn)).
Defined.

Lemma run_calls_generic (tord : list NodeID → RangeOrder)
    (peg : ParallelizedExecutableGraph) (fuel : nat) (pord : RangeOrder)
    (u : unit) (tr : list event) (n : NodeID) :
  (∀ p, valid_order (tord p)) →
  run fuel pord tord peg = Returned u tr →
  calls n (called tr)
  = calls n (RootIds pord (peg_nodes peg))
    + length (filter (λ d, n ∈ node_targets peg d) (called tr)).
Proof.
  intros Ht Hrun.
  rewrite (calls_perm _ _ _ (run_perm tord Ht peg fuel pord u tr Hrun)) at 1.
  by rewrite calls_app, (calls_bind_elements n (node_targets peg)).
Qed.

Lemma calls_pos (x : NodeID) (l : list NodeID) : 0 < calls x l ↔ x ∈ l.
Proof.
  unfold calls. induction l as [|y l IH]; simpl.
  - split; [lia|by intros ?%elem_of_nil].
  - rewrite filter_cons, elem_of_cons. destruct (decide (y = x)) as [->|Hne]; simpl.
    + split; [by left|lia].
    + rewrite IH. naive_solver.
Qed.

Lemma NoDup_calls (l : list NodeID) :
  (∀ x, x ∈ l → calls x l = 1) → NoDup l.
Proof.
  induction l as [|y l IH]; intros Hone; [constructor|].
  assert (Hy : calls y l = 0).
  { pose proof (Hone y ltac:(left)) as H. unfold calls in *.
    rewrite filter_cons, decide_True in H by done. simpl in H. lia. }
  constructor.
  - intros Hin%calls_pos. lia.
  - apply IH. intros x Hx. pose proof (Hone x ltac:(by right)) as H.
    unfold calls in *. rewrite filter_cons in H.
    destruct (decide (y = x)) as [->|Hne]; simpl in H; [|done].
    apply calls_pos in Hx. unfold calls in Hx. lia.
Qed.

Lemma size_le_1_eq (s : NodeIDs) (x y : NodeID) :
  size s ≤ 1 → x ∈ s → y ∈ s → x = y.
Proof.
  intros Hle Hx Hy. apply (size_singleton_inv s); [|done..].
  assert (size s ≠ 0); [|lia]. intros Hz%size_empty_inv. set_solver.
Qed.

(** X17. When no node has more than one dependency, as in the graph of
    [main], the executor is right: in a run that returns of the plan of a
    graph built by [Add], the work of every stored node is called exactly
    once, and after the work of the node's dependency. *)
Theorem run_forest (gord pord : RangeOrder) (dord : NodeID → RangeOrder)
    (tord : list NodeID → RangeOrder) (g : Graph) (fuel : nat)
    (u : unit) (tr : list event) :
  built g →
  valid_order gord → (∀ id, valid_order (dord id)) →
  valid_order pord → (∀ p, valid_order (tord p)) →
  (∀ n node, nodes g !! n = Some node → size (Dependencies node) ≤ 1) →
  run fuel pord tord (CompileToExecutable gord dord g).1 = Returned u tr →
  called tr ≡ₚ elements (dom (nodes g)) ∧ dependencies_first g (called tr).
Proof.
  intros Hb Hg Hd Hp Ht Hone Hrun.
  destruct (built_ranked g Hb) as (rank & _ & Hedge).
  set (peg := (CompileToExecutable gord dord g).1) in *.
  assert (Htargets : ∀ n node, nodes g !! n = Some node →
            ∀ d, n ∈ node_targets peg d ↔ d ∈ Dependencies node).
  { intros n node Hn d. unfold peg. rewrite elem_of_compile_node_targets by done.
    unfold depends_on. rewrite Hn. naive_solver. }
  assert (Hcalls : ∀ n, n ∈ dom (nodes g) → calls n (called tr) = 1).
  { intros n. remember (rank n) as k eqn:Hk. revert n Hk.
    induction k as [k IH] using lt_wf_ind. intros n -> [node Hn]%elem_of_dom.
    rewrite (run_calls_generic tord peg fuel pord u tr n Ht Hrun).
    rewrite (list_filter_iff _ (λ d, d ∈ Dependencies node)) by apply (Htargets n node Hn).
    rewrite calls_NoDup by by apply NoDup_RootIds.
    destruct (decide (Dependencies node = ∅)) as [He|He].
    - rewrite decide_True.
      2:{ apply elem_of_RootIds; [done|]. apply compile_required_zero; [done..|].
          left. by exists node. }
      assert (filter (λ d, d ∈ Dependencies node) (called tr) = []) as ->; [|done].
      apply elem_of_nil_inv. intros x [Hx _]%list_elem_of_filter.
      rewrite He in Hx. by apply not_elem_of_empty in Hx.
    - rewrite decide_False.
      2:{ intros Hroot%elem_of_RootIds; [|done].
          apply compile_required_zero in Hroot as [(node' & Hn' & He')|[Hnone _]];
            [| |done..]; [|congruence].
          rewrite Hn in Hn'. by injection Hn' as <-. }
      apply set_choose_L in He as [d Hdin].
      assert (Hdep : depends_on g n d) by by exists node.
      destruct (Hedge n d Hdep) as [Hstored Hlt].
      rewrite (list_filter_iff _ (λ x, x = d)).
      + apply (IH (rank d) Hlt d eq_refl Hstored).
      + intros x. split; [|by intros ->].
        intros Hx. by apply (size_le_1_eq (Dependencies node)); [apply (Hone n node)|..]. }
  assert (Hstored : ∀ x, x ∈ called tr → x ∈ dom (nodes g)).
  { intros x ([x' r] & -> & Hin)%list_elem_of_fmap. simpl.
    apply list_elem_of_lookup_1 in Hin as [j Hj].
    destruct (run_parented tord peg fuel pord u tr Ht Hrun j x' r Hj)
      as [Hroot|(i & d & r' & _ & _ & Hx)].
    - apply elem_of_RootIds in Hroot; [|done].
      apply compile_required_zero in Hroot as [(node & Hn & _)|[_ [n Hn]]]; [| |done..].
      + apply elem_of_dom. eauto.
      + by destruct (Hedge n x' Hn).
    - apply elem_of_compile_node_targets in Hx as (node & Hn & _); [|done..].
      apply elem_of_dom. eauto. }
  split.
  - apply NoDup_Permutation; [|apply NoDup_elements|].
    + apply NoDup_calls. intros x Hx. by apply Hcalls, Hstored.
    + intros x. rewrite elem_of_elements. split; [by apply Hstored|].
      intros Hx. apply calls_pos. rewrite (Hcalls x Hx). lia.
  - intros j n d Hj (node & Hn & Hdin).
    unfold called in Hj.
    apply list_lookup_fmap_Some in Hj as ([n' r] & -> & Hj). simpl in Hn.
    destruct (compiled_call_has_parent gord pord dord tord g fuel u tr j n' r node
                Hg Hd Hp Ht Hrun Hj Hn) as (i & d' & r' & Hlt & Hd' & Hi).
    { intros He. rewrite He in Hdin. by apply not_elem_of_empty in Hdin. }
    exists i. split; [done|].
    assert (d' = d) as -> by by apply (size_le_1_eq (Dependencies node)); [apply (Hone n' node)|..].
    unfold called. rewrite list_lookup_fmap, Hi. done.
Qed.

Lemma built_main_graph : built main_graph.
Proof. apply built_add_all; [apply valid_order_elements|constructor]. Qed.

Lemma main_graph_single_dependency (n : NodeID) (node : Node) :
  nodes main_graph !! n = Some node → size (Dependencies node) ≤ 1.
Proof.
  change (nodes main_graph) with
    (<["e" := NewNode "e" ∅ (Some succeed)]>
     (<["d" := NewNode "d" {["c"]} (Some succeed)]>
     (<["c" := NewNode "c" {["b"]} (Some succeed)]>
     (<["b" := NewNode "b" {["a"]} (Some succeed)]>
     (<["a" := NewNode "a" ∅ (Some succeed)]> (∅ : gmap NodeID Node)))))).
  intros Hn.
  rewrite lookup_insert in Hn. destruct (decide ("e" = n)).
  { injection Hn as <-. vm_compute. lia. }
  rewrite lookup_insert in Hn. destruct (decide ("d" = n)).
  { injection Hn as <-. vm_compute. lia. }
  rewrite lookup_insert in Hn. destruct (decide ("c" = n)).
  { injection Hn as <-. vm_compute. lia. }
  rewrite lookup_insert in Hn. destruct (decide ("b" = n)).
  { injection Hn as <-. vm_compute. lia. }
  rewrite lookup_insert in Hn. destruct (decide ("a" = n)).
  { injection Hn as <-. vm_compute. lia. }
  by rewrite lookup_empty in Hn.
Qed.

Lemma run_forest_witness :
  built main_graph ∧ valid_order fixed_order
  ∧ (∀ n node, nodes main_graph !! n = Some node → size (Dependencies node) ≤ 1)
  ∧ run 4 fixed_order (λ _, fixed_order)
      (CompileToExecutable fixed_order (λ _, fixed_order) main_graph).1
    = Returned tt [("e", None); ("a", None); ("b", None); ("c", None); ("d", None)]
  ∧ called [("e", None : option error); ("a", None); ("b", None); ("c", None); ("d", None)]
    ≡ₚ elements (dom (nodes main_graph)).
Proof.
  assert (Hrun : run 4 fixed_order (λ _, fixed_order)
      (CompileToExecutable fixed_order (λ _, fixed_order) main_graph).1
    = Returned tt [("e", None); ("a", None); ("b", None); ("c", None); ("d", None)])
    by (vm_compute; reflexivity).
  split; [exact built_main_graph|]. split; [exact valid_order_elements|].
  split; [exact main_graph_single_dependency|]. split; [exact Hrun|].
  exact (proj1 (run_forest fixed_order fixed_order (λ _, fixed_order)
                  (λ _, fixed_order) main_graph 4 tt _ built_main_graph
                  valid_order_elements (λ _, valid_order_elements)
                  valid_order_elements (λ _, valid_order_elements)
                  main_graph_single_dependency Hrun)).
Defined.

(** X18. A node that declares itself as a dependency can never be added:
    [Add] fails, with the duplicate error when the identifier is stored, and
    otherwise with the missing-dependency error naming a declared dependency
    that is not stored; either way it leaves the graph unchanged. *)
Theorem Add_self_dependency (o : RangeOrder) (node : Node) (g : Graph) :
  valid_order o →
  Identifier node ∈ Dependencies node →
  (is_Some (nodes g !! Identifier node) →
     Add o node g = (Err (DuplicateIdentifier (Identifier node)), g))
  ∧ (nodes g !! Identifier node = None →
     ∃ d, d ∈ Dependencies node ∧ nodes g !! d = None
          ∧ Add o node g = (Err (MissingDependency (Identifier node) d), g)).
Proof.
  intros Ho Hself. unfold Add. split.
  - intros [n Hn]. by rewrite Hn.
  - intros Hnone. rewrite Hnone.
    destruct (first_missing (nodes g) (o (Dependencies node))) as [d|] eqn:Ef.
    + apply first_missing_Some in Ef as [Hd Hmiss].
      exists d. by rewrite elem_of_order in Hd.
    + exfalso. rewrite first_missing_None in Ef.
      destruct (Ef (Identifier node)) as [? ?]; [by apply elem_of_order|congruence].
Qed.

Lemma Add_self_dependency_witness :
  valid_order fixed_order ∧ Identifier node_self ∈ Dependencies node_self
  ∧ nodes diamond !! Identifier node_self = None
  ∧ ∃ d, d ∈ Dependencies node_self ∧ nodes diamond !! d = None
         ∧ Add fixed_order node_self diamond
           = (Err (MissingDependency (Identifier node_self) d), diamond).
Proof.
  assert (Hself : Identifier node_self ∈ Dependencies node_self).
  { simpl. by apply elem_of_singleton. }
  assert (Hnone : nodes diamond !! Identifier node_self = None)
    by (vm_compute; reflexivity).
  split; [exact valid_order_elements|]. split; [exact Hself|]. split; [exact Hnone|].
  exact (proj2 (Add_self_dependency fixed_order node_self diamond
                  valid_order_elements Hself) Hnone).
Defined.

(** X19. On a graph built from [NewGraph] by [Add] alone, [Sort] never fails:
    neither of its two errors can occur. *)
Theorem Sort_built_succeeds (fuel : nat) (gord : RangeOrder)
    (dord : NodeID → RangeOrder) (g : Graph) :
  built g →
  valid_order gord → (∀ id, valid_order (dord id)) →
  size (nodes g) ≤ fuel →
  ∃ l, (Sort fuel gord dord g).1 = Done l.
Proof.
  intros Hb Hg Hd Hfuel.
  pose proof (Sort_outcome fuel gord dord g Hg Hd Hfuel) as Hpost.
  destruct ((Sort fuel gord dord g).1) as [l|e|]; simpl in Hpost; [by eauto| |done].
  exfalso. destruct Hpost as [(n & _ & Hn)|(n & _ & Hnot & m & Hm)].
  - apply (built_acyclic g Hb). by exists n.
  - apply Hnot. by apply (built_closed g Hb m).
Qed.

Lemma Sort_built_succeeds_witness :
  built empty_id_graph ∧ valid_order reverse_order ∧ size (nodes empty_id_graph) ≤ 2
  ∧ ∃ l, (Sort 2 reverse_order (λ _, reverse_order) empty_id_graph).1 = Done l.
Proof.
  assert (Hsize : size (nodes empty_id_graph) ≤ 2) by (vm_compute; lia).
  split; [exact built_empty_id_graph|]. split; [exact valid_order_reverse|].
  split; [exact Hsize|].
  exact (Sort_built_succeeds 2 reverse_order (λ _, reverse_order) empty_id_graph
           built_empty_id_graph valid_order_reverse (λ _, valid_order_reverse) Hsize).
Defined.

(** ** Sort when the empty identifier is stored *)

Lemma fill_first_empty_self (res : list NodeID) :
  fill_first_empty EmptyString res = res.
Proof.
  induction res as [|r res IH]; simpl; [done|].
  destruct (decide (r = EmptyString)) as [->|Hne]; [done|]. by rewrite IH.
Qed.

Lemma filter_nonempty_no_empty (fin : list NodeID) :
  EmptyString ∉ filter (λ x, x ≠ EmptyString) fin.
Proof. by intros [? _]%list_elem_of_filter. Qed.

Lemma length_filter_ne_NoDup (x : NodeID) (l : list NodeID) :
  NoDup l →
  length (filter (λ y, y ≠ x) l) = if decide (x ∈ l) then length l - 1 else length l.
Proof.
  induction 1 as [|y l Hy Hnd IH]; [done|].
  rewrite filter_cons. destruct (decide (y ≠ x)) as [Hne|Heq]; simpl.
  - rewrite IH. destruct (decide (x ∈ l)) as [Hin|Hin].
    + rewrite decide_True by (by right).
      destruct l; [by apply elem_of_nil in Hin|simpl; lia].
    + rewrite decide_False; [done|]. intros [?|?]%elem_of_cons; congruence.
  - apply dec_stable in Heq as ->. rewrite decide_True by left.
    rewrite IH, decide_False by done. lia.
Qed.

Section Preserved.
Context (g : Graph) (P : SortState → Prop).

Section Loop.
Context (fuel : nat) (rec : NodeID → NodeIDs → SortState → outcome SortState).
Context (Hrec : ∀ n node st, nodes g !! n = Some node → visit_pre g fuel n st →
                             visit_post g n st (rec n (Dependencies node) st)).
Context (HrecP : ∀ n node st, nodes g !! n = Some node → visit_pre g fuel n st →
                   P st →
                   match rec n (Dependencies node) st with
                   | Done st' => P st'
                   | _ => True
                   end).

Lemma visit_neighbors_preserves (name : NodeID) (ns : list NodeID) (st : SortState) :
  (∀ n, n ∈ ns → depends_on g name n) →
  sort_inv g st →
  (∀ s, on_stack st s → rtc (depends_on g) s name) →
  unvisited g st ≤ fuel →
  P st →
  match visit_neighbors g rec ns st with
  | Done st' => P st'
  | _ => True
  end.
Proof using Hrec HrecP.
  revert st. induction ns as [|n ns IH];
    intros st Hns Hinv Hchain Hfuel HP; simpl; [done|].
  assert (Hn : depends_on g name n) by (apply Hns; left).
  assert (Hrest : ∀ n', n' ∈ ns → depends_on g name n')
    by (intros n' ?; apply Hns; by right).
  destruct (getb (visited st) n) eqn:Ev; simpl.
  - destruct (getb (stack st) n); [done|]. by apply IH.
  - destruct (nodes g !! n) as [node|] eqn:En; [|done].
    assert (Hpre : visit_pre g fuel n st).
    { split; [done|]. split; [unfold is_visited; congruence|]. split; [|done].
      intros s Hs. eapply rtc_r; [by apply Hchain|done]. }
    pose proof (Hrec n node st En Hpre) as Hpost.
    pose proof (HrecP n node st En Hpre HP) as HpostP.
    destruct (rec n (Dependencies node) st) as [st1| |]; simpl in Hpost; [|done..].
    destruct Hpost as (Hinv1 & Hext1 & _).
    apply IH; [done|done| |  |done].
    + intros s Hs. apply Hchain. by apply Hext1.
    + etrans; [apply (unvisited_extends g st), Hext1|done].
Qed.
End Loop.

Context (dord : NodeID → RangeOrder) (Hd : ∀ id, valid_order (dord id)).
Context (fuel : nat).
Context (HvisitP : ∀ n node st, nodes g !! n = Some node → visit_pre g fuel n st →
                     P st →
                     match visit g dord fuel n (Dependencies node) st with
                     | Done st' => P st'
                     | _ => True
                     end).
Context (HsameP : ∀ st st', visited st' = visited st → results st' = results st →
                    (∀ n, on_stack st' n ↔ on_stack st n) → P st → P st').

Lemma sort_nodes_preserves (l : list (NodeID * Node))
    (vis : gmap NodeID bool) (res : list NodeID) :
  size (nodes g) ≤ fuel →
  (∀ n node, (n, node) ∈ l → nodes g !! n = Some node) →
  sort_inv g {| stack := ∅; visited := vis; results := res |} →
  P {| stack := ∅; visited := vis; results := res |} →
  match sort_nodes g dord fuel l vis res with
  | Done res' =>
      ∃ vis', sort_inv g {| stack := ∅; visited := vis'; results := res' |}
              ∧ P {| stack := ∅; visited := vis'; results := res' |}
              ∧ (∀ n, getb vis n = true → getb vis' n = true)
              ∧ (∀ n node, (n, node) ∈ l → getb vis' n = true)
  | _ => True
  end.
Proof using Hd HvisitP HsameP.
  intros Hfuel. revert vis res.
  induction l as [|[n node] l IH]; intros vis res Hl Hinv HP; simpl.
  { exists vis. split; [done|]. split; [done|]. split; [done|].
    by intros n node ?%elem_of_nil. }
  assert (Hrest : ∀ n' node', (n', node') ∈ l → nodes g !! n' = Some node').
  { intros n' node' Hin. apply Hl. by right. }
  destruct (getb vis n) eqn:Ev; simpl.
  - specialize (IH vis res Hrest Hinv HP).
    destruct (sort_nodes g dord fuel l vis res) as [res'| |]; [|done..].
    destruct IH as (vis' & Hinv' & HP' & Hmono & Hall).
    exists vis'. split; [done|]. split; [done|]. split; [done|].
    intros n' node' [[= -> ->]|Hin]%elem_of_cons; [by apply Hmono|by eapply Hall].
  - set (st0 := {| stack := ∅; visited := vis; results := res |}) in *.
    assert (Hpre : visit_pre g fuel n st0).
    { split; [done|]. split; [|split].
      - unfold is_visited, st0. simpl. congruence.
      - intros s Hs. unfold on_stack, st0 in Hs. simpl in Hs.
        by rewrite getb_empty in Hs.
      - etrans; [apply unvisited_le_size|done]. }
    pose proof (visit_spec g dord Hd fuel n node st0
                  (Hl n node ltac:(left)) Hpre) as Hpost.
    pose proof (HvisitP n node st0 (Hl n node ltac:(left)) Hpre HP) as HpostP.
    destruct (visit g dord fuel n (Dependencies node) st0) as [st| |];
      simpl in Hpost; [|done..].
    destruct Hpost as (Hinv1 & [Hext_v Hext_s] & [Hvn _]).
    assert (Hsame : ∀ s, on_stack {| stack := ∅; visited := visited st;
                                     results := results st |} s ↔ on_stack st s).
    { intros s. rewrite Hext_s. unfold on_stack, st0. simpl. done. }
    assert (Hinv1' : sort_inv g {| stack := ∅; visited := visited st;
                                   results := results st |}).
    { by apply (sort_inv_same g st). }
    assert (HP1' : P {| stack := ∅; visited := visited st; results := results st |}).
    { by apply (HsameP st). }
    specialize (IH (visited st) (results st) Hrest Hinv1' HP1').
    destruct (sort_nodes g dord fuel l (visited st) (results st)) as [res'| |]; [|done..].
    destruct IH as (vis' & Hinv' & HP' & Hmono & Hall).
    exists vis'. split; [done|]. split; [done|]. split.
    + intros n' Hn'. apply Hmono. by apply (Hext_v n').
    + intros n' node' [[= -> ->]|Hin]%elem_of_cons; [by apply Hmono|by eapply Hall].
Qed.
End Preserved.

Lemma results_filled_same (g : Graph) (st st' : SortState) :
  visited st' = visited st → results st' = results st →
  (∀ n, on_stack st' n ↔ on_stack st n) →
  results_filled g st → results_filled g st'.
Proof.
  intros Hv Hr Hs (fin & Hfr & Hnd & Hiff & Hfirst).
  exists fin. split; [by rewrite Hr|]. split; [done|]. split; [|done].
  intros n. rewrite Hiff. unfold finished, is_visited. by rewrite Hv, Hs.
Qed.

Section ResultsFilled.
Context (g : Graph) (dord : NodeID → RangeOrder).
Context (Hd : ∀ id, valid_order (dord id)).

Lemma visit_results_filled (fuel : nat) (name : NodeID) (node : Node) (st : SortState) :
  nodes g !! name = Some node →
  visit_pre g fuel name st →
  results_filled g st →
  match visit g dord fuel name (Dependencies node) st with
  | Done st' => results_filled g st'
  | _ => True
  end.
Proof using Hd.
  revert name node st.
  induction fuel as [|fuel IH]; intros name node st Hname Hpre HP; [done|].
  destruct Hpre as (Hinv & Hnew & Hchain & Hfuel).
  pose proof Hinv as (Hsv & Hstored & Hacc & Hres).
  assert (Hin : name ∈ dom (nodes g)) by (apply elem_of_dom; eauto).
  simpl.
  set (st1 := {| stack := <[name := true]> (stack st);
                 visited := <[name := true]> (visited st);
                 results := results st |}).
  assert (Hv1 : ∀ n, is_visited st1 n ↔ n = name ∨ is_visited st n).
  { intros n. unfold is_visited, st1. simpl. rewrite getb_insert.
    destruct (decide (name = n)); naive_solver. }
  assert (Hs1 : ∀ n, on_stack st1 n ↔ n = name ∨ on_stack st n).
  { intros n. unfold on_stack, st1. simpl. rewrite getb_insert.
    destruct (decide (name = n)); naive_solver. }
  assert (Hf1 : ∀ n, finished st1 n ↔ finished st n).
  { intros n. unfold finished. rewrite Hv1, Hs1. naive_solver. }
  assert (Hinv1 : sort_inv g st1).
  { split; [|split; [|split]].
    - intros n. rewrite Hs1, Hv1. naive_solver.
    - intros n. rewrite Hv1. intros [->|?]; auto.
    - intros n. rewrite Hf1. apply Hacc.
    - intros Hne. destruct (Hres Hne) as (fin & ? & ? & Hfin & ?).
      exists fin. split; [done|]. split; [done|]. split; [|done].
      intros n. by rewrite Hf1. }
  assert (Hns : ∀ n, n ∈ dord name (Dependencies node) → depends_on g name n).
  { intros n Hn. apply elem_of_order in Hn; [|done]. by exists node. }
  assert (Hchain1 : ∀ s, on_stack st1 s → rtc (depends_on g) s name).
  { intros s [->|Hs]%Hs1; [done|by apply Hchain]. }
  assert (Hfuel1 : unvisited g st1 ≤ fuel).
  { assert (unvisited g st1 < unvisited g st); [|lia].
    apply (unvisited_mark g st st1 name); auto.
    - intros n Hn. apply Hv1. by right.
    - apply Hv1. by left. }
  assert (HP1 : results_filled g st1).
  { destruct HP as (fin & ? & ? & Hfin & ?).
    exists fin. split; [done|]. split; [done|]. split; [|done].
    intros n. by rewrite Hf1. }
  pose proof (visit_neighbors_spec g fuel (visit g dord fuel)
                (visit_spec g dord Hd fuel)
                name (dord name (Dependencies node)) st1
                Hns Hinv1 Hchain1 Hfuel1) as Hloop.
  pose proof (visit_neighbors_preserves g (results_filled g) fuel (visit g dord fuel)
                (visit_spec g dord Hd fuel) IH
                name (dord name (Dependencies node)) st1
                Hns Hinv1 Hchain1 Hfuel1 HP1) as HloopP.
  destruct (visit_neighbors g (visit g dord fuel) (dord name (Dependencies node)) st1)
    as [st2| |]; [|done..].
  destruct Hloop as ((_ & Hstored2 & _) & [Hext_v Hext_s] & Hfin2).
  destruct HloopP as (fin & Hr & Hnd & Hfin & Hfirst).
  assert (Hstack2 : on_stack st2 name) by (apply Hext_s, Hs1; by left).
  assert (Hf' : ∀ n, finished {| stack := <[name := false]> (stack st2);
                                 visited := visited st2;
                                 results := fill_first_empty name (results st2) |} n
                     ↔ n = name ∨ finished st2 n).
  { intros n. unfold finished, is_visited, on_stack. simpl. rewrite getb_insert.
    destruct (decide (name = n)) as [<-|Hne].
    - split; [by left|]. intros _. split; [|done]. apply Hext_v, Hv1. by left.
    - split; [by right|]. intros [?|?]; [congruence|done]. }
  assert (Hnotin : name ∉ fin).
  { intros [_ Hoff]%Hfin. by apply Hoff. }
  assert (Hlen : length fin < size (nodes g)).
  { apply (length_lt_stored g fin name); auto.
    intros x [Hx _]%Hfin. by apply Hstored2. }
  exists (fin ++ [name]). split; [|split; [|split; [intros n; split|]]].
  - simpl. rewrite Hr, filter_app.
    pose proof (length_filter (λ x, x ≠ EmptyString) fin) as Hle.
    destruct (decide (name = EmptyString)) as [->|Hne].
    + rewrite fill_first_empty_self.
      rewrite (filter_cons _ EmptyString), decide_False by (by intros ?).
      rewrite filter_nil. by rewrite app_nil_r.
    + rewrite (filter_cons _ name), decide_True by done. rewrite filter_nil.
      replace (size (nodes g) - length (filter (λ x, x ≠ EmptyString) fin))
        with (S (size (nodes g)
                 - length (filter (λ x, x ≠ EmptyString) fin ++ [name])))
        by (rewrite length_app; simpl; lia).
      rewrite fill_first_empty_app by apply filter_nonempty_no_empty.
      by rewrite <- app_assoc.
  - apply NoDup_app. split; [done|]. split; [|apply NoDup_singleton].
    intros x Hx ->%list_elem_of_singleton. done.
  - intros [Hx| ->%list_elem_of_singleton]%elem_of_app; apply Hf'.
    + right. by apply Hfin.
    + by left.
  - intros [->|Hx]%Hf'; apply elem_of_app.
    + right. by apply list_elem_of_singleton.
    + left. by apply Hfin.
  - apply dependencies_first_snoc; [done|].
    intros d (node' & Hn' & Hdin). rewrite Hname in Hn'. injection Hn' as <-.
    apply Hfin, Hfin2. by apply elem_of_order.
Qed.
End ResultsFilled.

(** X20. Whenever [Sort] returns an order, the order is a permutation of the
    stored identifiers, and it is a dependencies-first order of the graph
    from which the empty identifier, when stored, has been taken out and put
    into the last slot.  So the order is wrong exactly where a node depends
    on a node with the empty identifier. *)
Theorem Sort_exact (fuel : nat) (gord : RangeOrder) (dord : NodeID → RangeOrder)
    (g : Graph) (l : list NodeID) :
  valid_order gord → (∀ id, valid_order (dord id)) →
  size (nodes g) ≤ fuel →
  (Sort fuel gord dord g).1 = Done l →
  l ≡ₚ elements (dom (nodes g))
  ∧ ∃ fin, fin ≡ₚ elements (dom (nodes g))
           ∧ dependencies_first g fin
           ∧ l = filter (λ x, x ≠ EmptyString) fin
                 ++ (if decide (EmptyString ∈ dom (nodes g)) then [EmptyString] else []).
Proof.
  intros Hg Hd Hfuel. unfold Sort. simpl. intros Hsort.
  pose proof (sort_nodes_preserves g (results_filled g) dord Hd fuel
                (visit_results_filled g dord Hd fuel) (results_filled_same g)
                (range_map gord (nodes g)) ∅
                (replicate (size (nodes g)) EmptyString) Hfuel) as Hspec.
  assert (Hl : ∀ n node, (n, node) ∈ range_map gord (nodes g) → nodes g !! n = Some node).
  { intros n node. by rewrite elem_of_range_map. }
  specialize (Hspec Hl (sort_inv_initial g)).
  assert (Hinit : results_filled g {| stack := ∅; visited := ∅;
                    results := replicate (size (nodes g)) EmptyString |}).
  { exists []. split; [|split; [|split]].
    - simpl. by rewrite Nat.sub_0_r.
    - constructor.
    - intros n. split; [by intros ?%elem_of_nil|]. intros [Hn _].
      unfold is_visited in Hn. simpl in Hn. by rewrite getb_empty in Hn.
    - intros i n d Hi. by rewrite lookup_nil in Hi. }
  specialize (Hspec Hinit). rewrite Hsort in Hspec.
  destruct Hspec as (vis & (_ & Hstored & _) & (fin & Hr & Hnd & Hiff & Hfirst) & _ & Hall).
  simpl in Hr.
  assert (Hperm : fin ≡ₚ elements (dom (nodes g))).
  { apply NoDup_Permutation; [done|apply NoDup_elements|].
    intros n. rewrite elem_of_elements, Hiff. split.
    - intros [Hn _]. by apply Hstored.
    - intros [node Hn]%elem_of_dom. split.
      + apply (Hall n node). by apply elem_of_range_map.
      + unfold on_stack. simpl. by rewrite getb_empty. }
  assert (Hlen : length fin = size (nodes g)).
  { rewrite Hperm. change (size (dom (nodes g)) = size (nodes g)). apply size_dom. }
  assert (Hin : EmptyString ∈ fin ↔ EmptyString ∈ dom (nodes g)).
  { by rewrite Hperm, elem_of_elements. }
  assert (Hl' : l = filter (λ x, x ≠ EmptyString) fin
                    ++ (if decide (EmptyString ∈ dom (nodes g)) then [EmptyString] else [])).
  { rewrite Hr. f_equal. rewrite (length_filter_ne_NoDup EmptyString fin Hnd).
    destruct (decide (EmptyString ∈ dom (nodes g))) as [He|He].
    - rewrite decide_True by by apply Hin.
      assert (0 < length fin).
      { apply Hin in He. destruct fin; [by apply elem_of_nil in He|simpl; lia]. }
      by replace (size (nodes g) - (length fin - 1)) with 1 by lia.
    - rewrite decide_False by (by rewrite Hin).
      by replace (size (nodes g) - length fin) with 0 by lia. }
  split; [|by exists fin].
  rewrite <- Hperm, Hl'. apply NoDup_Permutation; [|done|].
  - apply NoDup_app. split; [by apply NoDup_filter|]. split.
    + intros x [Hx _]%list_elem_of_filter.
      destruct (decide (EmptyString ∈ dom (nodes g)));
        [by intros ->%list_elem_of_singleton|by intros ?%elem_of_nil].
    + destruct (decide (EmptyString ∈ dom (nodes g)));
        [apply NoDup_singleton|constructor].
  - intros x. rewrite elem_of_app, list_elem_of_filter.
    destruct (decide (EmptyString ∈ dom (nodes g))) as [He|He].
    + rewrite list_elem_of_singleton. split.
      * intros [[_ ?]| ->]; [done|by apply Hin].
      * intros Hx. destruct (decide (x = EmptyString)); [by right|by left].
    + split.
      * intros [[_ ?]|?%elem_of_nil]; done.
      * intros Hx. left. split; [|done]. intros ->. by apply He, Hin.
Qed.

Lemma Sort_exact_witness :
  valid_order fixed_order ∧ size (nodes empty_id_graph) ≤ 2
  ∧ (Sort 2 fixed_order (λ _, fixed_order) empty_id_graph).1 = Done ["a"; ""]
  ∧ ["a"; ""] ≡ₚ elements (dom (nodes empty_id_graph)).
Proof.
  assert (Hsize : size (nodes empty_id_graph) ≤ 2) by (vm_compute; lia).
  assert (Hsort : (Sort 2 fixed_order (λ _, fixed_order) empty_id_graph).1
                  = Done ["a"; ""]) by (vm_compute; reflexivity).
  split; [exact valid_order_elements|]. split; [exact Hsize|]. split; [exact Hsort|].
  exact (proj1 (Sort_exact 2 fixed_order (λ _, fixed_order) empty_id_graph _
                  valid_order_elements (λ _, valid_order_elements) Hsize Hsort)).
Defined.

Lemma run_each_called_fn (peg : ParallelizedExecutableGraph)
    (rec : NodeID → run_outcome) (ts : list NodeID) (u : unit) (tr : list event) :
  (∀ t u' tr', rec t = Returned u' tr' →
     ∀ n r, (n, r) ∈ tr' → ∃ exn f, peg_nodes peg !! n = Some exn ∧ fn exn = Some f
                                     ∧ r = f n) →
  run_each rec ts = Returned u tr →
  ∀ n r, (n, r) ∈ tr → ∃ exn f, peg_nodes peg !! n = Some exn ∧ fn exn = Some f
                                 ∧ r = f n.
Proof.
  intros Hrec. revert u tr. induction ts as [|t ts IH]; intros u tr; simpl.
  - intros [= <- <-] n r Hin. by apply elem_of_nil in Hin.
  - destruct (rec t) as [u1 tr1| | |] eqn:E1; try done.
    destruct (run_each rec ts) as [u2 tr2| | |] eqn:E2; try done.
    intros [= <- <-] n r [Hin|Hin]%elem_of_app.
    + by apply (Hrec t u1 tr1).
    + by apply (IH u2 tr2).
Qed.

Lemma runNode_called_fn (tord : list NodeID → RangeOrder)
    (peg : ParallelizedExecutableGraph) (fuel : nat) (path : list NodeID)
    (id : NodeID) (u : unit) (tr : list event) :
  runNode fuel tord peg path id = Returned u tr →
  ∀ n r, (n, r) ∈ tr → ∃ exn f, peg_nodes peg !! n = Some exn ∧ fn exn = Some f
                                 ∧ r = f n.
Proof.
  revert path id u tr. induction fuel as [|fuel IH]; intros path id u tr; [done|].
  intros (fuel' & node & f & tr' & [= <-] & Hn & Hf & Hrun & ->)%runNode_Returned.
  intros n r [[= -> ->]|Hin]%elem_of_cons; [by eauto|].
  apply (run_each_called_fn peg _ _ _ _ (λ t u' tr', IH _ t u' tr') Hrun n r Hin).
Qed.

(** X22. When some stored node of a graph built by [Add] has no work
    function, [run] on the compiled plan does not return: it panics calling
    the nil work function of a stored node. *)
Theorem run_nil_work_function (gord pord : RangeOrder) (dord : NodeID → RangeOrder)
    (tord : list NodeID → RangeOrder) (g : Graph) (fuel : nat)
    (n : NodeID) (node : Node) :
  built g →
  valid_order gord → (∀ id, valid_order (dord id)) →
  valid_order pord → (∀ p, valid_order (tord p)) →
  size (nodes g) ≤ fuel →
  nodes g !! n = Some node → Fn node = None →
  ∃ x nodex, run fuel pord tord (CompileToExecutable gord dord g).1 = NilFn x
             ∧ nodes g !! x = Some nodex ∧ Fn nodex = None.
Proof.
  intros Hb Hg Hd Hp Ht Hfuel Hn Hnil.
  destruct (built_ranked g Hb) as (rank & Hlt & Hedge).
  set (peg := (CompileToExecutable gord dord g).1).
  assert (Hstored : ∀ k, is_Some (peg_nodes peg !! k) → k ∈ dom (nodes g)).
  { intros k. apply compile_keys_stored; auto. intros a b Hdep.
    by destruct (Hedge a b Hdep). }
  assert (ends (run fuel pord tord peg)) as [[tr Hrun]|[x Hx]].
  { apply run_each_ends. intros t Hin.
    apply (runNode_ends gord dord tord g rank); auto; [|lia].
    apply Hstored. apply elem_of_RootIds in Hin as (exn & ? & _); eauto. }
  - exfalso.
    destruct (built_run_called gord pord dord tord g fuel tt tr n Hb Hg Hd Hp Ht Hrun)
      as (j & r & Hj); [apply elem_of_dom; eauto|].
    apply list_elem_of_lookup_2 in Hj.
    assert (∃ exn f, peg_nodes peg !! n = Some exn ∧ fn exn = Some f ∧ r = f n)
      as (exn & f & Hexn & Hf & _).
    { apply (run_each_called_fn peg _ _ _ _
               (λ t u' tr', runNode_called_fn tord peg fuel [] t u' tr') Hrun n r Hj). }
    destruct (lookup_compile_stored gord dord g n node Hg Hd Hn)
      as (exn' & Hexn' & _ & _ & Hfn').
    fold peg in Hexn'. rewrite Hexn in Hexn'. injection Hexn' as <-. congruence.
  - exists x. pose proof Hx as Hx'.
    apply run_each_NilFn in Hx' as (t & _ & Hx').
    apply runNode_NilFn in Hx' as (exn & Hexn & Hfnx).
    assert (x ∈ dom (nodes g)) as [nodex Hnx]%elem_of_dom by (apply Hstored; eauto).
    exists nodex. split; [done|]. split; [done|].
    destruct (lookup_compile_stored gord dord g x nodex Hg Hd Hnx)
      as (exn' & Hexn' & _ & _ & Hfn').
    fold peg in Hexn'. rewrite Hexn in Hexn'. injection Hexn' as <-. congruence.
Qed.

Lemma built_nil_fn_graph : built (add_all elements [NewNode "n" ∅ None] (NewGraph "g")).
Proof. apply built_add_all; [apply valid_order_elements|constructor]. Qed.

Lemma run_nil_work_function_witness :
  built (add_all elements [NewNode "n" ∅ None] (NewGraph "g"))
  ∧ valid_order fixed_order
  ∧ size (nodes (add_all elements [NewNode "n" ∅ None] (NewGraph "g"))) ≤ 1
  ∧ nodes (add_all elements [NewNode "n" ∅ None] (NewGraph "g")) !! "n"
    = Some (NewNode "n" ∅ None)
  ∧ ∃ x nodex,
      run 1 fixed_order (λ _, fixed_order)
        (CompileToExecutable fixed_order (λ _, fixed_order)
           (add_all elements [NewNode "n" ∅ None] (NewGraph "g"))).1 = NilFn x
      ∧ nodes (add_all elements [NewNode "n" ∅ None] (NewGraph "g")) !! x = Some nodex
      ∧ Fn nodex = None.
Proof.
  assert (Hsize : size (nodes (add_all elements [NewNode "n" ∅ None] (NewGraph "g"))) ≤ 1)
    by (vm_compute; lia).
  assert (Hn : nodes (add_all elements [NewNode "n" ∅ None] (NewGraph "g")) !! "n"
               = Some (NewNode "n" ∅ None)) by reflexivity.
  split; [exact built_nil_fn_graph|]. split; [exact valid_order_elements|].
  split; [exact Hsize|]. split; [exact Hn|].
  exact (run_nil_work_function fixed_order fixed_order (λ _, fixed_order)
           (λ _, fixed_order) _ 1 "n" (NewNode "n" ∅ None) built_nil_fn_graph
           valid_order_elements (λ _, valid_order_elements)
           valid_order_elements (λ _, valid_order_elements) Hsize Hn eq_refl).
Defined.

Lemma run_built_returns_witness :
  built diamond ∧ valid_order fixed_order
  ∧ (∀ id node, nodes diamond !! id = Some node → is_Some (Fn node))
  ∧ size (nodes diamond) ≤ 3
  ∧ ∃ tr, run 3 fixed_order (λ _, fixed_order) diamond_plan = Returned tt tr.
Proof.
  assert (Hsize : size (nodes diamond) ≤ 3) by (vm_compute; lia).
  assert (Hfn : ∀ id node, nodes diamond !! id = Some node → is_Some (Fn node)).
  { intros id node.
    change (nodes diamond) with
      (<["C" := node_C]> (<["E" := NewNode "E" ∅ (Some succeed)]>
       (<["A" := NewNode "A" ∅ (Some succeed)]> (∅ : gmap NodeID Node)))).
    intros Hn.
    rewrite lookup_insert in Hn. destruct (decide ("C" = id)).
    { injection Hn as <-. simpl. eauto. }
    rewrite lookup_insert in Hn. destruct (decide ("E" = id)).
    { injection Hn as <-. simpl. eauto. }
    rewrite lookup_insert in Hn. destruct (decide ("A" = id)).
    { injection Hn as <-. simpl. eauto. }
    by rewrite lookup_empty in Hn. }
  split; [exact built_diamond|]. split; [exact valid_order_elements|].
  split; [exact Hfn|]. split; [exact Hsize|].
  exact (run_built_returns fixed_order fixed_order (λ _, fixed_order)
           (λ _, fixed_order) diamond 3 built_diamond
           valid_order_elements (λ _, valid_order_elements)
           valid_order_elements (λ _, valid_order_elements) Hfn Hsize).
Defined.

(** ** Where Sort raises the cycle error *)

(** The message of the cycle error determines the node it names. *)
Lemma CycleDetected_inj (n n' : NodeID) :
  CycleDetected n = CycleDetected n' → n = n'.
Proof. unfold CycleDetected. simpl. by intros [= E]. Qed.

Lemma visit_neighbors_at_erase (g : Graph) (name : NodeID)
    (rec_at : NodeID → NodeIDs → SortState → traced SortState)
    (rec : NodeID → NodeIDs → SortState → outcome SortState)
    (ns : list NodeID) (st : SortState) :
  (∀ n nb st, erase (rec_at n nb st) = rec n nb st) →
  erase (visit_neighbors_at g name rec_at ns st) = visit_neighbors g rec ns st.
Proof.
  intros Hrec. revert st. induction ns as [|n ns IH]; intros st; simpl; [done|].
  destruct (negb (getb (visited st) n)).
  - destruct (nodes g !! n) as [node|]; [|done].
    rewrite <- (Hrec n (Dependencies node) st).
    destruct (rec_at n (Dependencies node) st); simpl; [apply IH|done..].
  - destruct (getb (stack st) n); [done|apply IH].
Qed.

Lemma visit_at_erase (g : Graph) (dord : NodeID → RangeOrder) (fuel : nat)
    (name : NodeID) (nb : NodeIDs) (st : SortState) :
  erase (visit_at g dord fuel name nb st) = visit g dord fuel name nb st.
Proof.
  revert name nb st. induction fuel as [|fuel IH]; intros name nb st; [done|].
  simpl. rewrite <- (visit_neighbors_at_erase g name (visit_at g dord fuel)
                       (visit g dord fuel) _ _ IH).
  by destruct (visit_neighbors_at _ _ _ _ _).
Qed.

Lemma sort_nodes_at_erase (g : Graph) (dord : NodeID → RangeOrder) (fuel : nat)
    (l : list (NodeID * Node)) (vis : gmap NodeID bool) (res : list NodeID) :
  erase (sort_nodes_at g dord fuel l vis res) = sort_nodes g dord fuel l vis res.
Proof.
  revert vis res. induction l as [|[n node] l IH]; intros vis res; simpl; [done|].
  destruct (negb (getb vis n)); [|apply IH].
  rewrite <- (visit_at_erase g dord fuel n (Dependencies node)).
  destruct (visit_at g dord fuel n (Dependencies node) _); simpl; [apply IH|done..].
Qed.

Lemma Sort_at_erase (fuel : nat) (gord : RangeOrder) (dord : NodeID → RangeOrder)
    (g : Graph) :
  erase (Sort_at fuel gord dord g) = (Sort fuel gord dord g).1.
Proof. apply sort_nodes_at_erase. Qed.

Section RaisedAt.
Context (g : Graph).

Section Loop.
Context (fuel : nat) (rec_at : NodeID → NodeIDs → SortState → traced SortState).
Context (Hrec : ∀ n node st, nodes g !! n = Some node → visit_pre g fuel n st →
                  visit_post g n st (erase (rec_at n (Dependencies node) st))).
Context (HrecS : ∀ n node st, nodes g !! n = Some node → visit_pre g fuel n st →
                   match rec_at n (Dependencies node) st with
                   | TFail e m st' => raised_at g e m st'
                   | _ => True
                   end).

Lemma visit_neighbors_at_raised (name : NodeID) (ns : list NodeID) (st : SortState) :
  (∀ n, n ∈ ns → depends_on g name n) →
  sort_inv g st →
  on_stack st name →
  (∀ s, on_stack st s → rtc (depends_on g) s name) →
  unvisited g st ≤ fuel →
  match visit_neighbors_at g name rec_at ns st with
  | TFail e m st' => raised_at g e m st'
  | _ => True
  end.
Proof using Hrec HrecS.
  revert st. induction ns as [|n ns IH];
    intros st Hns Hinv Hname Hchain Hfuel; simpl; [done|].
  assert (Hn : depends_on g name n) by (apply Hns; left).
  assert (Hrest : ∀ n', n' ∈ ns → depends_on g name n')
    by (intros n' ?; apply Hns; by right).
  destruct (getb (visited st) n) eqn:Ev; simpl.
  - destruct (getb (stack st) n) eqn:Es; [|by apply IH].
    left. exists n. split; [done|]. split; [done|]. split; [done|]. by split.
  - destruct (nodes g !! n) as [node|] eqn:En.
    + assert (Hpre : visit_pre g fuel n st).
      { split; [done|]. split; [unfold is_visited; congruence|]. split; [|done].
        intros s Hs. eapply rtc_r; [by apply Hchain|done]. }
      pose proof (Hrec n node st En Hpre) as Hpost.
      pose proof (HrecS n node st En Hpre) as HpostS.
      destruct (rec_at n (Dependencies node) st) as [st1|e m st1|];
        simpl in Hpost; [|done..].
      destruct Hpost as (Hinv1 & Hext1 & _).
      apply IH; [done|done| | |].
      * by apply Hext1.
      * intros s Hs. apply Hchain. by apply Hext1.
      * etrans; [apply (unvisited_extends g st), Hext1|done].
    + right. exists n. split; [done|]. split; [by apply not_elem_of_dom|done].
Qed.
End Loop.

Context (dord : NodeID → RangeOrder) (Hd : ∀ id, valid_order (dord id)).

Lemma visit_at_raised (fuel : nat) (name : NodeID) (node : Node) (st : SortState) :
  nodes g !! name = Some node →
  visit_pre g fuel name st →
  match visit_at g dord fuel name (Dependencies node) st with
  | TFail e m st' => raised_at g e m st'
  | _ => True
  end.
Proof using Hd.
  revert name node st.
  induction fuel as [|fuel IH]; intros name node st Hname Hpre; [done|].
  destruct Hpre as (Hinv & Hnew & Hchain & Hfuel).
  pose proof Hinv as (Hsv & Hstored & Hacc & Hres).
  assert (Hin : name ∈ dom (nodes g)) by (apply elem_of_dom; eauto).
  simpl.
  set (st1 := {| stack := <[name := true]> (stack st);
                 visited := <[name := true]> (visited st);
                 results := results st |}).
  assert (Hv1 : ∀ n, is_visited st1 n ↔ n = name ∨ is_visited st n).
  { intros n. unfold is_visited, st1. simpl. rewrite getb_insert.
    destruct (decide (name = n)); naive_solver. }
  assert (Hs1 : ∀ n, on_stack st1 n ↔ n = name ∨ on_stack st n).
  { intros n. unfold on_stack, st1. simpl. rewrite getb_insert.
    destruct (decide (name = n)); naive_solver. }
  assert (Hf1 : ∀ n, finished st1 n ↔ finished st n).
  { intros n. unfold finished. rewrite Hv1, Hs1. naive_solver. }
  assert (Hinv1 : sort_inv g st1).
  { split; [|split; [|split]].
    - intros n. rewrite Hs1, Hv1. naive_solver.
    - intros n. rewrite Hv1. intros [->|?]; auto.
    - intros n. rewrite Hf1. apply Hacc.
    - intros Hne. destruct (Hres Hne) as (fin & ? & ? & Hfin & ?).
      exists fin. split; [done|]. split; [done|]. split; [|done].
      intros n. by rewrite Hf1. }
  assert (Hns : ∀ n, n ∈ dord name (Dependencies node) → depends_on g name n).
  { intros n Hn. apply elem_of_order in Hn; [|done]. by exists node. }
  assert (Hchain1 : ∀ s, on_stack st1 s → rtc (depends_on g) s name).
  { intros s [->|Hs]%Hs1; [done|by apply Hchain]. }
  assert (Hfuel1 : unvisited g st1 ≤ fuel).
  { assert (unvisited g st1 < unvisited g st); [|lia].
    apply (unvisited_mark g st st1 name); auto.
    - intros n Hn. apply Hv1. by right.
    - apply Hv1. by left. }
  assert (Hrec : ∀ n node' st', nodes g !! n = Some node' → visit_pre g fuel n st' →
                   visit_post g n st' (erase (visit_at g dord fuel n (Dependencies node') st'))).
  { intros n node' st' Hn' Hpre'. rewrite visit_at_erase. by apply visit_spec. }
  pose proof (visit_neighbors_at_raised fuel (visit_at g dord fuel) Hrec IH
                name (dord name (Dependencies node)) st1
                Hns Hinv1 (proj2 (Hs1 name) (or_introl eq_refl)) Hchain1 Hfuel1) as Hloop.
  by destruct (visit_neighbors_at g name (visit_at g dord fuel) _ st1).
Qed.

Lemma sort_nodes_at_raised (fuel : nat) (l : list (NodeID * Node))
    (vis : gmap NodeID bool) (res : list NodeID) :
  size (nodes g) ≤ fuel →
  (∀ n node, (n, node) ∈ l → nodes g !! n = Some node) →
  sort_inv g {| stack := ∅; visited := vis; results := res |} →
  match sort_nodes_at g dord fuel l vis res with
  | TFail e m st' => raised_at g e m st'
  | _ => True
  end.
Proof using Hd.
  intros Hfuel. revert vis res.
  induction l as [|[n node] l IH]; intros vis res Hl Hinv; simpl; [done|].
  assert (Hrest : ∀ n' node', (n', node') ∈ l → nodes g !! n' = Some node').
  { intros n' node' Hin. apply Hl. by right. }
  destruct (getb vis n) eqn:Ev; simpl; [by apply IH|].
  set (st0 := {| stack := ∅; visited := vis; results := res |}) in *.
  assert (Hpre : visit_pre g fuel n st0).
  { split; [done|]. split; [|split].
    - unfold is_visited, st0. simpl. congruence.
    - intros s Hs. unfold on_stack, st0 in Hs. simpl in Hs.
      by rewrite getb_empty in Hs.
    - etrans; [apply unvisited_le_size|done]. }
  pose proof (visit_spec g dord Hd fuel n node st0 (Hl n node ltac:(left)) Hpre) as Hpost.
  pose proof (visit_at_raised fuel n node st0 (Hl n node ltac:(left)) Hpre) as HpostS.
  rewrite <- visit_at_erase in Hpost.
  destruct (visit_at g dord fuel n (Dependencies node) st0) as [st|e m st|];
    simpl in Hpost; [|done..].
  destruct Hpost as (Hinv1 & [Hext_v Hext_s] & _).
  apply IH; [done|]. apply (sort_inv_same g st); [done..| |done].
  intros s. rewrite Hext_s. unfold on_stack, st0. simpl. done.
Qed.
End RaisedAt.

(** C4 (amended). On a graph that stores every dependency its nodes declare
    and that has a cycle, [Sort], with fuel for one nested call per node,
    returns no order but the error [CycleDetected n], and [n] is the on-stack
    ancestor at which the back-edge was found: the error is raised in the
    visit of a node [m] that declares [n] as a dependency, while [n] is on
    [stack], the nodes on [stack] being [m] and its ancestors.  So [n] lies
    on a cycle. *)
Theorem Sort_detects_cycle (fuel : nat) (gord : RangeOrder)
    (dord : NodeID → RangeOrder) (g : Graph) :
  valid_order gord → (∀ id, valid_order (dord id)) →
  size (nodes g) ≤ fuel →
  closed g → cyclic g →
  ∃ n m st,
    (Sort fuel gord dord g).1 = Fail (CycleDetected n)
    ∧ Sort_at fuel gord dord g = TFail (CycleDetected n) m st
    ∧ back_edge_at g n m st
    ∧ tc (depends_on g) n n.
Proof.
  intros Hg Hd Hfuel Hclosed [c Hc].
  pose proof (Sort_outcome fuel gord dord g Hg Hd Hfuel) as Hpost.
  pose proof (sort_nodes_at_raised g dord Hd fuel (range_map gord (nodes g)) ∅
                (replicate (size (nodes g)) EmptyString) Hfuel) as Hsite.
  assert (Hl : ∀ n node, (n, node) ∈ range_map gord (nodes g) → nodes g !! n = Some node).
  { intros n node. by rewrite elem_of_range_map. }
  specialize (Hsite Hl (sort_inv_initial g)).
  rewrite <- Sort_at_erase in *. fold (Sort_at fuel gord dord g) in Hsite.
  destruct (Sort_at fuel gord dord g) as [l|e m st|]; simpl in Hpost; [| |done].
  - exfalso. destruct Hpost as [Hacc _].
    assert (c ∈ dom (nodes g)) as Hin.
    { inversion Hc as [? ? (node & Hn & _)|? ? ? (node & Hn & _) _]; subst;
        apply elem_of_dom; eauto. }
    by apply (Acc_no_cycle (depends_on g) c (Hacc c Hin) c).
  - destruct Hsite as [(n & -> & Hedge)|(n & -> & Hnot & Hm)].
    + exists n, m, st. split; [done|]. split; [done|]. split; [done|].
      destruct Hedge as (Hdep & Hn & _ & Hchain).
      eapply tc_rtc_l; [by apply Hchain|]. by apply tc_once.
    + exfalso. apply Hnot. by apply (Hclosed m).
Qed.

Lemma Sort_detects_cycle_witness :
  valid_order fixed_order ∧ size (nodes cycle3) ≤ 3 ∧ closed cycle3 ∧ cyclic cycle3
  ∧ ∃ n m st,
      (Sort 3 fixed_order (λ _, fixed_order) cycle3).1 = Fail (CycleDetected n)
      ∧ Sort_at 3 fixed_order (λ _, fixed_order) cycle3 = TFail (CycleDetected n) m st
      ∧ back_edge_at cycle3 n m st
      ∧ tc (depends_on cycle3) n n.
Proof.
  assert (Hsize : size (nodes cycle3) ≤ 3) by (vm_compute; lia).
  split; [exact valid_order_elements|]. split; [exact Hsize|].
  split; [exact closed_cycle3|]. split; [exact cyclic_cycle3|].
  exact (Sort_detects_cycle 3 fixed_order (λ _, fixed_order) cycle3
           valid_order_elements (λ _, valid_order_elements) Hsize
           closed_cycle3 cyclic_cycle3).
Defined.

(** On [two_cycles] the error names a node of the cycle that the traversal
    entered, and which one that is depends on the order of the range over
    the graph. *)
Lemma Sort_two_cycles :
  (∃ st, Sort_at 4 fixed_order (λ _, fixed_order) two_cycles
         = TFail (CycleDetected "Y") "X" st)
  ∧ (∃ st, Sort_at 4 reverse_order (λ _, fixed_order) two_cycles
           = TFail (CycleDetected "P") "Q" st).
Proof. split; eexists; vm_compute; reflexivity. Qed.

(** ** The heap: what Sort and CompileToExecutable leave of the graph *)

Lemma framed_refl (h : heap) : framed h h.
Proof. split; [done|]. intros l c Hnone Hsome. congruence. Qed.

Lemma framed_insert (h0 h : heap) (l : nat) (c : cell) :
  framed h0 h → h0 !! l = None → cell_own h0 c → framed h0 (<[l := c]> h).
Proof.
  intros [Hsub Hown] Hl Hc. split.
  - by apply insert_subseteq_r.
  - intros l' c' Hl'. destruct (decide (l = l')) as [->|Hne].
    + rewrite lookup_insert_eq. by intros [= <-].
    + rewrite lookup_insert_ne by done. by apply Hown.
Qed.

Lemma framed_fresh (h0 h : heap) : framed h0 h → h0 !! fresh (dom h) = None.
Proof.
  intros [Hsub _]. apply not_elem_of_dom. intros Hin.
  apply (is_fresh (dom h)). by apply (subseteq_dom h0 h).
Qed.

Section Keeps.
Context (h0 : heap).

Lemma keeps_ret {A : Type} (a : A) (Q : A → Prop) : Q a → keeps h0 (mret a) Q.
Proof. intros HQ h Hh. split; [done|]. by intros a' [= <-]. Qed.

Lemma keeps_bind {A B : Type} (m : Mem A) (f : A → Mem B) (Q : A → Prop) (R : B → Prop) :
  keeps h0 m Q → (∀ a, Q a → keeps h0 (f a) R) → keeps h0 (m ≫= f) R.
Proof.
  intros Hm Hf h Hh. destruct (Hm h Hh) as [Hh' HQ].
  unfold mbind, Mem_bind. destruct (m h) as [[a| |] h'] eqn:E; simpl in *; [|done..].
  by apply Hf; [apply HQ|].
Qed.

Lemma keeps_weaken {A : Type} (m : Mem A) (Q R : A → Prop) :
  keeps h0 m Q → (∀ a, Q a → R a) → keeps h0 m R.
Proof. intros Hm HQR h Hh. destruct (Hm h Hh) as [? HQ]. split; [done|]. eauto. Qed.

Lemma keeps_panic {A : Type} (Q : A → Prop) : keeps h0 panic Q.
Proof. by intros h Hh. Qed.

Lemma keeps_out_of_fuel {A : Type} (Q : A → Prop) : keeps h0 out_of_fuel Q.
Proof. by intros h Hh. Qed.

Lemma keeps_load (p : ptr) : keeps h0 (load p) (λ c, own h0 p → cell_own h0 c).
Proof.
  intros h Hh. unfold load. destruct p as [l|]; simpl; [|done].
  destruct (h !! l) as [c|] eqn:E; simpl; [|done].
  split; [done|]. intros c' [= <-] Hp. destruct Hh as [_ Hown].
  by apply (Hown l c); [apply Hp|].
Qed.

Lemma keeps_store (p : ptr) (c : cell) :
  own h0 p → cell_own h0 c → keeps h0 (store p c) (λ _, True).
Proof.
  intros Hp Hc h Hh. unfold store. destruct p as [l|]; simpl; [|done].
  split; [|done]. apply framed_insert; auto.
Qed.

Lemma keeps_alloc (c : cell) :
  cell_own h0 c → keeps h0 (alloc c) (λ p, p ≠ None ∧ own h0 p).
Proof.
  intros Hc h Hh. unfold alloc. simpl. split.
  - apply framed_insert; [done| |done]. by apply framed_fresh.
  - intros p [= <-]. split; [done|]. intros l [= <-]. by apply framed_fresh.
Qed.

Lemma keeps_Graph_name (g : ptr) : keeps h0 (Graph_name g) (λ _, True).
Proof.
  eapply keeps_bind; [apply keeps_load|]. intros c _.
  destruct c; first [by apply keeps_ret | apply keeps_panic].
Qed.

Lemma keeps_Graph_nodes (g : ptr) : keeps h0 (Graph_nodes g) (λ _, True).
Proof.
  eapply keeps_bind; [apply keeps_load|]. intros c _.
  destruct c; first [by apply keeps_ret | apply keeps_panic].
Qed.

Lemma keeps_Node_Fn (n : ptr) : keeps h0 (Node_Fn n) (λ _, True).
Proof.
  eapply keeps_bind; [apply keeps_load|]. intros c _.
  destruct c; first [by apply keeps_ret | apply keeps_panic].
Qed.

Lemma keeps_Node_Dependencies (n : ptr) : keeps h0 (Node_Dependencies n) (λ _, True).
Proof.
  eapply keeps_bind; [apply keeps_load|]. intros c _.
  destruct c; first [by apply keeps_ret | apply keeps_panic].
Qed.

Lemma keeps_read_Nodes (m : ptr) : keeps h0 (read_Nodes m) (λ _, True).
Proof.
  destruct m as [l|]; [|by apply keeps_ret].
  eapply keeps_bind; [apply keeps_load|]. intros c _.
  destruct c; first [by apply keeps_ret | apply keeps_panic].
Qed.

Lemma keeps_read_NodeIDs (m : ptr) : keeps h0 (read_NodeIDs m) (λ _, True).
Proof.
  destruct m as [l|]; [|by apply keeps_ret].
  eapply keeps_bind; [apply keeps_load|]. intros c _.
  destruct c; first [by apply keeps_ret | apply keeps_panic].
Qed.

Lemma keeps_read_bools (m : ptr) : keeps h0 (read_bools m) (λ _, True).
Proof.
  destruct m as [l|]; [|by apply keeps_ret].
  eapply keeps_bind; [apply keeps_load|]. intros c _.
  destruct c; first [by apply keeps_ret | apply keeps_panic].
Qed.

Lemma keeps_read_slice (s : ptr) : keeps h0 (read_slice s) (λ _, True).
Proof.
  destruct s as [l|]; [|by apply keeps_ret].
  eapply keeps_bind; [apply keeps_load|]. intros c _.
  destruct c; first [by apply keeps_ret | apply keeps_panic].
Qed.

Lemma keeps_read_execs (en : ptr) :
  own h0 en → keeps h0 (read_execs en) (λ m, ∀ k q, m !! k = Some q → own h0 q).
Proof.
  intros Hen. destruct en as [l|]; [|by apply keeps_ret].
  eapply keeps_bind; [apply keeps_load|]. intros c Hc.
  destruct c; try apply keeps_panic. apply keeps_ret. by apply Hc.
Qed.

Lemma keeps_get_bool (m : ptr) (k : NodeID) : keeps h0 (get_bool m k) (λ _, True).
Proof.
  eapply keeps_bind; [apply keeps_read_bools|]. intros x _. by apply keeps_ret.
Qed.

Lemma keeps_set_bool (m : ptr) (k : NodeID) (b : bool) :
  own h0 m → keeps h0 (set_bool m k b) (λ _, True).
Proof.
  intros Hm. eapply keeps_bind; [apply keeps_read_bools|]. intros x _.
  by apply keeps_store.
Qed.

Lemma keeps_Graph_node (g : ptr) (n : NodeID) : keeps h0 (Graph_node g n) (λ _, True).
Proof.
  eapply keeps_bind; [apply keeps_Graph_nodes|]. intros ns _.
  eapply keeps_bind; [apply keeps_read_Nodes|]. intros m _. by apply keeps_ret.
Qed.

(** [visit] writes to [stack], [visited] and [results] only. *)
Section SortKeeps.
Context (dord : NodeID → RangeOrder) (g stack visited results : ptr).
Context (Hstack : own h0 stack) (Hvisited : own h0 visited) (Hresults : own h0 results).

Lemma keeps_visit_neighbors_mem (rec : NodeID → ptr → Mem (option error))
    (ns : list NodeID) :
  (∀ n deps, keeps h0 (rec n deps) (λ _, True)) →
  keeps h0 (visit_neighbors_mem g stack visited rec ns) (λ _, True).
Proof.
  intros Hrec. induction ns as [|n ns IH]; simpl; [by apply keeps_ret|].
  eapply keeps_bind; [apply keeps_get_bool|]. intros v _.
  destruct (negb v).
  - eapply keeps_bind; [apply keeps_Graph_node|]. intros [p|] _; [|by apply keeps_ret].
    eapply keeps_bind; [apply keeps_Graph_node|]. intros node _.
    eapply keeps_bind; [apply keeps_Node_Dependencies|]. intros deps _.
    eapply keeps_bind; [apply Hrec|]. intros [e|] _; [by apply keeps_ret|done].
  - eapply keeps_bind; [apply keeps_get_bool|]. intros [|] _; [by apply keeps_ret|done].
Qed.

Lemma keeps_visit_mem (fuel : nat) (name : NodeID) (neighbors : ptr) :
  keeps h0 (visit_mem dord g stack visited results fuel name neighbors) (λ _, True).
Proof using Hstack Hvisited Hresults.
  revert name neighbors. induction fuel as [|fuel IH]; intros name neighbors; simpl.
  { apply keeps_out_of_fuel. }
  eapply keeps_bind; [by apply keeps_set_bool|]. intros _ _.
  eapply keeps_bind; [by apply keeps_set_bool|]. intros _ _.
  eapply keeps_bind; [apply keeps_read_NodeIDs|]. intros ns _.
  eapply keeps_bind; [by apply keeps_visit_neighbors_mem|].
  intros [e|] _; [by apply keeps_ret|].
  eapply keeps_bind; [apply keeps_read_slice|]. intros a _.
  eapply keeps_bind.
  { destruct (decide (EmptyString ∈ a)); [by apply keeps_store|by apply keeps_ret]. }
  intros _ _.
  eapply keeps_bind; [by apply keeps_set_bool|]. intros _ _.
  by apply keeps_ret.
Qed.
End SortKeeps.

Lemma keeps_sort_nodes_mem (fuel : nat) (dord : NodeID → RangeOrder)
    (g visited results : ptr) (l : list (NodeID * ptr)) :
  own h0 visited → own h0 results →
  keeps h0 (sort_nodes_mem fuel dord g visited results l) (λ _, True).
Proof.
  intros Hvisited Hresults. induction l as [|[n node] l IH]; simpl; [by apply keeps_ret|].
  eapply keeps_bind; [apply keeps_get_bool|]. intros v _.
  destruct (negb v); [|done].
  eapply keeps_bind; [by apply keeps_alloc|]. intros stack [_ Hstack].
  eapply keeps_bind; [apply keeps_Node_Dependencies|]. intros deps _.
  eapply keeps_bind; [by apply keeps_visit_mem|].
  intros [e|] _; [by apply keeps_ret|done].
Qed.

Lemma keeps_Sort_mem (fuel : nat) (gord : RangeOrder) (dord : NodeID → RangeOrder)
    (g : ptr) :
  keeps h0 (Sort_mem fuel gord dord g) (λ _, True).
Proof.
  eapply keeps_bind; [by apply keeps_alloc|]. intros visited [_ Hvisited].
  eapply keeps_bind; [apply keeps_Graph_nodes|]. intros ns _.
  eapply keeps_bind; [apply keeps_read_Nodes|]. intros m _.
  eapply keeps_bind; [by apply keeps_alloc|]. intros results [_ Hresults].
  eapply keeps_bind; [apply keeps_Graph_nodes|]. intros ns' _.
  eapply keeps_bind; [apply keeps_read_Nodes|]. intros m' _.
  by apply keeps_sort_nodes_mem.
Qed.

(** The plan under construction: the map [nodes], the nodes it points to and
    their [targetIDs] maps were all allocated by [CompileToExecutable]. *)
Lemma keeps_GetOrCreate_mem (en : ptr) (id : NodeID) :
  own h0 en → keeps h0 (GetOrCreate_mem en id) (own h0).
Proof.
  intros Hen. eapply keeps_bind; [by apply keeps_read_execs|]. intros m Hm.
  destruct (m !! id) as [n|] eqn:E; [apply keeps_ret; eauto|].
  eapply keeps_bind; [by apply keeps_alloc|]. intros n [_ Hn].
  eapply keeps_bind; [by apply keeps_read_execs|]. intros m' Hm'.
  eapply keeps_bind; [|intros _ _; by apply keeps_ret].
  apply keeps_store; [done|]. intros k q. simpl.
  destruct (decide (id = k)) as [->|Hne].
  - rewrite lookup_insert_eq. by intros [= <-].
  - rewrite lookup_insert_ne by done. apply Hm'.
Qed.

Lemma keeps_add_ids_mem (targets : ptr) (nodeIds : list NodeID) :
  own h0 targets → keeps h0 (add_ids_mem targets nodeIds) (λ _, True).
Proof.
  intros Ht. induction nodeIds as [|id rest IH]; simpl; [by apply keeps_ret|].
  eapply keeps_bind; [apply keeps_read_NodeIDs|]. intros s _.
  eapply keeps_bind; [by apply keeps_store|]. by intros _ _.
Qed.

Lemma keeps_AddTargets_mem (exn : ptr) (nodeIds : list NodeID) :
  own h0 exn → keeps h0 (AddTargets_mem exn nodeIds) (λ _, True).
Proof.
  intros Hexn. eapply keeps_bind; [apply keeps_load|]. intros c Hc.
  destruct c as [| | | | | | |t req f|]; try apply keeps_panic.
  specialize (Hc Hexn). simpl in Hc. destruct t as [t|].
  { by apply keeps_add_ids_mem. }
  eapply keeps_bind; [by apply keeps_alloc|]. intros targets [_ Htargets].
  eapply keeps_bind; [by apply keeps_add_ids_mem|]. intros _ _.
  eapply keeps_bind; [apply keeps_load|]. intros c _.
  destruct c; try apply keeps_panic. by apply keeps_store.
Qed.

Lemma keeps_set_fn (n : ptr) (f : option NodeFn) :
  own h0 n → keeps h0 (set_fn n f) (λ _, True).
Proof.
  intros Hn. eapply keeps_bind; [apply keeps_load|]. intros c Hc.
  destruct c; try apply keeps_panic. apply keeps_store; [done|]. by apply Hc.
Qed.

Lemma keeps_set_required (n : ptr) (r : Z) :
  own h0 n → keeps h0 (set_required n r) (λ _, True).
Proof.
  intros Hn. eapply keeps_bind; [apply keeps_load|]. intros c Hc.
  destruct c; try apply keeps_panic. apply keeps_store; [done|]. by apply Hc.
Qed.

Lemma keeps_compile_deps_mem (nodes : ptr) (id : NodeID) (deps : list NodeID) :
  own h0 nodes → keeps h0 (compile_deps_mem nodes id deps) (λ _, True).
Proof.
  intros Hnodes. induction deps as [|depId rest IH]; simpl; [by apply keeps_ret|].
  eapply keeps_bind; [by apply keeps_GetOrCreate_mem|]. intros dep Hdep.
  eapply keeps_bind; [by apply keeps_AddTargets_mem|]. by intros _ _.
Qed.

Lemma keeps_compile_nodes_mem (dord : NodeID → RangeOrder) (nodes : ptr)
    (l : list (NodeID * ptr)) :
  own h0 nodes → keeps h0 (compile_nodes_mem dord nodes l) (λ _, True).
Proof.
  intros Hnodes. induction l as [|[id node] l IH]; simpl; [by apply keeps_ret|].
  eapply keeps_bind; [apply keeps_Node_Dependencies|]. intros deps _.
  eapply keeps_bind; [apply keeps_read_NodeIDs|]. intros s _.
  eapply keeps_bind; [by apply keeps_compile_deps_mem|]. intros _ _.
  eapply keeps_bind; [by apply keeps_GetOrCreate_mem|]. intros n Hn.
  eapply keeps_bind; [apply keeps_Node_Fn|]. intros f _.
  eapply keeps_bind; [by apply keeps_set_fn|]. intros _ _.
  eapply keeps_bind; [apply keeps_Node_Dependencies|]. intros deps' _.
  eapply keeps_bind; [apply keeps_read_NodeIDs|]. intros s' _.
  eapply keeps_bind; [by apply keeps_set_required|]. by intros _ _.
Qed.

Lemma keeps_CompileToExecutable_mem (gord : RangeOrder) (dord : NodeID → RangeOrder)
    (g : ptr) :
  keeps h0 (CompileToExecutable_mem gord dord g) (λ _, True).
Proof.
  eapply keeps_bind; [apply keeps_Graph_nodes|]. intros ns _.
  eapply keeps_bind; [apply keeps_read_Nodes|]. intros m _.
  eapply keeps_bind; [by apply keeps_alloc|]. intros nodes [_ Hnodes].
  eapply keeps_bind; [apply keeps_Graph_nodes|]. intros ns' _.
  eapply keeps_bind; [apply keeps_read_Nodes|]. intros m' _.
  eapply keeps_bind; [by apply keeps_compile_nodes_mem|]. intros _ _.
  eapply keeps_bind; [apply keeps_Graph_name|]. intros nm _.
  eapply keeps_weaken; [by apply keeps_alloc|done].
Qed.
End Keeps.

Lemma ids_at_weaken (h h' : heap) (p : ptr) (s : NodeIDs) :
  h ⊆ h' → ids_at h p = Some s → ids_at h' p = Some s.
Proof.
  intros Hsub. destruct p as [l|]; simpl; [|done].
  destruct (h !! l) as [c|] eqn:E; [|done].
  by rewrite (lookup_weaken h h' l c E Hsub).
Qed.

Lemma node_at_weaken (h h' : heap) (p : ptr) (n : Node) :
  h ⊆ h' → node_at h p = Some n → node_at h' p = Some n.
Proof.
  intros Hsub. unfold node_at. destruct p as [l|]; simpl; [|done].
  destruct (h !! l) as [c|] eqn:E; [|done].
  rewrite (lookup_weaken h h' l c E Hsub).
  destruct c; try done.
  destruct (ids_at h deps) as [s|] eqn:Es; [|done].
  by rewrite (ids_at_weaken h h' deps s Hsub Es).
Qed.

Lemma nodes_at_weaken (h h' : heap) (p : ptr) (m : gmap NodeID Node) :
  h ⊆ h' → nodes_at h p = Some m → nodes_at h' p = Some m.
Proof.
  intros Hsub. destruct p as [l|]; simpl; [|done].
  destruct (h !! l) as [c|] eqn:E; [|done].
  rewrite (lookup_weaken h h' l c E Hsub).
  destruct c as [|x| | | | | | |]; try done.
  destruct (decide (map_Forall _ x)) as [Hall|]; [|done]. intros [= <-].
  assert (Hsame : ∀ k q, x !! k = Some q → node_at h' q = node_at h q).
  { intros k q Hk. destruct (Hall k q Hk) as [n Hn].
    by rewrite Hn, (node_at_weaken h h' q n Hsub Hn). }
  rewrite decide_True.
  - f_equal. apply map_eq. intros k. rewrite !lookup_omap.
    destruct (x !! k) as [q|] eqn:Ek; simpl; [by apply (Hsame k)|done].
  - intros k q Hk. rewrite (Hsame k q Hk). by apply (Hall k).
Qed.

Lemma graph_at_weaken (h h' : heap) (p : ptr) (g : Graph) :
  h ⊆ h' → graph_at h p = Some g → graph_at h' p = Some g.
Proof.
  intros Hsub. unfold graph_at. destruct p as [l|]; simpl; [|done].
  destruct (h !! l) as [c|] eqn:E; [|done].
  rewrite (lookup_weaken h h' l c E Hsub).
  destruct c; try done.
  destruct (nodes_at h ns) as [m|] eqn:Em; [|done].
  by rewrite (nodes_at_weaken h h' ns m Hsub Em).
Qed.

(** C9. On a heap that holds the graph [g] behind [p], [Sort] and
    [CompileToExecutable] on [p], however the call ends, leave every cell
    that was allocated before the call as it was: they write only to what
    they allocate themselves.  So [p] holds [g] after the call as before it:
    the same name and node map, and for every stored node the same name,
    work function and dependency set. *)
Theorem Sort_Compile_leave_graph (fuel : nat) (gord : RangeOrder)
    (dord : NodeID → RangeOrder) (h : heap) (p : ptr) (g : Graph) :
  graph_at h p = Some g →
  (h ⊆ (Sort_mem fuel gord dord p h).2
   ∧ graph_at (Sort_mem fuel gord dord p h).2 p = Some g)
  ∧ (h ⊆ (CompileToExecutable_mem gord dord p h).2
     ∧ graph_at (CompileToExecutable_mem gord dord p h).2 p = Some g).
Proof.
  intros Hg.
  destruct (keeps_Sort_mem h fuel gord dord p h (framed_refl h)) as [[Hs _] _].
  destruct (keeps_CompileToExecutable_mem h gord dord p h (framed_refl h)) as [[Hc _] _].
  split; (split; [done|]); by eapply graph_at_weaken.
Qed.

Lemma Sort_Compile_leave_graph_witness :
  graph_at pair_heap (Some 0) = Some (pair_graph succeed)
  ∧ (pair_heap ⊆ (Sort_mem 2 fixed_order (λ _, fixed_order) (Some 0) pair_heap).2
     ∧ graph_at (Sort_mem 2 fixed_order (λ _, fixed_order) (Some 0) pair_heap).2 (Some 0)
       = Some (pair_graph succeed))
  ∧ (pair_heap ⊆ (CompileToExecutable_mem fixed_order (λ _, fixed_order) (Some 0) pair_heap).2
     ∧ graph_at (CompileToExecutable_mem fixed_order (λ _, fixed_order) (Some 0) pair_heap).2
         (Some 0) = Some (pair_graph succeed)).
Proof.
  assert (Hg : graph_at pair_heap (Some 0) = Some (pair_graph succeed))
    by (vm_compute; reflexivity).
  split; [exact Hg|].
  exact (Sort_Compile_leave_graph 2 fixed_order (λ _, fixed_order) pair_heap (Some 0)
           (pair_graph succeed) Hg).
Defined.

(** ** The heap: Sort computes what the model without a heap computes *)

Lemma fill_first_empty_full (name : NodeID) (res : list NodeID) :
  EmptyString ∉ res → fill_first_empty name res = res.
Proof.
  induction res as [|r res IH]; simpl; [done|].
  intros [Hr Hres]%not_elem_of_cons. rewrite decide_False by done. by rewrite IH.
Qed.

Lemma bind_Value {A B : Type} (m : Mem A) (f : A → Mem B) (h h' : heap) (a : A) :
  m h = (Value a, h') → (m ≫= f) h = f a h'.
Proof. intros E. unfold mbind, Mem_bind. by rewrite E. Qed.

Lemma load_eq (h : heap) (l : nat) (c : cell) :
  h !! l = Some c → load (Some l) h = (Value c, h).
Proof. intros E. unfold load. simpl. by rewrite E. Qed.

Lemma alloc_eq (h : heap) (c : cell) :
  alloc c h = (Value (Some (fresh (dom h))), <[fresh (dom h) := c]> h).
Proof. done. Qed.

Lemma store_eq (h : heap) (l : nat) (c : cell) :
  store (Some l) c h = (Value tt, <[l := c]> h).
Proof. done. Qed.

Lemma get_bool_eq (h : heap) (l : nat) (x : gmap NodeID bool) (k : NodeID) :
  h !! l = Some (CBools x) → get_bool (Some l) k h = (Value (getb x k), h).
Proof.
  intros E. unfold get_bool, read_bools.
  by rewrite (bind_Value _ _ h h x) by (by rewrite (bind_Value _ _ h h _ (load_eq h l _ E))).
Qed.

Lemma set_bool_eq (h : heap) (l : nat) (x : gmap NodeID bool) (k : NodeID) (b : bool) :
  h !! l = Some (CBools x) →
  set_bool (Some l) k b h = (Value tt, <[l := CBools (<[k := b]> x)]> h).
Proof.
  intros E. unfold set_bool, read_bools.
  by rewrite (bind_Value _ _ h h x) by (by rewrite (bind_Value _ _ h h _ (load_eq h l _ E))).
Qed.

Lemma read_slice_eq (h : heap) (l : nat) (a : list NodeID) :
  h !! l = Some (CSlice a) → read_slice (Some l) h = (Value a, h).
Proof.
  intros E. unfold read_slice. by rewrite (bind_Value _ _ h h _ (load_eq h l _ E)).
Qed.

Lemma read_NodeIDs_eq (h0 h : heap) (d : ptr) (s : NodeIDs) :
  h0 ⊆ h → ids_at h0 d = Some s → read_NodeIDs d h = (Value s, h).
Proof.
  intros Hsub. destruct d as [l|]; simpl; [|by intros [= <-]].
  destruct (h0 !! l) as [c|] eqn:E; [|done]. destruct c; try done. intros [= <-].
  by rewrite (bind_Value _ _ h h _ (load_eq h l _ (lookup_weaken h0 h l _ E Hsub))).
Qed.

Lemma node_at_inv (h0 : heap) (q : ptr) (N : Node) :
  node_at h0 q = Some N →
  ∃ d, ids_at h0 d = Some (Dependencies N)
       ∧ ∀ h, h0 ⊆ h → Node_Dependencies q h = (Value d, h)
                       ∧ Node_Fn q h = (Value (Fn N), h).
Proof.
  unfold node_at. destruct q as [l|]; simpl; [|done].
  destruct (h0 !! l) as [c|] eqn:E; [|done]. destruct c; try done.
  destruct (ids_at h0 deps) as [s|] eqn:Es; [|done]. intros [= <-].
  exists deps. split; [done|]. intros h Hsub.
  unfold Node_Dependencies, Node_Fn.
  by rewrite !(bind_Value _ _ h h _ (load_eq h l _ (lookup_weaken h0 h l _ E Hsub))).
Qed.

Lemma graph_at_inv (h0 : heap) (p : ptr) (G : Graph) :
  graph_at h0 p = Some G →
  ∃ ns m,
    nodes G = omap (node_at h0) m
    ∧ (∀ k q, m !! k = Some q → is_Some (node_at h0 q))
    ∧ ∀ h, h0 ⊆ h → Graph_nodes p h = (Value ns, h)
                     ∧ Graph_name p h = (Value (name G), h)
                     ∧ read_Nodes ns h = (Value m, h).
Proof.
  unfold graph_at. destruct p as [l|]; simpl; [|done].
  destruct (h0 !! l) as [c|] eqn:E; [|done]. destruct c; try done.
  destruct (nodes_at h0 ns) as [x|] eqn:Ex; [|done]. intros [= <-]. simpl.
  assert (Hg : ∀ h, h0 ⊆ h → Graph_nodes (Some l) h = (Value ns, h)
                               ∧ Graph_name (Some l) h = (Value nm, h)).
  { intros h Hsub. unfold Graph_nodes, Graph_name.
    by rewrite !(bind_Value _ _ h h _ (load_eq h l _ (lookup_weaken h0 h l _ E Hsub))). }
  destruct ns as [ln|]; simpl in Ex.
  - destruct (h0 !! ln) as [c|] eqn:En; [|done].
    destruct c as [|m| | | | | | |]; try done.
    destruct (decide (map_Forall _ m)) as [Hall|]; [|done]. injection Ex as <-.
    exists (Some ln), m. split; [done|]. split; [exact Hall|].
    intros h Hsub. destruct (Hg h Hsub) as [? ?]. split; [done|]. split; [done|].
    unfold read_Nodes.
    by rewrite (bind_Value _ _ h h _ (load_eq h ln _ (lookup_weaken h0 h ln _ En Hsub))).
  - injection Ex as <-. exists None, ∅. split; [by rewrite omap_empty|].
    split; [intros k q; by rewrite lookup_empty|].
    intros h Hsub. destruct (Hg h Hsub) as [? ?]. done.
Qed.

Section SortSim.
Context (h0 : heap) (G : Graph) (g ns : ptr) (m : gmap NodeID ptr).
Context (HG : nodes G = omap (node_at h0) m).
Context (Hall : ∀ k q, m !! k = Some q → is_Some (node_at h0 q)).
Context (Hg : ∀ h, h0 ⊆ h → Graph_nodes g h = (Value ns, h)
                             ∧ Graph_name g h = (Value (name G), h)
                             ∧ read_Nodes ns h = (Value m, h)).
Context (dord : NodeID → RangeOrder).

Lemma Graph_node_eq (h : heap) (n : NodeID) :
  h0 ⊆ h → Graph_node g n h = (Value (m !! n), h).
Proof using Hg.
  intros Hsub. destruct (Hg h Hsub) as (Hn & _ & Hm). unfold Graph_node.
  rewrite (bind_Value _ _ h h _ Hn). by rewrite (bind_Value _ _ h h _ Hm).
Qed.

Lemma lookup_nodes_at (n : NodeID) : nodes G !! n = m !! n ≫= node_at h0.
Proof using HG. by rewrite HG, lookup_omap. Qed.

Section Visit.
Context (ls lv lr : nat).
Context (Hls : h0 !! ls = None) (Hlv : h0 !! lv = None) (Hlr : h0 !! lr = None).

Lemma visit_neighbors_mem_sim
    (recP : NodeID → NodeIDs → SortState → outcome SortState)
    (recM : NodeID → ptr → Mem (option error))
    (l : list NodeID) (st : SortState) (h : heap) :
  (∀ n d nb st h, h0 ⊆ h → sort_rep h ls lv lr st → ids_at h0 d = Some nb →
                  visit_sim h0 ls lv lr (recP n nb st) (recM n d h)) →
  h0 ⊆ h → sort_rep h ls lv lr st →
  visit_sim h0 ls lv lr (visit_neighbors G recP l st)
    (visit_neighbors_mem g (Some ls) (Some lv) recM l h).
Proof using HG Hall Hg.
  intros Hrec. revert st h. induction l as [|n l IH]; intros st h Hsub Hrep; simpl.
  { by split. }
  pose proof Hrep as (Hs & Hv & Hr & Hne).
  rewrite (bind_Value _ _ h h _ (get_bool_eq h lv _ n Hv)).
  destruct (negb (getb (visited st) n)).
  - rewrite (bind_Value _ _ h h _ (Graph_node_eq h n Hsub)).
    rewrite lookup_nodes_at.
    destruct (m !! n) as [q|] eqn:Eq; simpl; [|by split].
    rewrite (bind_Value _ _ h h _ (Graph_node_eq h n Hsub)). rewrite Eq. simpl.
    destruct (Hall n q Eq) as [N HN]. rewrite HN.
    destruct (node_at_inv h0 q N HN) as (d & Hd & Hq).
    rewrite (bind_Value _ _ h h _ (proj1 (Hq h Hsub))).
    specialize (Hrec n d (Dependencies N) st h Hsub Hrep Hd).
    unfold mbind, Mem_bind.
    destruct (recM n d h) as [r h1]. destruct Hrec as [Hsub1 Hout]. simpl in *.
    destruct (recP n (Dependencies N) st) as [st1|e|].
    + destruct Hout as [-> Hrep1]. by apply IH.
    + rewrite Hout. by split.
    + rewrite Hout. by split.
  - rewrite (bind_Value _ _ h h _ (get_bool_eq h ls _ n Hs)).
    destruct (getb (stack st) n); [by split|by apply IH].
Qed.

Lemma visit_mem_sim (fuel : nat) (name : NodeID) (d : ptr) (nb : NodeIDs)
    (st : SortState) (h : heap) :
  h0 ⊆ h → sort_rep h ls lv lr st → ids_at h0 d = Some nb →
  visit_sim h0 ls lv lr (visit G dord fuel name nb st)
    (visit_mem dord g (Some ls) (Some lv) (Some lr) fuel name d h).
Proof using HG Hall Hg Hls Hlv Hlr.
  revert name d nb st h.
  induction fuel as [|fuel IH]; intros name d nb st h Hsub Hrep Hd; simpl.
  { by split. }
  pose proof Hrep as (Hs & Hv & Hr & Hne).
  rewrite (bind_Value _ _ h _ _ (set_bool_eq h lv _ name true Hv)).
  set (h1 := <[lv := _]> h).
  assert (Hs1 : h1 !! ls = Some (CBools (stack st)))
    by (unfold h1; by rewrite lookup_insert_ne).
  rewrite (bind_Value _ _ h1 _ _ (set_bool_eq h1 ls _ name true Hs1)).
  set (h2 := <[ls := _]> h1).
  assert (Hsub2 : h0 ⊆ h2) by (unfold h2, h1; repeat (apply insert_subseteq_r; [done|]); done).
  rewrite (bind_Value _ _ h2 h2 _ (read_NodeIDs_eq h0 h2 d nb Hsub2 Hd)).
  set (st1 := {| stack := <[name := true]> (stack st);
                 visited := <[name := true]> (visited st);
                 results := results st |}).
  assert (Hlr_ne : lr ≠ ls ∧ lr ≠ lv).
  { split; intros ->; congruence. }
  assert (Hrep1 : sort_rep h2 ls lv lr st1).
  { unfold sort_rep, h2, h1, st1. simpl. split; [by rewrite lookup_insert_eq|].
    split; [by rewrite lookup_insert_ne, lookup_insert_eq|].
    split; [|done]. by rewrite !lookup_insert_ne by naive_solver. }
  pose proof (visit_neighbors_mem_sim (visit G dord fuel)
                (visit_mem dord g (Some ls) (Some lv) (Some lr) fuel)
                (dord name nb) st1 h2 IH Hsub2 Hrep1) as Hloop.
  unfold mbind at 1, Mem_bind at 1.
  destruct (visit_neighbors_mem g (Some ls) (Some lv) _ (dord name nb) h2) as [r h3].
  destruct Hloop as [Hsub3 Hout]. simpl in *.
  destruct (visit_neighbors G (visit G dord fuel) (dord name nb) st1) as [st2|e|].
  - destruct Hout as [-> (Hs3 & Hv3 & Hr3 & _)].
    rewrite (bind_Value _ _ h3 h3 _ (read_slice_eq h3 lr _ Hr3)).
    assert (Hfill : ∃ h4,
              (if decide (EmptyString ∈ results st2)
               then store (Some lr) (CSlice (fill_first_empty name (results st2)))
               else mret tt) h3 = (Value tt, h4)
              ∧ h0 ⊆ h4
              ∧ h4 !! ls = Some (CBools (stack st2))
              ∧ h4 !! lv = Some (CBools (visited st2))
              ∧ h4 !! lr = Some (CSlice (fill_first_empty name (results st2)))).
    { destruct (decide (EmptyString ∈ results st2)) as [Hin|Hnot].
      - exists (<[lr := CSlice (fill_first_empty name (results st2))]> h3).
        split; [done|]. split; [by apply insert_subseteq_r|].
        split; [by rewrite lookup_insert_ne by naive_solver|].
        split; [by rewrite lookup_insert_ne by naive_solver|].
        by rewrite lookup_insert_eq.
      - exists h3. by rewrite (fill_first_empty_full name _ Hnot). }
    destruct Hfill as (h4 & Hfill & Hsub4 & Hs4 & Hv4 & Hr4).
    rewrite (bind_Value _ _ h3 h4 _ Hfill).
    rewrite (bind_Value _ _ h4 _ _ (set_bool_eq h4 ls _ name false Hs4)).
    split; simpl.
    + by apply insert_subseteq_r.
    + split; [done|]. unfold sort_rep. simpl.
      split; [by rewrite lookup_insert_eq|].
      split; [by rewrite lookup_insert_ne|].
      split; [|done]. by rewrite lookup_insert_ne by naive_solver.
  - rewrite Hout. by split.
  - rewrite Hout. by split.
Qed.
End Visit.

Lemma sort_nodes_mem_sim (fuel : nat) (lv lr : nat)
    (lP : list (NodeID * Node)) (lM : list (NodeID * ptr))
    (vis : gmap NodeID bool) (res : list NodeID) (h : heap) :
  h0 !! lv = None → h0 !! lr = None → lv ≠ lr →
  Forall2 (λ a b, a.1 = b.1 ∧ node_at h0 b.2 = Some a.2) lP lM →
  h0 ⊆ h →
  h !! lv = Some (CBools vis) → h !! lr = Some (CSlice res) →
  Sort_sim (sort_nodes G dord fuel lP vis res)
    (sort_nodes_mem fuel dord g (Some lv) (Some lr) lM h).
Proof using HG Hall Hg.
  intros Hlv Hlr Hne Hl. revert vis res h.
  induction Hl as [|[n N] [n' q] lP lM [Hn HN] Hl IH]; intros vis res h Hsub Hv Hr; simpl.
  { by exists lr. }
  simpl in Hn, HN. subst n'.
  rewrite (bind_Value _ _ h h _ (get_bool_eq h lv _ n Hv)).
  destruct (negb (getb vis n)); [|by apply IH].
  rewrite (bind_Value _ _ h _ _ (alloc_eq h _)).
  set (ls := fresh (dom h)). set (h1 := <[ls := CBools ∅]> h).
  assert (Hfresh : h !! ls = None) by (apply not_elem_of_dom, is_fresh).
  assert (Hls : h0 !! ls = None).
  { destruct (h0 !! ls) as [c|] eqn:E; [|done].
    by rewrite (lookup_weaken h0 h ls c E Hsub) in Hfresh. }
  assert (Hsub1 : h0 ⊆ h1) by (by apply insert_subseteq_r).
  destruct (node_at_inv h0 q N HN) as (d & Hd & Hq).
  rewrite (bind_Value _ _ h1 h1 _ (proj1 (Hq h1 Hsub1))).
  assert (Hrep : sort_rep h1 ls lv lr {| stack := ∅; visited := vis; results := res |}).
  { unfold sort_rep, h1. simpl. split; [by rewrite lookup_insert_eq|].
    assert (ls ≠ lv ∧ ls ≠ lr) as [? ?] by (split; intros ->; congruence).
    split; [by rewrite lookup_insert_ne|]. split; [by rewrite lookup_insert_ne|done]. }
  pose proof (visit_mem_sim ls lv lr Hls Hlv Hlr fuel n d (Dependencies N) _ h1
                Hsub1 Hrep Hd) as Hvisit.
  unfold mbind at 1, Mem_bind at 1.
  destruct (visit_mem dord g (Some ls) (Some lv) (Some lr) fuel n d h1) as [r h2].
  destruct Hvisit as [Hsub2 Hout]. simpl in *.
  destruct (visit G dord fuel n (Dependencies N) _) as [st|e|].
  - destruct Hout as [-> (_ & Hv2 & Hr2 & _)]. by apply IH.
  - by rewrite Hout.
  - by rewrite Hout.
Qed.
End SortSim.

Lemma dom_omap_total {A B : Type} (f : A → option B) (m : gmap NodeID A) :
  (∀ k a, m !! k = Some a → is_Some (f a)) → dom (omap f m) = dom m.
Proof.
  intros Hall. apply set_eq. intros k. rewrite !elem_of_dom, lookup_omap.
  destruct (m !! k) as [a|] eqn:E; simpl.
  - split; [eauto|]. intros _. by apply (Hall k).
  - split; intros [? ?]; done.
Qed.

Lemma range_map_omap {A B : Type} (o : RangeOrder) (f : A → option B) (m : gmap NodeID A) :
  (∀ k a, m !! k = Some a → is_Some (f a)) →
  Forall2 (λ a b, a.1 = b.1 ∧ f b.2 = Some a.2) (range_map o (omap f m)) (range_map o m).
Proof.
  intros Hall. unfold range_map. rewrite (dom_omap_total f m Hall). induction (o (dom m)) as [|k l IH]; simpl; [constructor|].
  rewrite lookup_omap. destruct (m !! k) as [a|] eqn:E; simpl; [|done].
  destruct (Hall k a E) as [b Hb]. rewrite Hb. simpl. by constructor.
Qed.

(** X23. On a heap that holds the graph [g] behind [p], [Sort] does not
    panic and returns what the model without a heap computes for [g]: the
    same error, or a slice that holds the same order. *)
Theorem Sort_mem_Sort (fuel : nat) (gord : RangeOrder) (dord : NodeID → RangeOrder)
    (h : heap) (p : ptr) (g : Graph) :
  graph_at h p = Some g →
  Sort_sim (Sort fuel gord dord g).1 (Sort_mem fuel gord dord p h).
Proof.
  intros Hgraph. destruct (graph_at_inv h p g Hgraph) as (ns & m & HG & Hall & Hg).
  unfold Sort_mem, Sort. simpl.
  rewrite (bind_Value _ _ h _ _ (alloc_eq h _)).
  set (lv := fresh (dom h)). set (h1 := <[lv := CBools ∅]> h).
  assert (Hlv : h !! lv = None) by (apply not_elem_of_dom, is_fresh).
  assert (Hsub1 : h ⊆ h1) by (by apply insert_subseteq_r).
  destruct (Hg h1 Hsub1) as (Hn1 & _ & Hm1).
  rewrite (bind_Value _ _ h1 h1 _ Hn1), (bind_Value _ _ h1 h1 _ Hm1).
  rewrite (bind_Value _ _ h1 _ _ (alloc_eq h1 _)).
  set (lr := fresh (dom h1)). set (h2 := <[lr := _]> h1).
  assert (Hlr1 : h1 !! lr = None) by (apply not_elem_of_dom, is_fresh).
  assert (Hne : lv ≠ lr).
  { intros E. rewrite <- E in Hlr1. unfold h1 in Hlr1. by rewrite lookup_insert_eq in Hlr1. }
  assert (Hlr : h !! lr = None).
  { unfold h1 in Hlr1. by rewrite lookup_insert_ne in Hlr1. }
  assert (Hsub2 : h ⊆ h2) by (unfold h2, h1; repeat (apply insert_subseteq_r; [done|]); done).
  destruct (Hg h2 Hsub2) as (Hn2 & _ & Hm2).
  rewrite (bind_Value _ _ h2 h2 _ Hn2), (bind_Value _ _ h2 h2 _ Hm2).
  assert (Hsize : size m = size (nodes g)).
  { rewrite HG. rewrite <- (size_dom (D:=gset string) m).
    rewrite <- (size_dom (D:=gset string) (omap (node_at h) m)).
    by rewrite (dom_omap_total (node_at h) m Hall). }
  rewrite HG at 1.
  apply (sort_nodes_mem_sim h g p ns m HG Hall Hg dord fuel lv lr); try done.
  - by apply range_map_omap.
  - unfold h2, h1. by rewrite lookup_insert_ne, lookup_insert_eq.
  - unfold h2. by rewrite lookup_insert_eq, Hsize.
Qed.

Lemma Sort_mem_Sort_witness :
  graph_at pair_heap (Some 0) = Some (pair_graph succeed)
  ∧ Sort_sim (Sort 2 fixed_order (λ _, fixed_order) (pair_graph succeed)).1
      (Sort_mem 2 fixed_order (λ _, fixed_order) (Some 0) pair_heap).
Proof.
  assert (Hg : graph_at pair_heap (Some 0) = Some (pair_graph succeed))
    by (vm_compute; reflexivity).
  split; [exact Hg|].
  exact (Sort_mem_Sort 2 fixed_order (λ _, fixed_order) pair_heap (Some 0)
           (pair_graph succeed) Hg).
Defined.

(** ** The heap: CompileToExecutable builds the plan of the model without a heap *)

Lemma exec_rep_insert (h : heap) (a : nat) (c : cell) (x : ExecutableNode)
    (l : nat) (t : ptr) :
  exec_rep h x l t → a ≠ l → t ≠ Some a → exec_rep (<[a := c]> h) x l t.
Proof.
  intros [Hl Ht] Hal Hat. split; [by rewrite lookup_insert_ne|].
  destruct t as [lt|], (targetIDs x) as [s|]; try done.
  rewrite lookup_insert_ne; [done|congruence].
Qed.

Lemma exec_rep_same (h h' : heap) (x : ExecutableNode) (l : nat) (t : ptr) :
  exec_rep h x l t → h' !! l = h !! l → (∀ lt, t = Some lt → h' !! lt = h !! lt) →
  exec_rep h' x l t.
Proof.
  intros [Hl Ht] El Et. split; [by rewrite El|].
  destruct t as [lt|], (targetIDs x) as [s|]; try done. by rewrite (Et lt).
Qed.

Lemma plan_targets (h0 h : heap) (le : nat) (em tm : gmap NodeID nat)
    (en : gmap NodeID ExecutableNode) (k : NodeID) (t : nat) :
  plan_rep h0 h le em tm en → tm !! k = Some t → ∃ s, h !! t = Some (CNodeIDs s).
Proof.
  intros Hp Ht. destruct (em !! k) as [l|] eqn:El.
  - destruct (plan_nodes _ _ _ _ _ _ Hp k l El) as (x & _ & _ & Hx).
    rewrite Ht in Hx. destruct (targetIDs x) as [s|]; [eauto|done].
  - by rewrite (plan_tdom _ _ _ _ _ _ Hp k El) in Ht.
Qed.

(** One node of the plan is written to: the others stay as they are. *)
Lemma plan_rep_update (h0 h h' : heap) (le : nat) (em tm tm' : gmap NodeID nat)
    (en : gmap NodeID ExecutableNode) (k : NodeID) (l : nat) (x' : ExecutableNode) :
  plan_rep h0 h le em tm en → em !! k = Some l →
  h0 ⊆ h' →
  h' !! le = h !! le →
  (∀ k', k' ≠ k → tm' !! k' = tm !! k') →
  (∀ k' l', k' ≠ k → em !! k' = Some l' → h' !! l' = h !! l') →
  (∀ k' t', k' ≠ k → tm !! k' = Some t' → h' !! t' = h !! t') →
  exec_rep h' x' l (tm' !! k) →
  (∀ t, tm' !! k = Some t → h0 !! t = None ∧ ∀ k', k' ≠ k → tm !! k' ≠ Some t) →
  plan_rep h0 h' le em tm' (<[k := x']> en).
Proof.
  intros Hp Hk Hsub Hle Htm Hnodes Htargets Hx Hnew.
  split.
  - done.
  - rewrite Hle. by apply (plan_map _ _ _ _ _ _ Hp).
  - intros k' Hk'. rewrite lookup_insert_ne by congruence.
    by apply (plan_dom _ _ _ _ _ _ Hp).
  - intros k' l' Hk'. destruct (decide (k' = k)) as [->|Hne].
    + rewrite lookup_insert_eq. exists x'. split; [done|]. congruence.
    + rewrite lookup_insert_ne by done.
      destruct (plan_nodes _ _ _ _ _ _ Hp k' l' Hk') as (x & Hx' & Hrep).
      exists x. split; [done|]. rewrite (Htm k' Hne).
      apply (exec_rep_same h); [done|by apply (Hnodes k')|].
      intros lt Hlt. by apply (Htargets k').
  - by apply (plan_inj _ _ _ _ _ _ Hp).
  - intros k1 k2 t H1 H2.
    destruct (decide (k1 = k)) as [->|Hne1], (decide (k2 = k)) as [->|Hne2]; [done| | |].
    + destruct (Hnew t H1) as [_ Hother]. rewrite (Htm k2 Hne2) in H2.
      by destruct (Hother k2 Hne2).
    + destruct (Hnew t H2) as [_ Hother]. rewrite (Htm k1 Hne1) in H1.
      by destruct (Hother k1 Hne1).
    + rewrite (Htm k1 Hne1) in H1. rewrite (Htm k2 Hne2) in H2.
      by apply (plan_tinj _ _ _ _ _ _ Hp k1 k2 t).
  - intros k' Hk'. assert (k' ≠ k) as Hne by congruence.
    rewrite (Htm k' Hne). by apply (plan_tdom _ _ _ _ _ _ Hp).
  - by apply (plan_own_map _ _ _ _ _ _ Hp).
  - by apply (plan_own _ _ _ _ _ _ Hp).
  - intros k' t Ht. destruct (decide (k' = k)) as [->|Hne].
    + by apply Hnew.
    + rewrite (Htm k' Hne) in Ht. by apply (plan_town _ _ _ _ _ _ Hp k').
Qed.

Lemma read_execs_eq (h : heap) (l : nat) (m : gmap NodeID ptr) :
  h !! l = Some (CExecs m) → read_execs (Some l) h = (Value m, h).
Proof.
  intros E. unfold read_execs. by rewrite (bind_Value _ _ h h _ (load_eq h l _ E)).
Qed.

Lemma fresh_None (h : heap) : h !! fresh (dom h) = None.
Proof. apply not_elem_of_dom, is_fresh. Qed.

Lemma fresh_own (h0 h : heap) : h0 ⊆ h → h0 !! fresh (dom h) = None.
Proof.
  intros Hsub. destruct (h0 !! fresh (dom h)) as [c|] eqn:E; [|done].
  pose proof (lookup_weaken h0 h _ c E Hsub) as E'. by rewrite fresh_None in E'.
Qed.

Section PlanSim.
Context (h0 : heap) (le : nat).

Lemma GetOrCreate_mem_sim (h : heap) (em tm : gmap NodeID nat)
    (en : gmap NodeID ExecutableNode) (id : NodeID) :
  plan_rep h0 h le em tm en →
  ∃ l h' em',
    GetOrCreate_mem (Some le) id h = (Value (Some l), h')
    ∧ plan_rep h0 h' le em' tm (GetOrCreate id en).2
    ∧ em' !! id = Some l
    ∧ (GetOrCreate id en).2 !! id = Some (GetOrCreate id en).1.
Proof.
  intros Hp. unfold GetOrCreate_mem, GetOrCreate.
  rewrite (bind_Value _ _ h h _ (read_execs_eq h le _ (plan_map _ _ _ _ _ _ Hp))).
  rewrite lookup_fmap. destruct (em !! id) as [l|] eqn:El; simpl.
  - destruct (plan_nodes _ _ _ _ _ _ Hp id l El) as (x & Hx & _). rewrite Hx. simpl.
    by exists l, h, em.
  - rewrite (plan_dom _ _ _ _ _ _ Hp id El). simpl.
    rewrite (bind_Value _ _ h _ _ (alloc_eq h _)).
    set (l := fresh (dom h)). set (h1 := <[l := CExec None 0%Z None]> h).
    assert (Hl : h !! l = None) by apply fresh_None.
    assert (Hl0 : h0 !! l = None) by (apply fresh_own, (plan_sub _ _ _ _ _ _ Hp)).
    assert (Hlle : l ≠ le).
    { intros ->. by rewrite (plan_map _ _ _ _ _ _ Hp) in Hl. }
    assert (Hle1 : h1 !! le = Some (CExecs (Some <$> em))).
    { unfold h1. rewrite lookup_insert_ne by done. by apply (plan_map _ _ _ _ _ _ Hp). }
    rewrite (bind_Value _ _ h1 h1 _ (read_execs_eq h1 le _ Hle1)).
    rewrite (bind_Value _ _ h1 _ _ (store_eq h1 le _)).
    set (h2 := <[le := _]> h1).
    exists l, h2, (<[id := l]> em). split; [done|]. split; [|split].
    2:{ by rewrite lookup_insert_eq. }
    2:{ by rewrite lookup_insert_eq. }
    assert (Hother : ∀ a, a ≠ l → a ≠ le → h2 !! a = h !! a).
    { intros a ? ?. unfold h2, h1. by rewrite !lookup_insert_ne. }
    split.
    + unfold h2, h1. apply insert_subseteq_r; [by apply (plan_own_map _ _ _ _ _ _ Hp)|].
      apply insert_subseteq_r; [done|]. by apply (plan_sub _ _ _ _ _ _ Hp).
    + unfold h2. by rewrite lookup_insert_eq, fmap_insert.
    + intros k. destruct (decide (id = k)) as [->|Hne].
      * by rewrite lookup_insert_eq.
      * rewrite !lookup_insert_ne by done. by apply (plan_dom _ _ _ _ _ _ Hp).
    + intros k l'. destruct (decide (id = k)) as [<-|Hne].
      * rewrite !lookup_insert_eq. intros [= <-]. exists zeroExecutableNode.
        split; [done|]. rewrite (plan_tdom _ _ _ _ _ _ Hp id El). split; [|done].
        unfold h2, h1. by rewrite lookup_insert_ne, lookup_insert_eq.
      * rewrite !lookup_insert_ne by done. intros Hk.
        destruct (plan_nodes _ _ _ _ _ _ Hp k l' Hk) as (x & Hx & Hrep).
        exists x. split; [done|]. pose proof Hrep as [Hl' _].
        apply (exec_rep_same h); [done| |].
        -- apply Hother; intros ->; [congruence|].
           rewrite (plan_map _ _ _ _ _ _ Hp) in Hl'. done.
        -- intros lt Hlt.
           destruct (plan_targets _ _ _ _ _ _ k lt Hp Hlt) as [s Hs].
           apply Hother; intros ->; [congruence|].
           rewrite (plan_map _ _ _ _ _ _ Hp) in Hs. done.
    + intros k k' l'. destruct (decide (id = k)) as [<-|Hne], (decide (id = k')) as [<-|Hne'];
        rewrite ?lookup_insert_eq, ?lookup_insert_ne by done; [done| | |].
      * intros [= <-] Hk'.
        destruct (plan_nodes _ _ _ _ _ _ Hp k' l Hk') as (x & _ & Hl' & _). congruence.
      * intros Hk [= <-].
        destruct (plan_nodes _ _ _ _ _ _ Hp k l Hk) as (x & _ & Hl' & _). congruence.
      * by apply (plan_inj _ _ _ _ _ _ Hp).
    + by apply (plan_tinj _ _ _ _ _ _ Hp).
    + intros k. destruct (decide (id = k)) as [<-|Hne].
      * intros _. by apply (plan_tdom _ _ _ _ _ _ Hp).
      * rewrite lookup_insert_ne by done. by apply (plan_tdom _ _ _ _ _ _ Hp).
    + by apply (plan_own_map _ _ _ _ _ _ Hp).
    + intros k l'. destruct (decide (id = k)) as [<-|Hne].
      * rewrite lookup_insert_eq. by intros [= <-].
      * rewrite lookup_insert_ne by done. by apply (plan_own _ _ _ _ _ _ Hp).
    + by apply (plan_town _ _ _ _ _ _ Hp).
Qed.
Lemma add_ids_mem_eq (h : heap) (lt : nat) (s : NodeIDs) (ids : list NodeID) :
  h !! lt = Some (CNodeIDs s) →
  add_ids_mem (Some lt) ids h = (Value tt, <[lt := CNodeIDs (add_ids s ids)]> h).
Proof.
  revert h s. induction ids as [|id ids IH]; intros h s Hs; cbn [add_ids_mem].
  { by rewrite insert_id. }
  assert (Hread : read_NodeIDs (Some lt) h = (Value s, h)).
  { unfold read_NodeIDs. by rewrite (bind_Value _ _ h h _ (load_eq h lt _ Hs)). }
  rewrite (bind_Value _ _ h h _ Hread).
  rewrite (bind_Value _ _ h _ _ (store_eq h lt _)).
  rewrite (IH _ ({[id]} ∪ s)) by (by rewrite lookup_insert_eq).
  by rewrite insert_insert_eq.
Qed.

Lemma AddTargets_mem_sim (h : heap) (em tm : gmap NodeID nat)
    (en : gmap NodeID ExecutableNode) (k : NodeID) (l : nat) (x : ExecutableNode)
    (ids : list NodeID) :
  plan_rep h0 h le em tm en → em !! k = Some l → en !! k = Some x →
  ∃ h' tm',
    AddTargets_mem (Some l) ids h = (Value tt, h')
    ∧ plan_rep h0 h' le em tm' (<[k := AddTargets ids x]> en).
Proof.
  intros Hp Hk Hx.
  destruct (plan_nodes _ _ _ _ _ _ Hp k l Hk) as (x0 & Hx0 & Hl & Ht).
  assert (x0 = x) as -> by congruence.
  pose proof (plan_map _ _ _ _ _ _ Hp) as Hle.
  pose proof (plan_sub _ _ _ _ _ _ Hp) as Hsub.
  unfold AddTargets_mem, AddTargets.
  rewrite (bind_Value _ _ h h _ (load_eq h l _ Hl)).
  destruct (tm !! k) as [lt|] eqn:Etm, (targetIDs x) as [s|] eqn:Ex; try done.
  - rewrite (add_ids_mem_eq h lt s ids Ht).
    exists (<[lt := CNodeIDs (add_ids s ids)]> h), tm. split; [done|].
    assert (Hlt : ∀ a c, h !! a = Some c → (∀ s', c ≠ CNodeIDs s') →
                         <[lt := CNodeIDs (add_ids s ids)]> h !! a = h !! a).
    { intros a c Ha Hc. rewrite lookup_insert_ne; [done|]. intros ->.
      rewrite Ht in Ha. injection Ha as <-. by apply (Hc s). }
    apply (plan_rep_update h0 h _ le em tm tm en k l); try done.
    + apply insert_subseteq_r; [|done]. by apply (plan_town _ _ _ _ _ _ Hp k).
    + by apply (Hlt le _ Hle).
    + intros k' l' Hne Hk'.
      destruct (plan_nodes _ _ _ _ _ _ Hp k' l' Hk') as (x' & _ & Hl' & _).
      by apply (Hlt l' _ Hl').
    + intros k' t' Hne Hk'. rewrite lookup_insert_ne; [done|]. intros E.
      apply Hne. rewrite <- E in Hk'. by apply (plan_tinj _ _ _ _ _ _ Hp k' k lt).
    + rewrite Etm. split; simpl.
      * by rewrite (Hlt l _ Hl).
      * by rewrite lookup_insert_eq.
    + rewrite Etm. intros t [= <-]. split; [by apply (plan_town _ _ _ _ _ _ Hp k)|].
      intros k' Hne Hk'. apply Hne. by apply (plan_tinj _ _ _ _ _ _ Hp k' k lt).
  - rewrite (bind_Value _ _ h _ _ (alloc_eq h _)).
    set (lt := fresh (dom h)). set (h1 := <[lt := CNodeIDs ∅]> h).
    assert (Hlt : h !! lt = None) by apply fresh_None.
    assert (Hlt0 : h0 !! lt = None) by (by apply fresh_own).
    rewrite (bind_Value _ _ h1 _ _ (add_ids_mem_eq h1 lt ∅ ids (lookup_insert_eq h lt _))).
    unfold h1. rewrite insert_insert_eq. set (h2 := <[lt := _]> h).
    assert (Hll : l ≠ lt) by (intros ->; congruence).
    assert (Hl2 : h2 !! l = Some (CExec None (required x) (fn x))).
    { unfold h2. by rewrite lookup_insert_ne. }
    rewrite (bind_Value _ _ h2 h2 _ (load_eq h2 l _ Hl2)).
    rewrite store_eq. set (h3 := <[l := _]> h2).
    exists h3, (<[k := lt]> tm). split; [done|].
    assert (Hother : ∀ a, a ≠ l → is_Some (h !! a) → h3 !! a = h !! a).
    { intros a Hal [c Ha]. unfold h3, h2. rewrite !lookup_insert_ne; [done| |done].
      intros ->. congruence. }
    apply (plan_rep_update h0 h _ le em tm _ en k l); try done.
    + unfold h3, h2. apply insert_subseteq_r; [by apply (plan_own _ _ _ _ _ _ Hp k)|].
      by apply insert_subseteq_r.
    + apply Hother; [|by eauto]. intros ->. congruence.
    + intros k' Hne. by rewrite lookup_insert_ne.
    + intros k' l' Hne Hk'.
      destruct (plan_nodes _ _ _ _ _ _ Hp k' l' Hk') as (x' & _ & Hl' & _).
      apply Hother; [|by eauto]. intros ->. apply Hne.
      by apply (plan_inj _ _ _ _ _ _ Hp k' k l).
    + intros k' t' Hne Hk'.
      destruct (plan_targets _ _ _ _ _ _ k' t' Hp Hk') as [s' Hs'].
      apply Hother; [|by eauto]. intros ->. congruence.
    + rewrite lookup_insert_eq. split; simpl.
      * unfold h3. by rewrite lookup_insert_eq.
      * unfold h3, h2. by rewrite lookup_insert_ne, lookup_insert_eq.
    + rewrite lookup_insert_eq. intros t [= <-]. split; [done|].
      intros k' Hne Hk'.
      destruct (plan_targets _ _ _ _ _ _ k' lt Hp Hk') as [s' Hs']. congruence.
Qed.

(** A write to the fields [required] and [fn] of the node of key [k]. *)
Lemma store_node_sim (h : heap) (em tm : gmap NodeID nat)
    (en : gmap NodeID ExecutableNode) (k : NodeID) (l : nat) (x x' : ExecutableNode) :
  plan_rep h0 h le em tm en → em !! k = Some l → en !! k = Some x →
  targetIDs x' = targetIDs x →
  h !! l = Some (CExec (tm !! k) (required x) (fn x))
  ∧ plan_rep h0 (<[l := CExec (tm !! k) (required x') (fn x')]> h) le em tm (<[k := x']> en).
Proof.
  intros Hp Hk Hx Hsame.
  destruct (plan_nodes _ _ _ _ _ _ Hp k l Hk) as (x0 & Hx0 & Hl & Ht).
  assert (x0 = x) as -> by congruence. split; [done|].
  pose proof (plan_map _ _ _ _ _ _ Hp) as Hle.
  pose proof (plan_sub _ _ _ _ _ _ Hp) as Hsub.
  assert (Hother : ∀ a c', h !! a = Some c' → a ≠ l →
            <[l := CExec (tm !! k) (required x') (fn x')]> h !! a = h !! a).
  { intros a c' _ Hne. by rewrite lookup_insert_ne. }
  apply (plan_rep_update h0 h _ le em tm tm en k l); try done.
  - apply insert_subseteq_r; [|done]. by apply (plan_own _ _ _ _ _ _ Hp k).
  - apply (Hother le _ Hle). intros E. rewrite E in Hle. congruence.
  - intros k' l' Hne Hk'.
    destruct (plan_nodes _ _ _ _ _ _ Hp k' l' Hk') as (x'' & _ & Hl' & _).
    apply (Hother l' _ Hl'). intros E. apply Hne. rewrite E in Hk'.
    by apply (plan_inj _ _ _ _ _ _ Hp k' k l).
  - intros k' t' Hne Hk'.
    destruct (plan_targets _ _ _ _ _ _ k' t' Hp Hk') as [s' Hs'].
    apply (Hother t' _ Hs'). intros E. rewrite E in Hs'. congruence.
  - split; [by rewrite lookup_insert_eq|]. rewrite Hsame.
    destruct (tm !! k) as [t|] eqn:Etm, (targetIDs x) as [s|]; try done.
    rewrite lookup_insert_ne; [done|]. intros E. rewrite E in Hl. congruence.
  - intros t Ht'. split; [by apply (plan_town _ _ _ _ _ _ Hp k)|].
    intros k' Hne Hk'. apply Hne. by apply (plan_tinj _ _ _ _ _ _ Hp k' k t).
Qed.

Lemma set_fn_sim (h : heap) (em tm : gmap NodeID nat)
    (en : gmap NodeID ExecutableNode) (k : NodeID) (l : nat) (x : ExecutableNode)
    (f : option NodeFn) :
  plan_rep h0 h le em tm en → em !! k = Some l → en !! k = Some x →
  ∃ h', set_fn (Some l) f h = (Value tt, h')
        ∧ plan_rep h0 h' le em tm
            (<[k := {| targetIDs := targetIDs x; required := required x; fn := f |}]> en).
Proof.
  intros Hp Hk Hx.
  destruct (store_node_sim h em tm en k l x
              {| targetIDs := targetIDs x; required := required x; fn := f |}
              Hp Hk Hx eq_refl) as [Hl Hp'].
  unfold set_fn. rewrite (bind_Value _ _ h h _ (load_eq h l _ Hl)), store_eq. eauto.
Qed.

Lemma set_required_sim (h : heap) (em tm : gmap NodeID nat)
    (en : gmap NodeID ExecutableNode) (k : NodeID) (l : nat) (x : ExecutableNode)
    (r : Z) :
  plan_rep h0 h le em tm en → em !! k = Some l → en !! k = Some x →
  ∃ h', set_required (Some l) r h = (Value tt, h')
        ∧ plan_rep h0 h' le em tm
            (<[k := {| targetIDs := targetIDs x; required := r; fn := fn x |}]> en).
Proof.
  intros Hp Hk Hx.
  destruct (store_node_sim h em tm en k l x
              {| targetIDs := targetIDs x; required := r; fn := fn x |}
              Hp Hk Hx eq_refl) as [Hl Hp'].
  unfold set_required. rewrite (bind_Value _ _ h h _ (load_eq h l _ Hl)), store_eq. eauto.
Qed.

Lemma compile_deps_mem_sim (id : NodeID) (deps : list NodeID) (h : heap)
    (em tm : gmap NodeID nat) (en : gmap NodeID ExecutableNode) :
  plan_rep h0 h le em tm en →
  ∃ h' em' tm',
    compile_deps_mem (Some le) id deps h = (Value tt, h')
    ∧ plan_rep h0 h' le em' tm' (foldl (compile_dep id) en deps).
Proof.
  revert h em tm en. induction deps as [|depId deps IH]; intros h em tm en Hp; simpl.
  { by exists h, em, tm. }
  destruct (GetOrCreate_mem_sim h em tm en depId Hp) as (l & h1 & em1 & Hget & Hp1 & Hl & Hx).
  rewrite (bind_Value _ _ h h1 _ Hget).
  destruct (AddTargets_mem_sim h1 em1 tm _ depId l _ [id] Hp1 Hl Hx) as (h2 & tm2 & Hadd & Hp2).
  rewrite (bind_Value _ _ h1 h2 _ Hadd).
  destruct (IH h2 em1 tm2 _ Hp2) as (h3 & em3 & tm3 & Hrest & Hp3).
  exists h3, em3, tm3. split; [done|].
  unfold compile_dep at 2. by destruct (GetOrCreate depId en).
Qed.

Lemma compile_nodes_mem_sim (G : Graph) (dord : NodeID → RangeOrder)
    (lP : list (NodeID * Node)) (lM : list (NodeID * ptr)) (h : heap)
    (em tm : gmap NodeID nat) (en : gmap NodeID ExecutableNode) :
  Forall2 (λ a b, a.1 = b.1 ∧ node_at h0 b.2 = Some a.2) lP lM →
  plan_rep h0 h le em tm en →
  ∃ h' em' tm',
    compile_nodes_mem dord (Some le) lM h = (Value tt, h')
    ∧ plan_rep h0 h' le em' tm' (foldl (compile_node dord) en lP).
Proof.
  intros Hl. revert h em tm en.
  induction Hl as [|[id N] [id' q] lP lM [Hid HN] Hl IH]; intros h em tm en Hp; simpl.
  { by exists h, em, tm. }
  simpl in Hid, HN. subst id'.
  destruct (node_at_inv h0 q N HN) as (d & Hd & Hq).
  pose proof (plan_sub _ _ _ _ _ _ Hp) as Hsub.
  rewrite (bind_Value _ _ h h _ (proj1 (Hq h Hsub))).
  rewrite (bind_Value _ _ h h _ (read_NodeIDs_eq h0 h d _ Hsub Hd)).
  destruct (compile_deps_mem_sim id (dord id (Dependencies N)) h em tm en Hp)
    as (h1 & em1 & tm1 & Hdeps & Hp1).
  rewrite (bind_Value _ _ h h1 _ Hdeps).
  set (en1 := foldl (compile_dep id) en (dord id (Dependencies N))) in *.
  destruct (GetOrCreate_mem_sim h1 em1 tm1 en1 id Hp1) as (l & h2 & em2 & Hget & Hp2 & Hl2 & Hx).
  rewrite (bind_Value _ _ h1 h2 _ Hget).
  pose proof (plan_sub _ _ _ _ _ _ Hp2) as Hsub2.
  rewrite (bind_Value _ _ h2 h2 _ (proj2 (Hq h2 Hsub2))).
  destruct (set_fn_sim h2 em2 tm1 _ id l _ (Fn N) Hp2 Hl2 Hx) as (h3 & Hfn & Hp3).
  rewrite (bind_Value _ _ h2 h3 _ Hfn).
  pose proof (plan_sub _ _ _ _ _ _ Hp3) as Hsub3.
  rewrite (bind_Value _ _ h3 h3 _ (proj1 (Hq h3 Hsub3))).
  rewrite (bind_Value _ _ h3 h3 _ (read_NodeIDs_eq h0 h3 d _ Hsub3 Hd)).
  destruct (set_required_sim h3 em2 tm1 _ id l _ (Z.of_nat (size (Dependencies N)))
              Hp3 Hl2 (lookup_insert_eq _ _ _)) as (h4 & Hreq & Hp4).
  rewrite (bind_Value _ _ h3 h4 _ Hreq).
  rewrite insert_insert_eq in Hp4. simpl in Hp4.
  destruct (IH h4 em2 tm1 _ Hp4) as (h5 & em5 & tm5 & Hrest & Hp5).
  exists h5, em5, tm5. split; [done|].
  fold en1. by destruct (GetOrCreate id en1).
Qed.
End PlanSim.

Lemma exec_rep_exec_at (h : heap) (x : ExecutableNode) (l : nat) (t : ptr) :
  exec_rep h x l t → exec_at h (Some l) = Some x.
Proof.
  intros [Hl Ht]. unfold exec_at. simpl. rewrite Hl.
  destruct x as [ts r f]. simpl in *.
  destruct t as [lt|], ts as [s|]; try done. by rewrite Ht.
Qed.

Lemma plan_rep_execs_at (h0 h : heap) (le : nat) (em tm : gmap NodeID nat)
    (en : gmap NodeID ExecutableNode) :
  plan_rep h0 h le em tm en → execs_at h (Some le) = Some en.
Proof.
  intros Hp. unfold execs_at. rewrite (plan_map _ _ _ _ _ _ Hp).
  assert (Hat : ∀ k, (Some <$> em) !! k ≫= exec_at h = en !! k).
  { intros k. rewrite lookup_fmap. destruct (em !! k) as [l|] eqn:El; simpl.
    - destruct (plan_nodes _ _ _ _ _ _ Hp k l El) as (x & -> & Hx).
      by apply (exec_rep_exec_at h x l (tm !! k)).
    - by rewrite (plan_dom _ _ _ _ _ _ Hp k El). }
  rewrite decide_True.
  - f_equal. apply map_eq. intros k. by rewrite lookup_omap, Hat.
  - intros k q. rewrite lookup_fmap. destruct (em !! k) as [l|] eqn:El; [|done].
    simpl. intros [= <-].
    destruct (plan_nodes _ _ _ _ _ _ Hp k l El) as (x & _ & Hx).
    rewrite (exec_rep_exec_at h x l (tm !! k) Hx). eauto.
Qed.

Lemma plan_rep_alloc (h0 h : heap) (le : nat) (em tm : gmap NodeID nat)
    (en : gmap NodeID ExecutableNode) (c : cell) :
  plan_rep h0 h le em tm en → execs_at (<[fresh (dom h) := c]> h) (Some le) = Some en.
Proof.
  intros Hp. set (a := fresh (dom h)).
  assert (Ha : h !! a = None) by apply fresh_None.
  apply (plan_rep_execs_at h0 _ le em tm).
  destruct Hp as [Hsub Hmap Hdom Hnodes Hinj Htinj Htdom Hown_map Hown Htown].
  split; try done.
  - apply insert_subseteq_r; [|done]. by apply fresh_own.
  - rewrite lookup_insert_ne; [done|]. intros E. fold a in E. congruence.
  - intros k l Hk. destruct (Hnodes k l Hk) as (x & Hx & Hrep).
    exists x. split; [done|]. pose proof Hrep as [Hl Ht].
    apply exec_rep_insert; [done| |].
    + intros E. congruence.
    + intros E. rewrite E in Ht. destruct (targetIDs x); [congruence|done].
Qed.

(** X24. On a heap that holds the graph [g] behind [p],
    [CompileToExecutable] does not panic and returns a pointer to the plan
    that the model without a heap builds for [g]. *)
Theorem CompileToExecutable_mem_plan (gord : RangeOrder) (dord : NodeID → RangeOrder)
    (h : heap) (p : ptr) (g : Graph) :
  graph_at h p = Some g →
  ∃ q, (CompileToExecutable_mem gord dord p h).1 = Value q
       ∧ peg_at (CompileToExecutable_mem gord dord p h).2 q
         = Some (CompileToExecutable gord dord g).1.
Proof.
  intros Hgraph. destruct (graph_at_inv h p g Hgraph) as (ns & m & HG & Hall & Hg).
  unfold CompileToExecutable_mem, CompileToExecutable. simpl.
  destruct (Hg h (reflexivity h)) as (Hn & _ & Hm).
  rewrite (bind_Value _ _ h h _ Hn), (bind_Value _ _ h h _ Hm).
  rewrite (bind_Value _ _ h _ _ (alloc_eq h _)).
  set (le := fresh (dom h)). set (h1 := <[le := CExecs ∅]> h).
  assert (Hle : h !! le = None) by apply fresh_None.
  assert (Hsub1 : h ⊆ h1) by (by apply insert_subseteq_r).
  destruct (Hg h1 Hsub1) as (Hn1 & _ & Hm1).
  rewrite (bind_Value _ _ h1 h1 _ Hn1), (bind_Value _ _ h1 h1 _ Hm1).
  assert (Hp1 : plan_rep h h1 le ∅ ∅ ∅).
  { split; try done. unfold h1. by rewrite lookup_insert_eq, fmap_empty. }
  destruct (compile_nodes_mem_sim h le g dord (range_map gord (nodes g)) (range_map gord m)
              h1 ∅ ∅ ∅) as (h2 & em & tm & Hloop & Hp2); [|done|].
  { rewrite HG. by apply range_map_omap. }
  rewrite (bind_Value _ _ h1 h2 _ Hloop).
  destruct (Hg h2 (plan_sub _ _ _ _ _ _ Hp2)) as (_ & Hname & _).
  rewrite (bind_Value _ _ h2 h2 _ Hname). rewrite alloc_eq. simpl.
  eexists. split; [done|]. unfold peg_at. simpl. rewrite lookup_insert_eq.
  by rewrite (plan_rep_alloc h h2 le em tm _ _ Hp2).
Qed.

Lemma CompileToExecutable_mem_plan_witness :
  graph_at pair_heap (Some 0) = Some (pair_graph succeed)
  ∧ ∃ q, (CompileToExecutable_mem fixed_order (λ _, fixed_order) (Some 0) pair_heap).1 = Value q
         ∧ peg_at (CompileToExecutable_mem fixed_order (λ _, fixed_order) (Some 0) pair_heap).2 q
           = Some (CompileToExecutable fixed_order (λ _, fixed_order) (pair_graph succeed)).1.
Proof.
  assert (Hg : graph_at pair_heap (Some 0) = Some (pair_graph succeed))
    by (vm_compute; reflexivity).
  split; [exact Hg|].
  exact (CompileToExecutable_mem_plan fixed_order (λ _, fixed_order) pair_heap (Some 0)
           (pair_graph succeed) Hg).
Defined.

(** ** The heap: Add writes to the graph *)

Lemma ids_at_insert_Nodes (h : heap) (ln : nat) (m m' : gmap NodeID ptr) (d : ptr) :
  h !! ln = Some (CNodes m) → ids_at (<[ln := CNodes m']> h) d = ids_at h d.
Proof.
  intros Hln. destruct d as [l|]; simpl; [|done].
  destruct (decide (ln = l)) as [<-|Hne].
  - by rewrite lookup_insert_eq, Hln.
  - by rewrite lookup_insert_ne.
Qed.

Lemma node_at_insert_Nodes (h : heap) (ln : nat) (m m' : gmap NodeID ptr) (q : ptr) :
  h !! ln = Some (CNodes m) → node_at (<[ln := CNodes m']> h) q = node_at h q.
Proof.
  intros Hln. unfold node_at. destruct q as [l|]; simpl; [|done].
  destruct (decide (ln = l)) as [<-|Hne].
  - by rewrite lookup_insert_eq, Hln.
  - rewrite lookup_insert_ne by done.
    destruct (h !! l) as [[]|]; try done. by rewrite (ids_at_insert_Nodes h ln m m').
Qed.

Lemma graph_at_cells (h : heap) (p : ptr) (G : Graph) :
  graph_at h p = Some G →
  ∃ lg ns m,
    p = Some lg ∧ h !! lg = Some (CGraph (name G) ns)
    ∧ match ns with
      | None => m = ∅
      | Some ln => h !! ln = Some (CNodes m)
      end
    ∧ nodes G = omap (node_at h) m
    ∧ ∀ k q, m !! k = Some q → is_Some (node_at h q).
Proof.
  unfold graph_at. destruct p as [lg|]; simpl; [|done].
  destruct (h !! lg) as [c|] eqn:E; [|done]. destruct c; try done.
  destruct (nodes_at h ns) as [x|] eqn:Ex; [|done]. intros [= <-]. simpl.
  destruct ns as [ln|]; simpl in Ex.
  - destruct (h !! ln) as [c|] eqn:En; [|done].
    destruct c as [|m| | | | | | |]; try done.
    destruct (decide (map_Forall _ m)) as [Hall|]; [|done]. injection Ex as <-.
    by exists lg, (Some ln), m.
  - injection Ex as <-. exists lg, None, ∅. split; [done|]. split; [done|].
    split; [done|]. split; [by rewrite omap_empty|]. intros k q. by rewrite lookup_empty.
Qed.

Lemma first_missing_mem_eq (h : heap) (g : ptr) (G : Graph) (m : gmap NodeID ptr)
    (deps : list NodeID) :
  (∀ n, Graph_node g n h = (Value (m !! n), h)) →
  (∀ n, nodes G !! n = m !! n ≫= node_at h) →
  (∀ k q, m !! k = Some q → is_Some (node_at h q)) →
  first_missing_mem g deps h = (Value (first_missing (nodes G) deps), h).
Proof.
  intros Hnode HG Hall. induction deps as [|d deps IH]; simpl; [done|].
  rewrite (bind_Value _ _ h h _ (Hnode d)), HG.
  destruct (m !! d) as [q|] eqn:Ed; simpl; [|done].
  destruct (Hall d q Ed) as [N ->]. done.
Qed.

(** X25. On a heap that holds the graph [g] behind [p], with a node map that
    is not nil, and the node [node] behind [n], [Add] returns what the model
    without a heap returns.  When it fails the heap is as it was.  When it
    succeeds the heap is not: the node map of the graph, at the location it
    was at, now holds [n] under the identifier, and [p] holds the graph of
    the model. *)
Theorem Add_mem_Add (o : RangeOrder) (h : heap) (p n : ptr) (ln : nat)
    (g : Graph) (node : Node) :
  graph_at h p = Some g →
  node_at h n = Some node →
  (Graph_nodes p h).1 = Value (Some ln) →
  match (Add o node g).1 with
  | Ok id =>
      (Add_mem o p n h).1 = Value (Ok id)
      ∧ graph_at (Add_mem o p n h).2 p = Some (Add o node g).2
      ∧ (∃ m, h !! ln = Some (CNodes m)
              ∧ m !! id = None
              ∧ (Add_mem o p n h).2 = <[ln := CNodes (<[id := n]> m)]> h)
      ∧ ¬ h ⊆ (Add_mem o p n h).2
  | Err e =>
      (Add_mem o p n h).1 = Value (Err e)
      ∧ (Add_mem o p n h).2 = h
      ∧ (Add o node g).2 = g
  end.
Proof.
  intros Hgraph Hnode Hnil.
  destruct (graph_at_cells h p g Hgraph) as (lg & ns & m & -> & Hlg & Hns & HG & Hall).
  assert (Hgn : Graph_nodes (Some lg) h = (Value ns, h)).
  { unfold Graph_nodes. by rewrite (bind_Value _ _ h h _ (load_eq h lg _ Hlg)). }
  rewrite Hgn in Hnil. simpl in Hnil. injection Hnil as ->.
  assert (Hrn : read_Nodes (Some ln) h = (Value m, h)).
  { unfold read_Nodes. by rewrite (bind_Value _ _ h h _ (load_eq h ln _ Hns)). }
  assert (Hgnode : ∀ k, Graph_node (Some lg) k h = (Value (m !! k), h)).
  { intros k. unfold Graph_node.
    by rewrite (bind_Value _ _ h h _ Hgn), (bind_Value _ _ h h _ Hrn). }
  assert (Hlookup : ∀ k, nodes g !! k = m !! k ≫= node_at h).
  { intros k. by rewrite HG, lookup_omap. }
  destruct (node_at_inv h n node Hnode) as (d & Hd & Hq).
  assert (Hid : Identifier_mem n h = (Value (Identifier node), h)).
  { unfold node_at in Hnode. destruct n as [l|]; simpl in Hnode; [|done].
    destruct (h !! l) as [c|] eqn:E; [|done]. destruct c; try done.
    destruct (ids_at h deps) as [s|]; [|done]. injection Hnode as <-.
    unfold Identifier_mem. by rewrite (bind_Value _ _ h h _ (load_eq h l _ E)). }
  unfold Add_mem, Add.
  rewrite (bind_Value _ _ h h _ Hid), (bind_Value _ _ h h _ (Hgnode _)), Hlookup.
  destruct (m !! Identifier node) as [q|] eqn:Eq; simpl.
  { destruct (Hall _ q Eq) as [N ->]. done. }
  rewrite (bind_Value _ _ h h _ (proj1 (Hq h (reflexivity h)))).
  rewrite (bind_Value _ _ h h _ (read_NodeIDs_eq h h d _ (reflexivity h) Hd)).
  rewrite (bind_Value _ _ h h _ (first_missing_mem_eq h (Some lg) g m _ Hgnode Hlookup Hall)).
  destruct (first_missing (nodes g) (o (Dependencies node))) as [depId|]; simpl; [done|].
  rewrite (bind_Value _ _ h h _ Hgn), (bind_Value _ _ h h _ Hrn).
  rewrite (bind_Value _ _ h _ _ (store_eq h ln _)). simpl.
  set (h' := <[ln := CNodes (<[Identifier node := n]> m)]> h).
  split; [done|]. split; [|split].
  - assert (Hne : lg ≠ ln) by (intros E; rewrite E in Hlg; congruence).
    unfold graph_at. simpl. unfold h' at 1. rewrite lookup_insert_ne by done.
    rewrite Hlg. simpl. unfold h' at 1. rewrite lookup_insert_eq.
    assert (Hsame : ∀ q, node_at h' q = node_at h q).
    { intros q. by apply (node_at_insert_Nodes h ln m). }
    rewrite decide_True.
    + simpl. f_equal. f_equal. apply map_eq. intros k. rewrite lookup_omap.
      destruct (decide (Identifier node = k)) as [<-|Hk].
      * rewrite !lookup_insert_eq. simpl. by rewrite Hsame.
      * rewrite !lookup_insert_ne by done. rewrite Hlookup.
        destruct (m !! k) as [q|]; simpl; [by rewrite Hsame|done].
    + intros k q. rewrite Hsame. destruct (decide (Identifier node = k)) as [<-|Hk].
      * rewrite lookup_insert_eq. intros [= <-]. rewrite Hnode. eauto.
      * rewrite lookup_insert_ne by done. by apply Hall.
  - by exists m.
  - intros Hsub. pose proof (lookup_weaken h h' ln _ Hns Hsub) as Hln'.
    unfold h' in Hln'. rewrite lookup_insert_eq in Hln'. injection Hln' as Hm.
    assert (m !! Identifier node = Some n) as Hin by (rewrite <- Hm; apply lookup_insert_eq).
    congruence.
Qed.

Lemma Add_mem_Add_witness :
  graph_at pair_heap_C (Some 0) = Some (pair_graph succeed)
  ∧ node_at pair_heap_C (Some 5) = Some (NewNode "C" {["A"]} (Some succeed))
  ∧ (Graph_nodes (Some 0) pair_heap_C).1 = Value (Some 1)
  ∧ match (Add fixed_order (NewNode "C" {["A"]} (Some succeed)) (pair_graph succeed)).1 with
    | Ok id =>
        (Add_mem fixed_order (Some 0) (Some 5) pair_heap_C).1 = Value (Ok id)
        ∧ graph_at (Add_mem fixed_order (Some 0) (Some 5) pair_heap_C).2 (Some 0)
          = Some (Add fixed_order (NewNode "C" {["A"]} (Some succeed)) (pair_graph succeed)).2
        ∧ (∃ m, pair_heap_C !! 1 = Some (CNodes m)
                ∧ m !! id = None
                ∧ (Add_mem fixed_order (Some 0) (Some 5) pair_heap_C).2
                  = <[1 := CNodes (<[id := Some 5]> m)]> pair_heap_C)
        ∧ ¬ pair_heap_C ⊆ (Add_mem fixed_order (Some 0) (Some 5) pair_heap_C).2
    | Err e =>
        (Add_mem fixed_order (Some 0) (Some 5) pair_heap_C).1 = Value (Err e)
        ∧ (Add_mem fixed_order (Some 0) (Some 5) pair_heap_C).2 = pair_heap_C
        ∧ (Add fixed_order (NewNode "C" {["A"]} (Some succeed)) (pair_graph succeed)).2
          = pair_graph succeed
    end.
Proof.
  assert (Hg : graph_at pair_heap_C (Some 0) = Some (pair_graph succeed))
    by (vm_compute; reflexivity).
  assert (Hn : node_at pair_heap_C (Some 5) = Some (NewNode "C" {["A"]} (Some succeed)))
    by (vm_compute; reflexivity).
  assert (Hns : (Graph_nodes (Some 0) pair_heap_C).1 = Value (Some 1))
    by (vm_compute; reflexivity).
  split; [exact Hg|]. split; [exact Hn|]. split; [exact Hns|].
  exact (Add_mem_Add fixed_order pair_heap_C (Some 0) (Some 5) 1 (pair_graph succeed)
           (NewNode "C" {["A"]} (Some succeed)) Hg Hn Hns).
Defined.

(** [NewGraph] allocates the graph with an empty node map that is not nil;
    [NewNode] allocates the node and keeps the dependency map it is given. *)
Lemma NewGraph_mem_NewGraph (nm : string) (h : heap) :
  ∃ lg ln,
    (NewGraph_mem nm h).1 = Value (Some lg)
    ∧ graph_at (NewGraph_mem nm h).2 (Some lg) = Some (NewGraph nm)
    ∧ (Graph_nodes (Some lg) (NewGraph_mem nm h).2).1 = Value (Some ln)
    ∧ h ⊆ (NewGraph_mem nm h).2.
Proof.
  unfold NewGraph_mem. rewrite (bind_Value _ _ h _ _ (alloc_eq h _)), alloc_eq.
  set (ln := fresh (dom h)). set (h1 := <[ln := CNodes ∅]> h).
  set (lg := fresh (dom h1)). simpl.
  assert (Hln : h !! ln = None) by apply fresh_None.
  assert (Hlg : h1 !! lg = None) by apply fresh_None.
  assert (Hne : lg ≠ ln).
  { intros E. rewrite E in Hlg. unfold h1 in Hlg. by rewrite lookup_insert_eq in Hlg. }
  exists lg, ln. split; [done|]. split; [|split].
  - unfold graph_at. simpl. rewrite lookup_insert_eq. simpl.
    rewrite lookup_insert_ne by done. unfold h1. rewrite lookup_insert_eq.
    rewrite decide_True; [by rewrite omap_empty|]. intros k q. by rewrite lookup_empty.
  - unfold Graph_nodes. by rewrite (bind_Value _ _ _ _ _ (load_eq _ lg _ (lookup_insert_eq _ _ _))).
  - apply insert_subseteq_r; [|by apply insert_subseteq_r].
    unfold h1 in Hlg. by rewrite lookup_insert_ne in Hlg.
Qed.

Lemma NewNode_mem_NewNode (nm : string) (d : ptr) (s : NodeIDs) (f : option NodeFn)
    (h : heap) :
  ids_at h d = Some s →
  ∃ l, (NewNode_mem nm d f h).1 = Value (Some l)
       ∧ node_at (NewNode_mem nm d f h).2 (Some l) = Some (NewNode nm s f)
       ∧ h ⊆ (NewNode_mem nm d f h).2.
Proof.
  intros Hd. unfold NewNode_mem. rewrite alloc_eq. simpl.
  assert (Hl : h !! fresh (dom h) = None) by apply fresh_None.
  assert (Hsub : h ⊆ <[fresh (dom h) := CNode nm f d]> h) by (by apply insert_subseteq_r).
  eexists. split; [done|]. split; [|done].
  unfold node_at. simpl. rewrite lookup_insert_eq.
  by rewrite (ids_at_weaken h _ d s Hsub Hd).
Qed.
